(** * SMC: Symbol Modifier for COFF

    A shallow embedding of [smclib.c] (ordered hash dictionary, append
    buffer) and of the symbol-table passes and the argument loop of
    [smc.c], with the properties of the rewrite engine proved over it.
    The first part holds the embedding and the predicates the statements
    use, the second part the proofs. *)

From Stdlib Require Import ZArith Lia ZifyNat Strings.Byte Strings.String.
From stdpp Require Import base tactics option list.

Local Open Scope nat_scope.

(** ** C strings and outcomes *)

(** A C string is modelled by the bytes that precede its terminator; a
    nullable [const char *] is an [option cstr]. *)
Definition cstr := list byte.

#[global] Instance byte_eq_dec : EqDecision byte := Byte.byte_eq_dec.

(** A byte read as [uint8_t]. *)
Definition byte_val (b : byte) : Z := Z.of_N (Byte.to_N b).

Definition strlen (s : cstr) : nat := length s.

(** What a call can do: return, leave through [error] (message printed,
    [longjmp] to [main]), touch memory outside an object, or never leave a
    loop within the fuel it was given. *)
Inductive res (A : Type) : Type :=
  | Ret (a : A)
  | Abort (msg : string)
  | Undef
  | Timeout.
Arguments Ret {A} a.
Arguments Abort {A} msg.
Arguments Undef {A}.
Arguments Timeout {A}.

#[global] Instance res_bind : MBind res := fun A B f m =>
  match m with
  | Ret a => f a
  | Abort msg => Abort msg
  | Undef => Undef
  | Timeout => Timeout
  end.

(** [strdup]: allocation is taken to succeed.  On a null pointer the C
    runtime of the platform the tool is built for (it includes
    [windows.h]) gives a null pointer back, which [check_ptr] then
    rejects; elsewhere the call faults.  Control reaches the statement
    after [check_ptr] in neither case. *)
Definition strdup (s : option cstr) : option cstr := s.

Definition check_ptr {A : Type} (p : option A) : res A :=
  match p with
  | Some a => Ret a
  | None => Abort "Memory allocation failed."
  end.

(** ** Dictionary *)

(** [size_t] is 64 bits wide; [hash_t] is [size_t], and the hash is
    computed with its wrap-around.  Table sizes, counts, slot numbers and
    buffer offsets stay far below [2 ^ 64] on any run, the tables being
    held in memory, and are natural numbers here. *)
Definition size_t_bits : Z := 64.
Definition wrap (z : Z) : Z := z mod 2 ^ size_t_bits.

Record entry_t : Type := mk_entry {
  hash : Z;
  key : cstr;
  val : option cstr
}.

(** [entries] holds the initialised cells [entries[0..count)] of the C
    array, so [count] is its length; a cell of [indices] is [None] for
    [IDX_EMPTY]. *)
Record dict_t : Type := mk_dict {
  entries : list entry_t;
  indices : list (option nat);
  size_bits : nat
}.

Definition count (d : dict_t) : nat := length (entries d).

Definition DICT_INIT_BITS : nat := 5.
Definition DICT_SIZE (d : dict_t) : nat := Nat.shiftl 1 (size_bits d).
Definition DICT_MASK (d : dict_t) : nat := DICT_SIZE d - 1.
Definition NEXT_INDEX (d : dict_t) (i : nat) : nat :=
  Nat.land (i * 5 + 1) (DICT_MASK d).
Definition GET_ENTRY (d : dict_t) (i : nat) : option (option nat) :=
  indices d !! i.
Definition IS_ENTRY (ent : entry_t) (h : Z) (k : cstr) : bool :=
  (hash ent =? h)%Z && bool_decide (key ent = k).

Definition new_dict : dict_t :=
  {| entries := [];
     indices := replicate (Nat.shiftl 1 DICT_INIT_BITS) None;
     size_bits := DICT_INIT_BITS |}.

(** One round of [hash_key]: [h += (h << 5) + (h >> 27) + *k++], every
    operation in [size_t]. *)
Definition hash_step (h : Z) (b : byte) : Z :=
  wrap (h + wrap (wrap (wrap (Z.shiftl h 5) + Z.shiftr h 27) + byte_val b)).

Definition hash_key (k : cstr) : Z := fold_left hash_step k 1%Z.

(** [hash & DICT_MASK(dict)], the slot a probe starts at. *)
Definition home (d : dict_t) (h : Z) : nat :=
  Z.to_nat (Z.land h (Z.of_nat (DICT_MASK d))).

(** [dict->indices[i] = e], for a slot [i] the loop before it has read. *)
Definition set_index (d : dict_t) (i e : nat) : dict_t :=
  {| entries := entries d;
     indices := <[i := Some e]> (indices d);
     size_bits := size_bits d |}.

(** The [while] loop of [expand_dict]: advance to the first empty slot. *)
Fixpoint skip_used (fuel : nat) (d : dict_t) (i : nat) : res nat :=
  match fuel with
  | O => Timeout
  | S fuel' =>
      match GET_ENTRY d i with
      | None => Undef
      | Some None => Ret i
      | Some (Some _) => skip_used fuel' d (NEXT_INDEX d i)
      end
  end.

(** The [for] loop of [expand_dict], at entry number [e] with [todo] the
    entries from [e] on. *)
Fixpoint rehash (fuel : nat) (todo : list entry_t) (e : nat) (d : dict_t)
  : res dict_t :=
  match todo with
  | [] => Ret d
  | ent :: todo' =>
      i ← skip_used fuel d (home d (hash ent));
      rehash fuel todo' (S e) (set_index d i e)
  end.

(** [expand_dict]: one more size bit, the slot table reallocated and set
    to [IDX_EMPTY] throughout, then the loop over the entries. *)
Definition expand_dict (fuel : nat) (d : dict_t) : res dict_t :=
  let bits := S (size_bits d) in
  rehash fuel (entries d) 0
    {| entries := entries d;
       indices := replicate (Nat.shiftl 1 bits) None;
       size_bits := bits |}.

(** The probe loop of [dict_add]: it ends on the entry that matches or on
    the empty slot that closes the probe sequence. *)
Inductive probe_result : Type :=
  | Found (e : nat)
  | Vacant (i : nat).

Fixpoint probe (fuel : nat) (d : dict_t) (h : Z) (k : cstr) (i : nat)
  : res probe_result :=
  match fuel with
  | O => Timeout
  | S fuel' =>
      match GET_ENTRY d i with
      | None => Undef
      | Some None => Ret (Vacant i)
      | Some (Some e) =>
          match entries d !! e with
          | None => Undef
          | Some ent =>
              if IS_ENTRY ent h k then Ret (Found e)
              else probe fuel' d h k (NEXT_INDEX d i)
          end
      end
  end.

(** [entry->val = v] *)
Definition set_val (ent : entry_t) (v : option cstr) : entry_t :=
  {| hash := hash ent; key := key ent; val := v |}.

(** The same for [entry = dict->entries[e]]. *)
Definition update_entry (d : dict_t) (e : nat) (v : option cstr) : dict_t :=
  {| entries := alter (fun ent => set_val ent v) e (entries d);
     indices := indices d;
     size_bits := size_bits d |}.

(** [dict->indices[i] = dict->count; dict->entries[dict->count++] = entry],
    for the empty slot [i] the probe loop ended on. *)
Definition push_entry (d : dict_t) (i : nat) (ent : entry_t) : dict_t :=
  {| entries := entries d ++ [ent];
     indices := <[i := Some (count d)]> (indices d);
     size_bits := size_bits d |}.

(** [dict] is never null at the call sites and the null test is left out. *)
Definition dict_add (fuel : nat) (d : dict_t) (k : cstr) (v : option cstr)
  : res (dict_t * bool) :=
  let h := hash_key k in
  r ← probe fuel d h k (home d h);
  match r with
  | Found e =>
      _ ← check_ptr (strdup v);
      Ret (update_entry d e (strdup v), true)
  | Vacant i =>
      match v with
      | Some _ => Ret (d, false)
      | None =>
          let d1 := push_entry d i (mk_entry h k None) in
          if decide (DICT_SIZE d1 * 2 / 3 < count d1)
          then d2 ← expand_dict fuel d1; Ret (d2, true)
          else Ret (d1, true)
      end
  end.

(** [change_symbol_name] of [smc.c]. *)
Definition change_symbol_name (fuel : nat) (d : dict_t) (old new : cstr)
  : res dict_t :=
  '(d', ok) ← dict_add fuel d old (Some new);
  if ok : bool then Ret d'
  else Abort ("Cannot find symbol '" ++ string_of_list_byte old ++ "'.").

(** The name re-emission uses: [entry->val ?: entry->key]. *)
Definition effective_name (ent : entry_t) : cstr :=
  match val ent with
  | Some v => v
  | None => key ent
  end.

(** ** Append buffer *)

Definition BUF_INIT_SIZE : nat := 256.

(** A cell of allocated memory holds a byte, or [None] while nothing has
    been written to it. *)
Record buf_t : Type := mk_buf {
  size : nat;
  cnt : nat;
  buf : list (option byte)
}.

Definition new_buf : buf_t :=
  {| size := BUF_INIT_SIZE; cnt := 0; buf := replicate BUF_INIT_SIZE None |}.

(** Writing [data] at offset [off] of a memory block; the block has to
    hold the whole range. *)
Definition store {A : Type} (mem : list A) (off : nat) (data : list A)
  : res (list A) :=
  if decide (off + length data <= length mem)
  then Ret (take off mem ++ data ++ drop (off + length data) mem)
  else Undef.

(** The [while] loop of [buf_cat]; [realloc] keeps the old content and
    leaves the new cells unwritten. *)
Fixpoint enlarge (fuel : nat) (b : buf_t) (len : nat) : res buf_t :=
  if decide (size b < cnt b + len) then
    match fuel with
    | O => Timeout
    | S fuel' =>
        let size' := Nat.shiftl (size b) 1 in
        enlarge fuel'
          {| size := size'; cnt := cnt b; buf := resize size' None (buf b) |}
          len
    end
  else Ret b.

Definition buf_cat (fuel : nat) (b : buf_t) (s : cstr) : res (buf_t * nat) :=
  let len := strlen s + 1 in
  b1 ← enlarge fuel b len;
  mem ← store (buf b1) (cnt b1) (Some <$> (s ++ [x00]));
  let offset := cnt b1 in
  Ret ({| size := size b1; cnt := cnt b1 + len; buf := mem |}, offset).

(** ** Symbol table codec *)

(** Modelled from the spec: the record type [IMAGE_SYMBOL] and
    [IMAGE_SIZEOF_SYMBOL] come from [windows.h], which the repository does
    not contain.  The spec gives the name field: 8 bytes, read either as an
    inline string or as a zero discriminator in the first 4 bytes followed
    by a 4-byte unsigned offset, and a count of auxiliary records.  The
    rest is the layout of the COFF format: a packed record of 18 bytes,
    little-endian, [Value] at byte 8, [SectionNumber] at 12, [Type] at 14,
    [StorageClass] at 16 and [NumberOfAuxSymbols] at 17. *)
Definition IMAGE_SIZEOF_SYMBOL : nat := 18.
Definition OFFSET_Short : nat := 0.
Definition OFFSET_Long : nat := 4.
Definition OFFSET_NumberOfAuxSymbols : nat := 17.

(** The low 8 bits of an integer as a byte. *)
Definition byte_of_Z (z : Z) : byte :=
  default x00 (Byte.of_N (Z.to_N (z mod 256))).

(** A [DWORD] in memory, least significant byte first. *)
Definition dword_bytes (z : Z) : list byte :=
  [byte_of_Z z; byte_of_Z (Z.shiftr z 8); byte_of_Z (Z.shiftr z 16);
   byte_of_Z (Z.shiftr z 24)].

Definition dword_of_bytes (bs : list byte) : Z :=
  fold_right (fun b acc => (byte_val b + 256 * acc)%Z) 0%Z bs.

(** Conversion of a [size_t] to [DWORD]. *)
Definition to_DWORD (n : nat) : Z := (Z.of_nat n mod 2 ^ 32)%Z.

(** The file image from the symbol table on: [symtab] points at its byte
    0, and whatever follows the [nsym] records (the string table) is part
    of the same block.  A read that leaves the block has no result. *)
Definition image := list byte.

Definition load_bytes (img : image) (off n : nat) : res (list byte) :=
  if decide (off + n <= length img) then Ret (take n (drop off img))
  else Undef.

Definition load_dword (img : image) (off : nat) : res Z :=
  bs ← load_bytes img off 4; Ret (dword_of_bytes bs).

Definition load_byte (img : image) (off : nat) : res Z :=
  match img !! off with
  | Some b => Ret (byte_val b)
  | None => Undef
  end.

(** The C string that starts at [off]: the bytes up to the first NUL. *)
Fixpoint c_string (bs : list byte) : res cstr :=
  match bs with
  | [] => Undef
  | b :: bs' =>
      if decide (b = x00) then Ret []
      else s ← c_string bs'; Ret (b :: s)
  end.

Definition string_at (img : image) (off : nat) : res cstr :=
  c_string (drop off img).

Definition sym_offset (i : nat) : nat := i * IMAGE_SIZEOF_SYMBOL.

(** [sym->N.Name.Short ? sym->N.ShortName : strtab + sym->N.Name.Long]
    with [strtab = symtab + nsym]. *)
Definition symbol_name (img : image) (nsym i : nat) : res cstr :=
  short ← load_dword img (sym_offset i + OFFSET_Short);
  if decide (short ≠ 0%Z) then string_at img (sym_offset i)
  else
    long ← load_dword img (sym_offset i + OFFSET_Long);
    string_at img (sym_offset nsym + Z.to_nat long).

Definition NumberOfAuxSymbols (img : image) (i : nat) : res nat :=
  a ← load_byte img (sym_offset i + OFFSET_NumberOfAuxSymbols);
  Ret (Z.to_nat a).

(** The [for] loop of [get_symbol_names], at index [i]; [n] bounds the
    number of iterations left. *)
Fixpoint symbol_loop (n fuel : nat) (img : image) (nsym i : nat) (d : dict_t)
  : res dict_t :=
  if decide (nsym <= i) then Ret d
  else
    match n with
    | O => Timeout
    | S n' =>
        s ← symbol_name img nsym i;
        '(d', _) ← dict_add fuel d s None;
        aux ← NumberOfAuxSymbols img i;
        symbol_loop n' fuel img nsym (i + aux + 1) d'
    end.

Definition get_symbol_names (fuel : nat) (img : image) (nsym : nat)
  : res dict_t :=
  symbol_loop fuel fuel img nsym 0 new_dict.

(** The pairs of [main]'s rename loop, in order. *)
Fixpoint change_symbol_names (fuel : nat) (d : dict_t)
    (pairs : list (cstr * cstr)) : res dict_t :=
  match pairs with
  | [] => Ret d
  | (old, new) :: rest =>
      d' ← change_symbol_name fuel d old new;
      change_symbol_names fuel d' rest
  end.

(** [strncpy(dst, s, n)]: the [n] bytes written to [dst]. *)
Definition strncpy (s : cstr) (n : nat) : list byte :=
  take n s ++ replicate (n - strlen s) x00.

(** The body of the re-emission loop of [main] for one entry, up to the
    advance of [sym]. *)
Definition emit_name (fuel : nat) (img : image) (sym : nat) (b : buf_t)
    (entry : entry_t) : res (image * buf_t) :=
  let s := effective_name entry in
  let len := strlen s in
  if decide (len <= 8) then
    img' ← store img (sym_offset sym) (strncpy s 8);
    Ret (img', b)
  else
    '(b', offset) ← buf_cat fuel b s;
    img1 ← store img (sym_offset sym + OFFSET_Short) (dword_bytes 0);
    img2 ← store img1 (sym_offset sym + OFFSET_Long)
             (dword_bytes (to_DWORD offset));
    Ret (img2, b').

Fixpoint emit_loop (fuel : nat) (todo : list entry_t) (img : image)
    (sym : nat) (b : buf_t) : res (image * buf_t) :=
  match todo with
  | [] => Ret (img, b)
  | entry :: todo' =>
      '(img', b') ← emit_name fuel img sym b entry;
      aux ← NumberOfAuxSymbols img' sym;
      emit_loop fuel todo' img' (sym + aux + 1) b'
  end.

(** [buf_t *buf = new_buf(); buf->cnt = 4;]: the buffer as [main] hands
    it to the re-emission loop. *)
Definition strtab_buf : buf_t :=
  {| size := size new_buf; cnt := 4; buf := buf new_buf |}.

(** [main] from [new_buf()] to the two [fwrite] calls: the symbol records
    and the string table it writes. *)
Definition write_tables (fuel : nat) (img : image) (nsym : nat) (d : dict_t)
  : res (list byte * list (option byte)) :=
  '(img', b) ← emit_loop fuel (entries d) img 0 strtab_buf;
  mem ← store (buf b) 0 (Some <$> dword_bytes (to_DWORD (cnt b)));
  symtab ← load_bytes img' 0 (nsym * IMAGE_SIZEOF_SYMBOL);
  Ret (symtab, take (cnt b) mem).

(** The run of [main] on a loaded image and a list of rename pairs. *)
Definition smc (fuel : nat) (img : image) (nsym : nat)
    (pairs : list (cstr * cstr)) : res (list byte * list (option byte)) :=
  d ← get_symbol_names fuel img nsym;
  d' ← change_symbol_names fuel d pairs;
  write_tables fuel img nsym d'.

(** ** Predicates used in the statements *)

(** The slot reached from [i] after [n] applications of [NEXT_INDEX]. *)
Definition walk (d : dict_t) (n i : nat) : nat := Nat.iter n (NEXT_INDEX d) i.

(** The probe sequence of the spec's words: [next = (5*i + 1) mod tableSize]. *)
Definition next_slot (tableSize i : nat) : nat := (5 * i + 1) mod tableSize.

(** [(5^n - 1) / 4], the increment of the [n]-fold probe step. *)
Fixpoint geo (n : nat) : nat :=
  match n with
  | O => 0
  | S n' => 5 * geo n' + 1
  end.

(** The first [n] slots probed from [i] are all in use. *)
Definition used_run (d : dict_t) (i n : nat) : Prop :=
  forall m, m < n -> exists e, indices d !! walk d m i = Some (Some e).

(** Slot [j] closes the probe sequence that starts at [i]: it is the
    first empty slot on it. *)
Definition first_vacant (d : dict_t) (i j : nat) : Prop :=
  exists n, n < DICT_SIZE d /\ used_run d i n /\ walk d n i = j /\
            indices d !! j = Some None.

(** Entry number [e], of hash [h], is met by the probe sequence of [h]
    before any empty slot. *)
Definition placed (d : dict_t) (e : nat) (h : Z) : Prop :=
  exists n, n < DICT_SIZE d /\ used_run d (home d h) n /\
            indices d !! walk d n (home d h) = Some (Some e).

(** The number of empty slots. *)
Fixpoint vacancies (ix : list (option nat)) : nat :=
  match ix with
  | [] => 0
  | None :: ix' => S (vacancies ix')
  | Some _ :: ix' => vacancies ix'
  end.

(** The slot table indexes the first [n] entries. *)
Definition table_ok (d : dict_t) (n : nat) : Prop :=
  length (indices d) = DICT_SIZE d /\
  vacancies (indices d) + n = DICT_SIZE d /\
  (forall i e, indices d !! i = Some (Some e) -> e < n) /\
  (forall e ent, e < n -> entries d !! e = Some ent -> placed d e (hash ent)).

(** The invariant of the dictionary: the slot table indexes all entries,
    the load is at most 2/3, the stored hashes are those of the keys and
    no key occurs twice. *)
Definition wf (d : dict_t) : Prop :=
  table_ok d (count d) /\
  DICT_INIT_BITS <= size_bits d /\
  count d <= DICT_SIZE d * 2 / 3 /\
  Forall (fun ent => hash ent = hash_key (key ent)) (entries d) /\
  NoDup (key <$> entries d).

(** The dictionaries a run can hold. *)
Inductive reachable : dict_t -> Prop :=
  | reachable_new : reachable new_dict
  | reachable_add fuel d k v d' b :
      reachable d -> dict_add fuel d k v = Ret (d', b) -> reachable d'.

(** Lookup of a key: the probe loop of [dict_add] on its own. *)
Definition dict_find (fuel : nat) (d : dict_t) (k : cstr) : res probe_result :=
  probe fuel d (hash_key k) k (home d (hash_key k)).

#[local] Arguments walk : simpl never.

(** What the slot table depends on in an entry. *)
Definition hash_and_key (ent : entry_t) : Z * cstr := (hash ent, key ent).

(** Building a dictionary from a list of keys, as the scan does. *)
Fixpoint add_all (fuel : nat) (d : dict_t) (ks : list cstr) : res dict_t :=
  match ks with
  | [] => Ret d
  | k :: ks' => '(d', _) ← dict_add fuel d k None; add_all fuel d' ks'
  end.

(** A C string written as a string literal. *)
Definition str (s : string) : cstr := list_byte_of_string s.

(** A dictionary of three symbols and one of twenty-one, the last step
    before the first growth. *)
Definition small_dict : dict_t :=
  match add_all 32 new_dict (list_byte_of_string <$> ["foo"; "bar"; "baz"]%string) with
  | Ret d => d
  | _ => new_dict
  end.

Definition full_dict : dict_t :=
  match add_all 32 new_dict ((fun n => [byte_of_Z (65 + Z.of_nat n)]) <$> seq 0 21) with
  | Ret d => d
  | _ => new_dict
  end.

(** ** The append buffer *)

(** The buffer states the program produces: some capacity, as many cells
    as the capacity says, and a length within it. *)
Definition buf_ok (b : buf_t) : Prop :=
  0 < size b /\ length (buf b) = size b /\ cnt b <= size b.

(** [b'] comes from [b] by zero or more calls of [buf_cat]. *)
Inductive later : buf_t -> buf_t -> Prop :=
  | later_refl b : later b b
  | later_cat fuel b b1 b2 s off :
      later b b1 -> buf_cat fuel b1 s = Ret (b2, off) -> later b b2.

(** ** Re-emission of one name *)

(** The 8 bytes of the name field for name [s] when the string table
    stands at [off], and the bytes [s] adds to the string table. *)
Definition name_bytes (s : cstr) (off : nat) : list byte :=
  if decide (strlen s <= 8) then strncpy s 8
  else dword_bytes 0 ++ dword_bytes (to_DWORD off).

Definition table_bytes (s : cstr) : list byte :=
  if decide (strlen s <= 8) then [] else s ++ [x00].

(** ** The two walks over the symbol records *)

(** The traversal of [get_symbol_names] without the dictionary: the index
    and the decoded name of every primary record, in order. *)
Fixpoint scan (n : nat) (img : image) (nsym i : nat)
  : res (list (nat * cstr)) :=
  if decide (nsym <= i) then Ret []
  else
    match n with
    | O => Timeout
    | S n' =>
        s ← symbol_name img nsym i;
        aux ← NumberOfAuxSymbols img i;
        rest ← scan n' img nsym (i + aux + 1);
        Ret ((i, s) :: rest)
    end.

Definition primary_symbols (img : image) (nsym : nat)
  : res (list (nat * cstr)) :=
  scan nsym img nsym 0.

(** The entry the scan creates for a name. *)
Definition fresh_entry (s : cstr) : entry_t := mk_entry (hash_key s) s None.

(** The bytes the names add to the string table, in order. *)
Definition strtab_body (names : list cstr) : list byte :=
  concat (table_bytes <$> names).

(** Two images with the same auxiliary counts in every record. *)
Definition aux_agree (img img0 : image) : Prop :=
  length img = length img0 /\
  forall p, img !! (sym_offset p + OFFSET_NumberOfAuxSymbols)
            = img0 !! (sym_offset p + OFFSET_NumberOfAuxSymbols).

(** Record [p] of [img] carries the name [s]: inline and padded with NULs
    when [s] has at most 8 bytes, and otherwise as a zero discriminator
    and an offset at which the buffer holds [s] and its terminator. *)
Definition encodes (img : image) (b : buf_t) (p : nat) (s : cstr) : Prop :=
  if decide (strlen s <= 8) then
    load_bytes img (sym_offset p) 8 = Ret (s ++ replicate (8 - strlen s) x00)
  else
    exists off,
      load_bytes img (sym_offset p) 8
      = Ret (dword_bytes 0 ++ dword_bytes (to_DWORD off)) /\
      off + strlen s + 1 <= cnt b /\
      take (strlen s + 1) (drop off (buf b)) = (Some <$> s ++ [x00]).

(** A symbol record with the given name field, value and auxiliary count
    (section 0, type 0, storage class 2). *)
Definition sym_record (name : list byte) (value aux : Z) : list byte :=
  strncpy name 8 ++ dword_bytes value ++
  [x00; x00; x00; x00; x02; byte_of_Z aux].

(** Four records: [foo] with one auxiliary record, [bar], and a long name
    at offset 4 of the string table that follows. *)
Definition demo_image : image :=
  sym_record (list_byte_of_string "foo") 0 1 ++
  sym_record (list_byte_of_string ".file") 7 9 ++
  sym_record (list_byte_of_string "bar") 16 0 ++
  sym_record (dword_bytes 0 ++ dword_bytes 4) 32 0 ++
  dword_bytes 24 ++ list_byte_of_string "averylongsymbolname" ++ [x00].

(** One record with a name of exactly 8 bytes and value 1. *)
Definition eight_image : image :=
  sym_record (list_byte_of_string "abcdefgh") 1 0 ++ dword_bytes 4.

(** The dictionary of [demo_image] after the renames of the end-to-end
    example, and what [main] writes for it. *)
Definition demo_dict : dict_t :=
  match d ← get_symbol_names 64 demo_image 4;
        change_symbol_names 64 d
          [(list_byte_of_string "foo", list_byte_of_string "a_longer_name");
           (list_byte_of_string "averylongsymbolname",
            list_byte_of_string "short")] with
  | Ret d => d
  | _ => new_dict
  end.

(** The primary symbols of [demo_image]. *)
Definition demo_symbols : list (nat * cstr) :=
  [(0, str "foo"); (2, str "bar"); (3, str "averylongsymbolname")].

(** The renames of the spec's end-to-end example. *)
Definition demo_pairs : list (cstr * cstr) :=
  [(str "foo", str "baz"); (str "averylongsymbolname", str "short")].

Definition demo_tables : list byte * list (option byte) :=
  match write_tables 64 demo_image 4 demo_dict with
  | Ret out => out
  | _ => ([], [])
  end.

(** ** Further predicates and examples *)

(** The dictionary's table is as small as the load rule allows. *)
Definition snug (d : dict_t) : Prop :=
  size_bits d = DICT_INIT_BITS \/ DICT_SIZE d < 3 * count d.

(** One rename seen from an entry. *)
Definition rename_entry (old new : cstr) (ent : entry_t) : entry_t :=
  if decide (key ent = old) then set_val ent (Some new) else ent.

(** The new name the last pair for [k] gives, if a pair names [k]. *)
Fixpoint last_rename (pairs : list (cstr * cstr)) (k : cstr) : option cstr :=
  match pairs with
  | [] => None
  | (old, new) :: rest =>
      match last_rename rest k with
      | Some v => Some v
      | None => if decide (old = k) then Some new else None
      end
  end.

(** An entry after a batch of renames. *)
Definition renamed (pairs : list (cstr * cstr)) (ent : entry_t) : entry_t :=
  match last_rename pairs (key ent) with
  | Some v => set_val ent (Some v)
  | None => ent
  end.

(** A dictionary with its values replaced. *)
Definition with_entries (d : dict_t) (ents : list entry_t) : dict_t :=
  {| entries := ents; indices := indices d; size_bits := size_bits d |}.

(** A name that survives being written to record [p] and read again: no
    NUL in it, not empty, and, when it fills the 8-byte field, a NUL in the
    byte after the field. *)
Definition readable (img : image) (p : nat) (s : cstr) : Prop :=
  (x00 ∉ s) /\ s <> [] /\
  (strlen s = 8 -> img !! (sym_offset p + 8) = Some x00).

#[global] Instance readable_dec img p s : Decision (readable img p s).
Proof. unfold readable. apply _. Defined.

(** The name a symbol called [s] has after the renames [pairs]. *)
Definition final_name (pairs : list (cstr * cstr)) (s : cstr) : cstr :=
  default s (last_rename pairs s).

(** Renames of [demo_image] that move a name into the string table and
    another one out of it, and the output of the run. *)
Definition swap_pairs : list (cstr * cstr) :=
  [(str "foo", str "a_longer_name"); (str "averylongsymbolname", str "short")].

Definition swap_output : list byte * list (option byte) :=
  match smc 64 demo_image 4 swap_pairs with
  | Ret out => out
  | _ => ([], [])
  end.

(** ** The argument loop of [main] *)

(** [isspace] in the "C" locale, which the program never leaves: space,
    [\t], [\n], [\v], [\f] and [\r]. *)
Definition isspace (b : byte) : bool :=
  bool_decide (b ∈ [x20; x09; x0a; x0b; x0c; x0d]).

(** What [%s] does first: it passes over white space. *)
Fixpoint skip_space (s : list byte) : list byte :=
  match s with
  | b :: s' => if isspace b then skip_space s' else s
  | [] => []
  end.

(** The characters [%s] matches at the head of the input, up to the next
    white-space character or the end of input, and the input left. *)
Fixpoint scan_word (s : list byte) : list byte * list byte :=
  match s with
  | b :: s' =>
      if isspace b then ([], s)
      else let '(w, r) := scan_word s' in (b :: w, r)
  | [] => ([], [])
  end.

(** One [%s] directive of [fscanf] storing into a [char [256]]: nothing
    is stored at the end of input; the characters matched and a NUL are
    stored otherwise, which the array holds if they are at most 256; the
    caller then reads the array as a C string. *)
Definition scanf_s (s : list byte) : res (option (cstr * list byte)) :=
  match skip_space s with
  | [] => Ret None
  | b :: s' =>
      let '(w, r) := scan_word (b :: s') in
      if decide (length w + 1 <= 256) then
        name ← c_string (w ++ [x00]); Ret (Some (name, r))
      else Undef
  end.

(** [while (fscanf(fp, "%s%s", old, new) == 2) change_symbol_name(dict,
    old, new);] on the input [s] left in the stream; [n] bounds the number
    of iterations left. *)
Fixpoint listfile_loop (n fuel : nat) (d : dict_t) (s : list byte)
  : res dict_t :=
  r1 ← scanf_s s;
  match r1 with
  | None => Ret d
  | Some (old, s1) =>
      r2 ← scanf_s s1;
      match r2 with
      | None => Ret d
      | Some (new, s2) =>
          match n with
          | O => Timeout
          | S n' =>
              d' ← change_symbol_name fuel d old new;
              listfile_loop n' fuel d' s2
          end
      end
  end.

(** [argv[i] + 1] when [argv[i][0] == '@']. *)
Definition listfile_name (arg : cstr) : option cstr :=
  match arg with
  | b :: name => if decide (b = x40) then Some name else None
  | [] => None
  end.

(** [change_symbol_name(dict, old, NULL)]: the call [main] makes for a last
    argument without a partner, [argv[argc]] being a null pointer. *)
Definition change_symbol_name_null (fuel : nat) (d : dict_t) (old : cstr)
  : res dict_t :=
  '(d', ok) ← dict_add fuel d old None;
  if ok : bool then Ret d'
  else Abort ("Cannot find symbol '" ++ string_of_list_byte old ++ "'.").

(** The loop of [main] over [argv[3]], ..., [argv[argc - 1]].  [fs] gives
    for a file name the characters a text stream opened on it delivers, or
    nothing when [fopen] fails; [fscanf] on the null stream has no defined
    behaviour. *)
Fixpoint rename_loop (fuel : nat) (fs : cstr -> option (list byte))
    (d : dict_t) (args : list cstr) : res dict_t :=
  match args with
  | [] => Ret d
  | arg :: rest =>
      match listfile_name arg with
      | Some name =>
          match fs name with
          | Some s =>
              d' ← listfile_loop fuel fuel d s;
              rename_loop fuel fs d' rest
          | None => Undef
          end
      | None =>
          match rest with
          | new :: rest' =>
              d' ← change_symbol_name fuel d arg new;
              rename_loop fuel fs d' rest'
          | [] => change_symbol_name_null fuel d arg
          end
      end
  end.

(** ** Predicates on list files and arguments *)

(** A word of a list file: not empty and free of white space and NULs. *)
Definition word_ok (w : cstr) : Prop :=
  w <> [] /\ Forall (fun b => isspace b = false) w /\ (x00 ∉ w).

(** A word that the array holds together with its terminator. *)
Definition fits (w : cstr) : Prop := strlen w < 256.

(** The input is at its end or at a white-space character. *)
Definition word_end (s : list byte) : Prop :=
  match s with
  | [] => True
  | b :: _ => isspace b = true
  end.

(** The text consists of the words [ws], in order, with white space
    between them and possibly before and after. *)
Inductive spells : list byte -> list cstr -> Prop :=
  | spells_end sp : Forall (fun b => isspace b = true) sp -> spells sp []
  | spells_word sp w rest ws :
      Forall (fun b => isspace b = true) sp -> word_ok w -> word_end rest ->
      spells rest ws -> spells (sp ++ w ++ rest) (w :: ws).

(** Words taken two at a time; a last word without partner is left out. *)
Fixpoint pair_up (ws : list cstr) : list (cstr * cstr) :=
  match ws with
  | old :: new :: rest => (old, new) :: pair_up rest
  | _ => []
  end.

(** The arguments that spell out the pairs. *)
Definition flat_args (pairs : list (cstr * cstr)) : list cstr :=
  pairs ≫= fun p => [p.1; p.2].

(** A list file of two lines and a lone last word, and a file system that
    holds it. *)
Definition demo_listfile : list byte :=
  str "foo one" ++ [x0a] ++ str "bar  two" ++ [x0d; x0a] ++ str "extra".

Definition demo_fs (name : cstr) : option (list byte) :=
  if decide (name = str "list.txt") then Some demo_listfile else None.

#[global] Instance word_ok_dec w : Decision (word_ok w).
Proof. unfold word_ok. apply _. Defined.

(** The dictionary [small_dict] after one rename. *)
Definition renamed_small_dict : dict_t :=
  match change_symbol_names 64 small_dict [(str "foo", str "one")] with
  | Ret d => d
  | _ => new_dict
  end.

(** The record index at which the walk over the records [ps] that began
    at [i] ends: past the last of them and its auxiliary records. *)
Definition end_of_walk (img : image) (i : nat) (ps : list (nat * cstr))
  : res nat :=
  match last ps with
  | Some (p, _) => aux ← NumberOfAuxSymbols img p; Ret (p + aux + 1)
  | None => Ret i
  end.

(** [demo_dict] with one entry more, for a name that is no symbol. *)
Definition stray_dict : dict_t :=
  with_entries demo_dict
    (entries demo_dict ++ [fresh_entry (str "a_stray_argument")]).

(** A list file whose third word has 256 bytes. *)
Definition long_listfile : list byte :=
  str "foo one " ++ replicate 256 x61.

Definition long_fs (name : cstr) : option (list byte) :=
  if decide (name = str "long.txt") then Some long_listfile else None.

(** Record [p] of the written symbol array carries the name [s], [tab]
    being the written string table, length field included: a name of at
    most 8 bytes stands in the name field, padded with NULs; a longer one
    stands, with its terminator, in the string table at an offset past the
    length field, and the name field holds zero and that offset. *)
Definition carries (symtab tab : list byte) (p : nat) (s : cstr) : Prop :=
  if decide (strlen s <= 8) then
    load_bytes symtab (sym_offset p) 8
    = Ret (s ++ replicate (8 - strlen s) x00)
  else
    exists off,
      load_bytes symtab (sym_offset p) 8
      = Ret (dword_bytes 0 ++ dword_bytes (to_DWORD off)) /\
      4 <= off /\ off + strlen s + 1 <= length tab /\
      take (strlen s + 1) (drop off tab) = s ++ [x00].

(** The first [k] records the traversal of [get_symbol_names] visits from
    index [i] on, fewer if it ends before, and the index it then stands
    at. *)
Fixpoint scan_first (k : nat) (img : image) (nsym i : nat)
  : res (list (nat * cstr) * nat) :=
  match k with
  | O => Ret ([], i)
  | S k' =>
      if decide (nsym <= i) then Ret ([], i)
      else
        s ← symbol_name img nsym i;
        aux ← NumberOfAuxSymbols img i;
        '(rest, j) ← scan_first k' img nsym (i + aux + 1);
        Ret ((i, s) :: rest, j)
  end.

(** Two records with the same inline name in a table that announces a
    third record the image does not hold. *)
Definition cut_image : image :=
  sym_record (str "foo") 0 0 ++ sym_record (str "foo") 8 0.

(** The rename of [bar] to the empty string. *)
Definition blank_pairs : list (cstr * cstr) := [(str "bar", [])].

(** * Proofs *)

(** ** The probe sequence has full period *)

Lemma DICT_SIZE_pow d : DICT_SIZE d = 2 ^ size_bits d.
Proof. unfold DICT_SIZE. apply Nat.shiftl_1_l. Qed.

Lemma DICT_SIZE_pos d : 0 < DICT_SIZE d.
Proof.
  rewrite DICT_SIZE_pow. pose proof (Nat.pow_nonzero 2 (size_bits d)). lia.
Qed.

Lemma NEXT_INDEX_mod d i : NEXT_INDEX d i = next_slot (DICT_SIZE d) i.
Proof.
  unfold NEXT_INDEX, next_slot, DICT_MASK. rewrite DICT_SIZE_pow.
  replace (2 ^ size_bits d - 1) with (Nat.ones (size_bits d))
    by (rewrite Nat.ones_equiv; lia).
  rewrite Nat.land_ones. f_equal. lia.
Qed.

Lemma NEXT_INDEX_lt d i : NEXT_INDEX d i < DICT_SIZE d.
Proof.
  rewrite NEXT_INDEX_mod. apply Nat.mod_upper_bound.
  pose proof (DICT_SIZE_pos d). lia.
Qed.

Lemma walk_0 d i : walk d 0 i = i.
Proof. reflexivity. Qed.

Lemma walk_S d n i : walk d (S n) i = walk d n (NEXT_INDEX d i).
Proof. apply Nat.iter_succ_r. Qed.

Lemma walk_add d a b i : walk d (a + b) i = walk d a (walk d b i).
Proof. apply Nat.iter_add. Qed.

Lemma walk_lt d n i : i < DICT_SIZE d -> walk d n i < DICT_SIZE d.
Proof.
  intros Hi. destruct n as [|n]; [exact Hi|]. apply NEXT_INDEX_lt.
Qed.

Lemma geo_add a b : geo (a + b) = geo a * (4 * geo b + 1) + geo b.
Proof. induction a as [|a IH]; simpl; [lia|]. rewrite IH. lia. Qed.

Lemma geo_double q : geo (q + q) = 2 * (geo q * (2 * geo q + 1)).
Proof. rewrite geo_add. lia. Qed.

(** Closed form of the [n]-fold probe step. *)
Lemma walk_closed d n i :
  i < DICT_SIZE d ->
  walk d n i = (i + geo n * (4 * i + 1)) mod DICT_SIZE d.
Proof.
  intros Hi. induction n as [|n IH].
  - rewrite walk_0. simpl. rewrite Nat.add_0_r, Nat.mod_small; auto.
  - change (walk d (S n) i) with (NEXT_INDEX d (walk d n i)).
    rewrite NEXT_INDEX_mod, IH. unfold next_slot.
    rewrite <- Nat.Div0.add_mod_idemp_l, Nat.Div0.mul_mod_idemp_r,
      Nat.Div0.add_mod_idemp_l.
    f_equal. simpl geo. lia.
Qed.

Lemma pow2_divide_odd_factor k a b :
  Nat.divide (2 ^ k) (a * (2 * b + 1)) -> Nat.divide (2 ^ k) a.
Proof.
  revert a. induction k as [|k IH]; intros a H.
  - simpl. apply Nat.divide_1_l.
  - rewrite Nat.pow_succ_r' in *. destruct H as [c Hc].
    destruct (Nat.Even_or_Odd a) as [[a' ->]|[a' ->]]; [|lia].
    destruct (IH a') as [c' Hc'].
    + exists c. nia.
    + exists c'. lia.
Qed.

Lemma pow2_divide_geo k n : Nat.divide (2 ^ k) (geo n) -> Nat.divide (2 ^ k) n.
Proof.
  revert n. induction k as [|k IH]; intros n H.
  - simpl. apply Nat.divide_1_l.
  - rewrite Nat.pow_succ_r' in *. destruct H as [c Hc].
    destruct (Nat.Even_or_Odd n) as [[q ->]|[q ->]].
    + replace (2 * q) with (q + q) in Hc by lia. rewrite geo_double in Hc.
      destruct (IH q) as [c' Hc'].
      * apply pow2_divide_odd_factor with (b := geo q). exists c. nia.
      * exists c'. lia.
    + replace (2 * q + 1) with (S (q + q)) in Hc by lia.
      simpl geo in Hc. rewrite geo_double in Hc. lia.
Qed.

(** A walk of [n] steps comes back to its start only when the table size
    divides [n]. *)
Lemma walk_fixed_divide d n i :
  i < DICT_SIZE d -> walk d n i = i -> Nat.divide (DICT_SIZE d) n.
Proof.
  intros Hi H. rewrite walk_closed in H by exact Hi.
  rewrite DICT_SIZE_pow in *.
  apply pow2_divide_geo, pow2_divide_odd_factor with (b := 2 * i).
  pose proof (Nat.div_mod_eq (i + geo n * (4 * i + 1)) (2 ^ size_bits d)) as E.
  rewrite H in E.
  exists ((i + geo n * (4 * i + 1)) / 2 ^ size_bits d). lia.
Qed.

Lemma walk_inj d a b i :
  i < DICT_SIZE d -> a < DICT_SIZE d -> b < DICT_SIZE d ->
  walk d a i = walk d b i -> a = b.
Proof.
  assert (Hlt : forall a b, i < DICT_SIZE d -> a < b -> b < DICT_SIZE d ->
                            walk d a i = walk d b i -> False).
  { clear a b. intros a b Hi Hab Hb E.
    replace b with ((b - a) + a) in E by lia. rewrite walk_add in E.
    symmetry in E. apply walk_fixed_divide in E; [|by apply walk_lt].
    destruct E as [c Hc]. destruct c; nia. }
  intros Hi Ha Hb E.
  destruct (Nat.lt_trichotomy a b) as [Hab|[->|Hab]]; [|done|].
  - exfalso. eauto.
  - exfalso. symmetry in E. eauto.
Qed.

(** Every slot is on the probe sequence of every start. *)
Lemma walk_covers d i j :
  i < DICT_SIZE d -> j < DICT_SIZE d ->
  exists n, n < DICT_SIZE d /\ walk d n i = j.
Proof.
  intros Hi Hj.
  set (orbit := (fun n => walk d n i) <$> seq 0 (DICT_SIZE d)).
  assert (Hnd : List.NoDup orbit).
  { apply NoDup_ListNoDup, NoDup_fmap_2_strong; [|apply NoDup_seq].
    intros a b Ha%elem_of_seq Hb%elem_of_seq E.
    apply (walk_inj d a b i); auto; lia. }
  assert (Hin : List.incl (seq 0 (DICT_SIZE d)) orbit).
  { apply List.NoDup_length_incl; [exact Hnd| |].
    - unfold orbit. rewrite length_fmap. done.
    - intros x Hx. unfold orbit in Hx.
      apply list_elem_of_In, list_elem_of_fmap in Hx as (n & -> & _).
      apply List.in_seq. pose proof (walk_lt d n i Hi). lia. }
  assert (Hj' : List.In j orbit) by (apply Hin, List.in_seq; lia).
  apply list_elem_of_In, list_elem_of_fmap in Hj' as (n & -> & Hn%elem_of_seq).
  exists n. split; [lia|done].
Qed.

(** ** Slot tables *)

Lemma vacancies_replicate n : vacancies (replicate n None) = n.
Proof. induction n; simpl; congruence. Qed.

Lemma vacancies_insert ix i e :
  ix !! i = Some None -> vacancies (<[i := Some e]> ix) + 1 = vacancies ix.
Proof.
  revert i. induction ix as [|x ix IH]; intros [|i] H; simplify_eq/=.
  - lia.
  - destruct x; simpl; rewrite <- (IH i H); lia.
Qed.

Lemma vacancies_lookup ix : 0 < vacancies ix -> exists j, ix !! j = Some None.
Proof.
  induction ix as [|[e|] ix IH]; simpl; intros H.
  - lia.
  - destruct (IH H) as [j Hj]. by exists (S j).
  - by exists 0.
Qed.

Lemma NEXT_INDEX_bits d d' i :
  size_bits d' = size_bits d -> NEXT_INDEX d' i = NEXT_INDEX d i.
Proof. intros H. unfold NEXT_INDEX, DICT_MASK, DICT_SIZE. by rewrite H. Qed.

Lemma walk_bits d d' n i :
  size_bits d' = size_bits d -> walk d' n i = walk d n i.
Proof.
  intros H. unfold walk. induction n as [|n IH]; simpl; [done|].
  by rewrite IH, (NEXT_INDEX_bits d d').
Qed.

Lemma home_bits d d' h : size_bits d' = size_bits d -> home d' h = home d h.
Proof. intros H. unfold home, DICT_MASK, DICT_SIZE. by rewrite H. Qed.

Lemma DICT_SIZE_bits d d' :
  size_bits d' = size_bits d -> DICT_SIZE d' = DICT_SIZE d.
Proof. intros H. unfold DICT_SIZE. by rewrite H. Qed.

Lemma home_lt d h : home d h < DICT_SIZE d.
Proof.
  unfold home, DICT_MASK. pose proof (DICT_SIZE_pos d) as Hp.
  rewrite DICT_SIZE_pow in *.
  replace (Z.of_nat (2 ^ size_bits d - 1)) with (Z.ones (Z.of_nat (size_bits d))).
  - rewrite Z.land_ones by lia.
    pose proof (Z.mod_pos_bound h (2 ^ Z.of_nat (size_bits d))) as Hb.
    assert (E : (2 ^ Z.of_nat (size_bits d))%Z = Z.of_nat (2 ^ size_bits d))
      by (by rewrite Nat2Z.inj_pow).
    rewrite E in *. lia.
  - rewrite Z.ones_equiv, Nat2Z.inj_sub, Nat2Z.inj_pow by lia. simpl. lia.
Qed.

Lemma used_run_step d i n :
  used_run d i (S n) -> used_run d (NEXT_INDEX d i) n.
Proof. intros H m Hm. rewrite <- walk_S. apply H. lia. Qed.

Lemma used_run_head d i n :
  used_run d i (S n) -> exists e, indices d !! i = Some (Some e).
Proof. intros H. apply (H 0). lia. Qed.

(** On a table with an empty slot every probe sequence has a first empty
    slot. *)
Lemma first_vacant_exists d i :
  length (indices d) = DICT_SIZE d -> 0 < vacancies (indices d) ->
  i < DICT_SIZE d -> exists j, first_vacant d i j.
Proof.
  intros Hlen Hvac Hi.
  destruct (vacancies_lookup _ Hvac) as [j Hj].
  assert (Hjlt : j < DICT_SIZE d)
    by (rewrite <- Hlen; by eapply lookup_lt_Some).
  destruct (walk_covers d i j Hi Hjlt) as (n0 & Hn0 & Hw).
  assert (Hsearch : forall n, n <= n0 ->
    used_run d i n \/
    exists n', n' < n /\ used_run d i n' /\
               indices d !! walk d n' i = Some None).
  { induction n as [|n IH]; intros Hn.
    - left. intros m Hm. lia.
    - destruct IH as [Hrun|(n' & ? & ? & ?)]; [lia| |right; exists n'; eauto].
      destruct (indices d !! walk d n i) as [[e|]|] eqn:E.
      + left. intros m Hm. destruct (decide (m = n)) as [->|]; [eauto|].
        apply Hrun. lia.
      + right. exists n. eauto.
      + apply lookup_ge_None in E. pose proof (walk_lt d n i Hi). lia. }
  destruct (Hsearch n0 (le_n _)) as [Hrun|(n' & Hlt & Hrun & Hv)].
  - exists j, n0. subst j. eauto.
  - exists (walk d n' i), n'. repeat split; auto. lia.
Qed.

Lemma skip_used_run d i n fuel :
  used_run d i n -> indices d !! walk d n i = Some None -> n < fuel ->
  skip_used fuel d i = Ret (walk d n i).
Proof.
  revert i fuel. induction n as [|n IH]; intros i [|fuel] Hrun Hv Hf; try lia.
  - rewrite walk_0 in *. simpl. unfold GET_ENTRY. by rewrite Hv.
  - destruct (used_run_head _ _ _ Hrun) as [e He].
    simpl. unfold GET_ENTRY. rewrite He.
    rewrite walk_S in *. apply IH; auto using used_run_step. lia.
Qed.

Lemma skip_used_first_vacant d i j fuel :
  first_vacant d i j -> DICT_SIZE d <= fuel -> skip_used fuel d i = Ret j.
Proof.
  intros (n & Hn & Hrun & <- & Hv) Hf. apply skip_used_run; auto. lia.
Qed.

Lemma IS_ENTRY_true ent h k :
  IS_ENTRY ent h k = true <-> hash ent = h /\ key ent = k.
Proof.
  unfold IS_ENTRY. rewrite andb_true_iff, Z.eqb_eq, bool_decide_eq_true. done.
Qed.

(** A probe for a key no visited entry matches ends on the first empty
    slot. *)
Lemma probe_run_vacant d h k i n fuel :
  used_run d i n -> indices d !! walk d n i = Some None ->
  (forall j e, indices d !! j = Some (Some e) ->
     exists ent, entries d !! e = Some ent /\ IS_ENTRY ent h k = false) ->
  n < fuel ->
  probe fuel d h k i = Ret (Vacant (walk d n i)).
Proof.
  intros Hrun Hv Hno. revert i fuel Hrun Hv.
  induction n as [|n IH]; intros i [|fuel] Hrun Hv Hf; try lia.
  - rewrite walk_0 in *. simpl. unfold GET_ENTRY. by rewrite Hv.
  - destruct (used_run_head _ _ _ Hrun) as [e He].
    destruct (Hno _ _ He) as (ent & Hent & Hmis).
    simpl. unfold GET_ENTRY. rewrite He, Hent, Hmis.
    rewrite walk_S in *. apply IH; auto using used_run_step. lia.
Qed.

(** A probe that meets entry [e] after a run of used slots returns it,
    when [e] is the only entry that can match. *)
Lemma probe_run_found d h k i n e fuel :
  used_run d i n -> indices d !! walk d n i = Some (Some e) ->
  (forall j e', indices d !! j = Some (Some e') ->
     exists ent, entries d !! e' = Some ent /\
                 (IS_ENTRY ent h k = true <-> e' = e)) ->
  n < fuel ->
  probe fuel d h k i = Ret (Found e).
Proof.
  intros Hrun Hv Hone. revert i fuel Hrun Hv.
  induction n as [|n IH]; intros i [|fuel] Hrun Hv Hf; try lia.
  - rewrite walk_0 in *. simpl. unfold GET_ENTRY. rewrite Hv.
    destruct (Hone _ _ Hv) as (ent & -> & Hm).
    by rewrite (proj2 Hm eq_refl).
  - destruct (used_run_head _ _ _ Hrun) as [e' He'].
    destruct (Hone _ _ He') as (ent & Hent & Hm).
    simpl. unfold GET_ENTRY. rewrite He', Hent.
    destruct (IS_ENTRY ent h k) eqn:E.
    + by rewrite (proj1 Hm eq_refl).
    + rewrite walk_S in *. apply IH; auto using used_run_step. lia.
Qed.

(** Filling the first empty slot of the probe sequence of the next
    entry's hash extends the table by that entry. *)
Lemma table_ok_insert d d' n j ent :
  table_ok d n ->
  size_bits d' = size_bits d ->
  indices d' = <[j := Some n]> (indices d) ->
  (forall e, e < n -> entries d' !! e = entries d !! e) ->
  entries d' !! n = Some ent ->
  first_vacant d (home d (hash ent)) j ->
  table_ok d' (S n).
Proof.
  intros (Hlen & Hvac & Hbound & Hplaced) Hbits Hix Hold Hnew
         (m & Hm & Hrun & Hw & Hj).
  assert (Hjlt : j < length (indices d)) by (by eapply lookup_lt_Some).
  assert (Hkeep : forall i e, indices d !! i = Some (Some e) ->
                              indices d' !! i = Some (Some e)).
  { intros i e Hi. rewrite Hix, list_lookup_insert_ne; [done|].
    intros ->. congruence. }
  assert (Hrun' : forall i k, used_run d i k -> used_run d' i k).
  { intros i k Hr q Hq. destruct (Hr q Hq) as [e He]. exists e.
    rewrite (walk_bits d d') by done. eauto. }
  unfold table_ok. rewrite (DICT_SIZE_bits d d') by done.
  split_and!.
  - by rewrite Hix, length_insert.
  - rewrite Hix. pose proof (vacancies_insert _ _ n Hj). lia.
  - intros i e. rewrite Hix. destruct (decide (i = j)) as [->|Hne].
    + rewrite list_lookup_insert_eq by done. intros [= <-]. lia.
    + rewrite list_lookup_insert_ne by done. intros H%Hbound. lia.
  - intros e ent' He Hent'. destruct (decide (e = n)) as [->|Hne].
    + assert (ent' = ent) as -> by congruence.
      exists m.
      rewrite (home_bits d d'), (walk_bits d d'), (DICT_SIZE_bits d d') by done.
      split_and!; auto.
      rewrite Hw, Hix. by apply list_lookup_insert_eq.
    + rewrite Hold in Hent' by lia.
      destruct (Hplaced e ent') as (q & Hq & Hr & Hslot); [lia|done|].
      exists q.
      rewrite (home_bits d d'), (walk_bits d d'), (DICT_SIZE_bits d d') by done.
      split_and!; auto.
Qed.

(** The rehash loop, from entry [e] on, places every remaining entry. *)
Lemma rehash_spec fuel todo : forall done d,
  entries d = done ++ todo ->
  table_ok d (length done) ->
  count d <= DICT_SIZE d ->
  DICT_SIZE d <= fuel ->
  exists d', rehash fuel todo (length done) d = Ret d' /\
             entries d' = entries d /\ size_bits d' = size_bits d /\
             table_ok d' (count d).
Proof.
  induction todo as [|ent todo IH]; intros done d Hents Hok Hcount Hfuel.
  - exists d. simpl. split_and!; auto.
    unfold count. rewrite Hents, app_nil_r. done.
  - assert (Hlt : length done < DICT_SIZE d).
    { unfold count in Hcount. rewrite Hents, length_app in Hcount.
      simpl in Hcount. lia. }
    destruct Hok as (Hlen & Hvac & Hrest).
    destruct (first_vacant_exists d (home d (hash ent))) as [j Hj];
      [done|lia|apply home_lt|].
    simpl. rewrite (skip_used_first_vacant d _ j fuel) by done. simpl.
    destruct (IH (done ++ [ent]) (set_index d j (length done)))
      as (d' & Hrun & He & Hb & Hok').
    + simpl. rewrite Hents, <- app_assoc. done.
    + rewrite length_app. simpl. rewrite Nat.add_1_r.
      apply (table_ok_insert d _ _ j ent); auto.
      * unfold table_ok. tauto.
      * simpl. rewrite Hents. apply list_lookup_middle. done.
    + done.
    + done.
    + rewrite length_app in Hrun. simpl in Hrun.
      rewrite Nat.add_1_r in Hrun.
      exists d'. split_and!; auto.
Qed.

Lemma table_ok_cleared ents bits :
  table_ok {| entries := ents; indices := replicate (Nat.shiftl 1 bits) None;
              size_bits := bits |} 0.
Proof.
  unfold table_ok, DICT_SIZE. simpl. split_and!.
  - apply length_replicate.
  - rewrite vacancies_replicate. lia.
  - intros i e H. apply lookup_replicate in H as [? _]. done.
  - intros e ent He. lia.
Qed.

Lemma expand_dict_spec fuel d :
  count d <= 2 * DICT_SIZE d -> 2 * DICT_SIZE d <= fuel ->
  exists d', expand_dict fuel d = Ret d' /\
             entries d' = entries d /\ size_bits d' = S (size_bits d) /\
             table_ok d' (count d).
Proof.
  intros Hcount Hfuel. unfold expand_dict.
  set (d0 := {| entries := entries d;
                indices := replicate (Nat.shiftl 1 (S (size_bits d))) None;
                size_bits := S (size_bits d) |}).
  assert (Hsize : DICT_SIZE d0 = 2 * DICT_SIZE d).
  { rewrite !DICT_SIZE_pow. simpl. lia. }
  destruct (rehash_spec fuel (entries d) [] d0) as (d' & Hr & He & Hb & Hok).
  - done.
  - apply table_ok_cleared.
  - unfold count in *. simpl. lia.
  - lia.
  - exists d'. split_and!; auto.
Qed.

(** ** Outcomes do not depend on the fuel *)

Lemma Ret_bind {A B : Type} (a : A) (f : A -> res B) : Ret a ≫= f = f a.
Proof. reflexivity. Qed.

Lemma bind_Ret {A B : Type} (m : res A) (f : A -> res B) b :
  m ≫= f = Ret b -> exists a, m = Ret a /\ f a = Ret b.
Proof. destruct m; simpl; intros H; try discriminate. eauto. Qed.

Lemma skip_used_mono fuel fuel' d i j :
  skip_used fuel d i = Ret j -> fuel <= fuel' -> skip_used fuel' d i = Ret j.
Proof.
  revert fuel' i. induction fuel as [|fuel IH]; intros [|fuel'] i H Hle;
    simpl in *; try discriminate; try lia.
  destruct (GET_ENTRY d i) as [[e|]|]; try done. apply IH; [done|lia].
Qed.

Lemma probe_mono fuel fuel' d h k i r :
  probe fuel d h k i = Ret r -> fuel <= fuel' -> probe fuel' d h k i = Ret r.
Proof.
  revert fuel' i. induction fuel as [|fuel IH]; intros [|fuel'] i H Hle;
    simpl in *; try discriminate; try lia.
  destruct (GET_ENTRY d i) as [[e|]|]; try done.
  destruct (entries d !! e) as [ent|]; try done.
  destruct (IS_ENTRY ent h k); try done. apply IH; [done|lia].
Qed.

Lemma rehash_mono fuel fuel' todo e d d' :
  rehash fuel todo e d = Ret d' -> fuel <= fuel' ->
  rehash fuel' todo e d = Ret d'.
Proof.
  revert e d. induction todo as [|ent todo IH]; intros e d H Hle; simpl in *.
  - done.
  - apply bind_Ret in H as (i & Hi & H).
    rewrite (skip_used_mono _ fuel' _ _ _ Hi Hle). simpl. eauto.
Qed.

Lemma expand_dict_mono fuel fuel' d d' :
  expand_dict fuel d = Ret d' -> fuel <= fuel' -> expand_dict fuel' d = Ret d'.
Proof. apply rehash_mono. Qed.

Lemma dict_add_mono fuel fuel' d k v r :
  dict_add fuel d k v = Ret r -> fuel <= fuel' -> dict_add fuel' d k v = Ret r.
Proof.
  unfold dict_add. intros H Hle.
  apply bind_Ret in H as (p & Hp & H).
  rewrite (probe_mono _ fuel' _ _ _ _ _ Hp Hle). simpl in *.
  destruct p as [e|i]; [exact H|]. destruct v; [exact H|].
  case_decide; [|exact H].
  apply bind_Ret in H as (d2 & Hd2 & H).
  by rewrite (expand_dict_mono _ fuel' _ _ Hd2 Hle).
Qed.

(** ** The dictionary invariant *)

Lemma wf_room d : wf d -> count d < DICT_SIZE d.
Proof.
  intros (_ & _ & H & _). pose proof (DICT_SIZE_pos d).
  pose proof (Nat.Div0.div_le_upper_bound (DICT_SIZE d * 2) 3 (DICT_SIZE d)).
  assert (DICT_SIZE d * 2 / 3 < DICT_SIZE d); [|lia].
  apply Nat.Div0.div_lt_upper_bound. lia.
Qed.

(** A key that no entry carries: its probe ends on the first empty slot
    of its sequence. *)
Lemma dict_find_absent fuel d k :
  wf d -> (forall ent, ent ∈ entries d -> key ent <> k) ->
  DICT_SIZE d <= fuel ->
  exists j, first_vacant d (home d (hash_key k)) j /\
            dict_find fuel d k = Ret (Vacant j).
Proof.
  intros Hwf Habs Hfuel. pose proof (wf_room d Hwf) as Hroom.
  destruct Hwf as [(Hlen & Hvac & Hb & Hpl) Hrest].
  destruct (first_vacant_exists d (home d (hash_key k))) as [j Hj];
    [done|lia|apply home_lt|].
  exists j. split; [done|].
  destruct Hj as (n & Hn & Hrun & <- & Hv).
  apply probe_run_vacant; auto; [|lia].
  intros i e He. apply Hb, lookup_lt_is_Some in He as [ent Hent].
  exists ent. split; [done|].
  destruct (IS_ENTRY ent (hash_key k) k) eqn:E; [|done].
  apply IS_ENTRY_true in E as [_ E]. exfalso.
  eapply Habs; [|exact E]. by eapply list_elem_of_lookup_2.
Qed.

(** A key that entry [e] carries: its probe returns [e]. *)
Lemma dict_find_present fuel d e ent :
  wf d -> entries d !! e = Some ent -> DICT_SIZE d <= fuel ->
  dict_find fuel d (key ent) = Ret (Found e).
Proof.
  intros Hwf Hent Hfuel.
  destruct Hwf as ((Hlen & Hvac & Hb & Hpl) & _ & _ & Hhash & Hnd).
  assert (Hh : hash ent = hash_key (key ent)).
  { rewrite Forall_forall in Hhash. apply Hhash.
    by eapply list_elem_of_lookup_2. }
  destruct (Hpl e ent) as (n & Hn & Hrun & Hslot);
    [by eapply lookup_lt_Some|done|].
  unfold dict_find. rewrite <- Hh.
  apply (probe_run_found _ _ _ _ n); auto; [|lia].
  intros j e' He'. apply Hb, lookup_lt_is_Some in He' as [ent' Hent'].
  exists ent'. split; [done|]. rewrite IS_ENTRY_true. split.
  - intros [_ Hk]. eapply NoDup_lookup; [exact Hnd| |].
    + rewrite list_lookup_fmap, Hent'. simpl. by rewrite Hk.
    + by rewrite list_lookup_fmap, Hent.
  - intros ->. split; congruence.
Qed.

(** The invariant reads the entries' hashes and keys only. *)
Lemma wf_same_keys d d' :
  wf d -> indices d' = indices d -> size_bits d' = size_bits d ->
  hash_and_key <$> entries d' = hash_and_key <$> entries d ->
  wf d'.
Proof.
  intros ((Hlen & Hvac & Hb & Hpl) & Hbits & Hload & Hhash & Hnd) Hix Hsb Hk.
  assert (Hcount : count d' = count d).
  { unfold count. by rewrite <- (length_fmap hash_and_key), Hk, length_fmap. }
  assert (Hlk : forall e ent', entries d' !! e = Some ent' ->
            exists ent, entries d !! e = Some ent /\
                        hash ent = hash ent' /\ key ent = key ent').
  { intros e ent' H.
    assert (H' : (hash_and_key <$> entries d') !! e = Some (hash_and_key ent'))
      by (by rewrite list_lookup_fmap, H).
    rewrite Hk, list_lookup_fmap in H'.
    destruct (entries d !! e) as [ent|]; simplify_eq/=.
    exists ent. unfold hash_and_key in H'. by simplify_eq. }
  unfold wf, table_ok. rewrite Hcount, Hix, Hsb, (DICT_SIZE_bits d d') by done.
  split_and!; auto.
  - intros e ent' He Hent'. destruct (Hlk _ _ Hent') as (ent & Hent & Hh & _).
    destruct (Hpl e ent He Hent) as (n & Hn & Hrun & Hslot).
    exists n.
    rewrite (home_bits d d'), (walk_bits d d'), (DICT_SIZE_bits d d'), Hix,
      <- Hh by done.
    split_and!; auto.
    intros m Hm. rewrite (walk_bits d d'), Hix by done. auto.
  - rewrite Forall_forall. intros ent' [e He]%list_elem_of_lookup_1.
    destruct (Hlk _ _ He) as (ent & Hent & Hh & Hkk).
    rewrite <- Hh, <- Hkk. rewrite Forall_forall in Hhash. apply Hhash.
    by eapply list_elem_of_lookup_2.
  - replace (key <$> entries d') with (snd <$> (hash_and_key <$> entries d'))
      by (by rewrite <- list_fmap_compose).
    rewrite Hk, <- list_fmap_compose. done.
Qed.

Lemma update_entry_keys d e v :
  hash_and_key <$> entries (update_entry d e v) = hash_and_key <$> entries d.
Proof.
  simpl. apply list_eq. intros i. rewrite !list_lookup_fmap.
  destruct (decide (e = i)) as [->|Hne].
  - rewrite list_lookup_alter_eq. by destruct (entries d !! i).
  - by rewrite list_lookup_alter_ne.
Qed.

Lemma wf_update_entry d e v : wf d -> wf (update_entry d e v).
Proof.
  intros H. apply (wf_same_keys d); auto using update_entry_keys.
Qed.

Lemma wf_new_dict : wf new_dict.
Proof.
  unfold wf. split_and!.
  - apply table_ok_cleared.
  - done.
  - unfold count. simpl. lia.
  - constructor.
  - constructor.
Qed.

Lemma push_entry_table d j k :
  wf d -> first_vacant d (home d (hash_key k)) j ->
  table_ok (push_entry d j (mk_entry (hash_key k) k None)) (S (count d)).
Proof.
  intros (Hok & _) Hj.
  apply (table_ok_insert d _ _ j (mk_entry (hash_key k) k None)); auto.
  - intros e He. simpl. apply lookup_app_l. done.
  - simpl. apply list_lookup_middle. done.
Qed.

(** What [dict_add] does for a key no entry carries and a null value. *)
Lemma dict_add_insert fuel d k :
  wf d -> (forall ent, ent ∈ entries d -> key ent <> k) ->
  2 * DICT_SIZE d <= fuel ->
  exists d',
    dict_add fuel d k None = Ret (d', true) /\
    entries d' = entries d ++ [mk_entry (hash_key k) k None] /\
    size_bits d' = (if decide (DICT_SIZE d * 2 / 3 < S (count d))
                    then S (size_bits d) else size_bits d) /\
    wf d'.
Proof.
  intros Hwf Habs Hfuel.
  destruct (dict_find_absent fuel d k Hwf Habs) as (j & Hj & Hp); [lia|].
  pose proof (push_entry_table d j k Hwf Hj) as Hok.
  pose proof (wf_room d Hwf) as Hroom.
  destruct Hwf as (_ & Hbits & Hload & Hhash & Hnd).
  set (d1 := push_entry d j (mk_entry (hash_key k) k None)) in *.
  assert (Hc1 : count d1 = S (count d)).
  { unfold count, d1. simpl. rewrite length_app. simpl. lia. }
  assert (Hs1 : DICT_SIZE d1 = DICT_SIZE d) by done.
  assert (Hhash1 : Forall (fun ent => hash ent = hash_key (key ent)) (entries d1)).
  { unfold d1. simpl. apply Forall_app. split; [done|]. by constructor. }
  assert (Hnd1 : NoDup (key <$> entries d1)).
  { unfold d1. simpl. rewrite fmap_app. apply NoDup_app. split_and!.
    - done.
    - intros x Hx [= ->]%list_elem_of_singleton.
      apply list_elem_of_fmap in Hx as (ent & Hk & Hent). by eapply Habs.
    - simpl. apply NoDup_singleton. }
  unfold dict_add. unfold dict_find in Hp. rewrite Hp, Ret_bind. cbv zeta.
  fold d1. rewrite Hc1, Hs1.
  destruct (decide (DICT_SIZE d * 2 / 3 < S (count d))) as [Hgrow|Hstay].
  - destruct (expand_dict_spec fuel d1) as (d2 & Hx & He & Hb & Hok2);
      [lia|lia|].
    rewrite Hx, Ret_bind. exists d2.
    assert (Hs2 : DICT_SIZE d2 = 2 * DICT_SIZE d).
    { rewrite !DICT_SIZE_pow, Hb. simpl. unfold d1. simpl. lia. }
    assert (Hc2 : count d2 = S (count d)).
    { unfold count in *. by rewrite He. }
    assert (32 <= DICT_SIZE d).
    { rewrite DICT_SIZE_pow. change 32 with (2 ^ 5).
      apply Nat.pow_le_mono_r; [lia|exact Hbits]. }
    split_and!; [done|done|exact Hb|].
    unfold wf. rewrite Hc2, Hs2, He, Hb. rewrite Hc1 in Hok2.
    change (size_bits d1) with (size_bits d).
    split_and!; [exact Hok2| |lia|exact Hhash1|exact Hnd1].
    unfold DICT_INIT_BITS in *. lia.
  - exists d1. split_and!; [done|done|done|].
    unfold wf. rewrite Hc1, Hs1. split_and!; auto. lia.
Qed.

(** ... and for a non-null value: nothing is added and [false] comes
    back. *)
Lemma dict_add_missing fuel d k v :
  wf d -> (forall ent, ent ∈ entries d -> key ent <> k) ->
  DICT_SIZE d <= fuel ->
  dict_add fuel d k (Some v) = Ret (d, false).
Proof.
  intros Hwf Habs Hfuel.
  destruct (dict_find_absent fuel d k Hwf Habs Hfuel) as (j & Hj & Hp).
  unfold dict_add. unfold dict_find in Hp. by rewrite Hp.
Qed.

(** What [dict_add] does for the key of entry [e]. *)
Lemma dict_add_update fuel d e ent v :
  wf d -> entries d !! e = Some ent -> DICT_SIZE d <= fuel ->
  dict_add fuel d (key ent) (Some v) = Ret (update_entry d e (Some v), true).
Proof.
  intros Hwf Hent Hfuel.
  pose proof (dict_find_present fuel d e ent Hwf Hent Hfuel) as Hp.
  unfold dict_add. unfold dict_find in Hp. by rewrite Hp.
Qed.

Lemma dict_add_again fuel d e ent :
  wf d -> entries d !! e = Some ent -> DICT_SIZE d <= fuel ->
  dict_add fuel d (key ent) None = Abort "Memory allocation failed.".
Proof.
  intros Hwf Hent Hfuel.
  pose proof (dict_find_present fuel d e ent Hwf Hent Hfuel) as Hp.
  unfold dict_add. unfold dict_find in Hp. by rewrite Hp.
Qed.

Lemma key_dec_entries (d : dict_t) (k : cstr) :
  (exists e ent, entries d !! e = Some ent /\ key ent = k) \/
  (forall ent, ent ∈ entries d -> key ent <> k).
Proof.
  destruct (decide (Exists (fun ent => key ent = k) (entries d))) as [H|H].
  - left. apply Exists_exists in H as (ent & [e He]%list_elem_of_lookup_1 & Hk).
    eauto.
  - right. intros ent Hent Hk. apply H, Exists_exists. eauto.
Qed.

(** Every successful [dict_add] keeps the invariant, whatever the fuel. *)
Lemma dict_add_wf fuel d k v d' b :
  wf d -> dict_add fuel d k v = Ret (d', b) -> wf d'.
Proof.
  intros Hwf H.
  apply dict_add_mono with (fuel' := fuel + 2 * DICT_SIZE d) in H; [|lia].
  destruct (key_dec_entries d k) as [(e & ent & Hent & <-)|Habs].
  - destruct v as [v|].
    + rewrite (dict_add_update _ _ e) in H by (done || lia).
      simplify_eq. by apply wf_update_entry.
    + rewrite (dict_add_again _ _ e) in H by (done || lia). done.
  - destruct v as [v|].
    + rewrite dict_add_missing in H by (done || lia). by simplify_eq.
    + destruct (dict_add_insert (fuel + 2 * DICT_SIZE d) d k)
        as (d2 & Hd2 & _ & _ & Hwf2); [done|done|lia|].
      rewrite Hd2 in H. by simplify_eq.
Qed.

Lemma reachable_wf d : reachable d -> wf d.
Proof.
  induction 1 as [|fuel d k v d' b _ IH H].
  - apply wf_new_dict.
  - by eapply dict_add_wf.
Qed.

Lemma absent_key d k :
  k ∉ key <$> entries d -> forall ent, ent ∈ entries d -> key ent <> k.
Proof. intros H ent Hent <-. apply H, list_elem_of_fmap. eauto. Qed.

Lemma present_key d k :
  k ∈ key <$> entries d -> exists e ent, entries d !! e = Some ent /\ key ent = k.
Proof.
  intros (ent & -> & [e He]%list_elem_of_lookup_1)%list_elem_of_fmap. eauto.
Qed.

Lemma walk_period d i : i < DICT_SIZE d -> walk d (DICT_SIZE d) i = i.
Proof.
  intros Hi. pose proof (DICT_SIZE_pos d) as Hpos.
  destruct (walk_covers d i (walk d (DICT_SIZE d) i) Hi) as (n & Hn & E);
    [by apply walk_lt|].
  destruct (decide (n = 0)) as [->|Hne]; [by rewrite walk_0 in E|].
  exfalso.
  assert (E' : walk d ((DICT_SIZE d - n) + n) i = walk d n i)
    by (rewrite E; f_equal; lia).
  clear E. rename E' into E. rewrite walk_add in E.
  apply walk_fixed_divide in E as [c Hc]; [|by apply walk_lt].
  destruct c; nia.
Qed.

Lemma add_all_reachable fuel ks : forall d d',
  reachable d -> add_all fuel d ks = Ret d' -> reachable d'.
Proof.
  induction ks as [|k ks IH]; intros d d' Hd H; simpl in H.
  - by simplify_eq.
  - apply bind_Ret in H as ([d1 b] & H1 & H). eapply IH; [|exact H].
    by eapply reachable_add.
Qed.

Lemma small_dict_reachable : reachable small_dict.
Proof.
  apply (add_all_reachable 32
           (list_byte_of_string <$> ["foo"; "bar"; "baz"]%string) new_dict);
    [apply reachable_new|]. vm_compute. reflexivity.
Defined.

Lemma full_dict_reachable : reachable full_dict.
Proof.
  apply (add_all_reachable 32
           ((fun n => [byte_of_Z (65 + Z.of_nat n)]) <$> seq 0 21) new_dict);
    [apply reachable_new|]. vm_compute. reflexivity.
Defined.

(** ** Claims on the dictionary *)

(** A key is shown to be absent from a concrete dictionary by deciding
    the membership. *)
Ltac absent_by_computation :=
  apply (bool_decide_unpack _); vm_compute; exact I.

(** C4 (the code departs from it).  Inserting a key that is not yet in the
    dictionary appends one entry with an absent value; inserting the same
    key a second time finds that entry and, instead of leaving it alone,
    passes the null value to [strdup] and aborts the run with
    "Memory allocation failed.". *)
Theorem insert_twice_aborts fuel d k :
  reachable d -> k ∉ key <$> entries d -> 2 * DICT_SIZE d <= fuel ->
  exists d1,
    dict_add fuel d k None = Ret (d1, true) /\
    entries d1 = entries d ++ [mk_entry (hash_key k) k None] /\
    forall fuel', DICT_SIZE d1 <= fuel' ->
      dict_add fuel' d1 k None = Abort "Memory allocation failed.".
Proof.
  intros Hd%reachable_wf Hk Hfuel.
  destruct (dict_add_insert fuel d k Hd (absent_key d k Hk) Hfuel)
    as (d1 & H1 & He & _ & Hwf1).
  exists d1. split_and!; [done|done|].
  intros fuel' Hfuel'.
  apply (dict_add_again fuel' d1 (count d) (mk_entry (hash_key k) k None));
    [done| |done].
  rewrite He. apply list_lookup_middle. done.
Qed.

Lemma insert_twice_aborts_witness :
  reachable small_dict /\ (str "qux" ∉ key <$> entries small_dict) /\
  2 * DICT_SIZE small_dict <= 64 /\
  exists d1,
    dict_add 64 small_dict (str "qux") None = Ret (d1, true) /\
    entries d1 = entries small_dict ++
                 [mk_entry (hash_key (str "qux")) (str "qux") None] /\
    forall fuel', DICT_SIZE d1 <= fuel' ->
      dict_add fuel' d1 (str "qux") None = Abort "Memory allocation failed.".
Proof.
  pose proof small_dict_reachable as H1.
  assert (H2 : str "qux" ∉ (key <$> entries small_dict)) by absent_by_computation.
  assert (H3 : 2 * DICT_SIZE small_dict <= 64) by (vm_compute; lia).
  split; [exact H1|]. split; [exact H2|]. split; [exact H3|].
  exact (insert_twice_aborts 64 small_dict (str "qux") H1 H2 H3).
Defined.

(** C5.  Renaming a key that no entry of the dictionary carries: [dict_add]
    returns [false] and hands the dictionary back as it was, and
    [change_symbol_name] leaves through [error] with a message that names
    the symbol. *)
Theorem rename_missing_symbol fuel d old new :
  reachable d -> old ∉ key <$> entries d -> DICT_SIZE d <= fuel ->
  dict_add fuel d old (Some new) = Ret (d, false) /\
  change_symbol_name fuel d old new
  = Abort ("Cannot find symbol '" ++ string_of_list_byte old ++ "'.").
Proof.
  intros Hd%reachable_wf Hk Hfuel.
  pose proof (dict_add_missing fuel d old new Hd (absent_key d old Hk) Hfuel)
    as H.
  split; [exact H|]. unfold change_symbol_name. by rewrite H.
Qed.

Lemma rename_missing_symbol_witness :
  reachable small_dict /\ (str "quux" ∉ key <$> entries small_dict) /\
  DICT_SIZE small_dict <= 32 /\
  dict_add 32 small_dict (str "quux") (Some (str "new"))
  = Ret (small_dict, false) /\
  change_symbol_name 32 small_dict (str "quux") (str "new")
  = Abort ("Cannot find symbol '" ++ string_of_list_byte (str "quux") ++ "'.").
Proof.
  pose proof small_dict_reachable as H1.
  assert (H2 : str "quux" ∉ (key <$> entries small_dict))
    by absent_by_computation.
  assert (H3 : DICT_SIZE small_dict <= 32) by (vm_compute; lia).
  split; [exact H1|]. split; [exact H2|]. split; [exact H3|].
  exact (rename_missing_symbol 32 small_dict (str "quux") (str "new")
           H1 H2 H3).
Defined.

Lemma update_entry_lookup d e ent v :
  entries d !! e = Some ent ->
  entries (update_entry d e v) !! e = Some (set_val ent v).
Proof. intros H. simpl. by rewrite list_lookup_alter_eq, H. Qed.

Lemma update_entry_twice d e v1 v2 :
  update_entry (update_entry d e v1) e v2 = update_entry d e v2.
Proof.
  unfold update_entry. simpl. f_equal.
  rewrite list_alter_alter_eq. by apply list_alter_ext.
Qed.

(** C6.  Two renames of a key of the dictionary in a row both succeed;
    the entry then holds the second name, which is its effective name, and
    the dictionary is the one a single rename to the second name gives. *)
Theorem rename_overwrite fuel d k v1 v2 :
  reachable d -> k ∈ key <$> entries d -> DICT_SIZE d <= fuel ->
  exists d1 d2 e ent,
    change_symbol_name fuel d k v1 = Ret d1 /\
    change_symbol_name fuel d1 k v2 = Ret d2 /\
    change_symbol_name fuel d k v2 = Ret d2 /\
    entries d2 !! e = Some ent /\
    key ent = k /\ val ent = Some v2 /\ effective_name ent = v2 /\
    key <$> entries d2 = key <$> entries d.
Proof.
  intros Hd%reachable_wf (e & ent & Hent & <-)%present_key Hfuel.
  pose proof (dict_add_update fuel d e ent v1 Hd Hent Hfuel) as H1.
  pose proof (dict_add_update fuel d e ent v2 Hd Hent Hfuel) as H2.
  pose proof (wf_update_entry d e (Some v1) Hd) as Hd1.
  pose proof (update_entry_lookup d e ent (Some v1) Hent) as Hent1.
  pose proof (dict_add_update fuel _ e _ v2 Hd1 Hent1 Hfuel) as H12.
  simpl key in H12. rewrite update_entry_twice in H12.
  exists (update_entry d e (Some v1)), (update_entry d e (Some v2)), e,
         (set_val ent (Some v2)).
  unfold change_symbol_name. rewrite H1, H2, H12.
  split_and!; try done.
  - by apply update_entry_lookup.
  - pose proof (update_entry_keys d e (Some v2)) as Hk.
    apply (f_equal (fmap snd)) in Hk.
    by rewrite <- !list_fmap_compose in Hk.
Qed.

Lemma rename_overwrite_witness :
  reachable small_dict /\ (str "bar" ∈ key <$> entries small_dict) /\
  DICT_SIZE small_dict <= 32 /\
  exists d1 d2 e ent,
    change_symbol_name 32 small_dict (str "bar") (str "first") = Ret d1 /\
    change_symbol_name 32 d1 (str "bar") (str "second") = Ret d2 /\
    change_symbol_name 32 small_dict (str "bar") (str "second") = Ret d2 /\
    entries d2 !! e = Some ent /\
    key ent = str "bar" /\ val ent = Some (str "second") /\
    effective_name ent = str "second" /\
    key <$> entries d2 = key <$> entries small_dict.
Proof.
  pose proof small_dict_reachable as H1.
  assert (H2 : str "bar" ∈ key <$> entries small_dict)
    by (vm_compute; apply list_elem_of_further, list_elem_of_here).
  assert (H3 : DICT_SIZE small_dict <= 32) by (vm_compute; lia).
  split; [exact H1|]. split; [exact H2|]. split; [exact H3|].
  exact (rename_overwrite 32 small_dict (str "bar") (str "first")
           (str "second") H1 H2 H3).
Defined.

Lemma walk_next_slot d n i :
  walk d n i = Nat.iter n (next_slot (2 ^ size_bits d)) i.
Proof.
  unfold walk. induction n as [|n IH]; simpl; [done|].
  by rewrite IH, NEXT_INDEX_mod, DICT_SIZE_pow.
Qed.

Lemma reachable_vacancy d : reachable d -> exists j, indices d !! j = Some None.
Proof.
  intros Hd%reachable_wf. pose proof (wf_room d Hd).
  destruct Hd as ((_ & Hv & _) & _). apply vacancies_lookup. lia.
Qed.

Lemma first_vacant_empty d i j : first_vacant d i j -> indices d !! j = Some None.
Proof. by intros (n & _ & _ & _ & H). Qed.

(** C9.  On a table of [2 ^ bits] slots the probe step
    [i -> (5 * i + 1) mod 2 ^ bits], which is what [NEXT_INDEX] computes,
    reaches every slot exactly once within [2 ^ bits] steps and is then
    back at its start.  A dictionary a run can hold is loaded to at most
    2/3 and so has an empty slot; the probe loop of [dict_add] therefore
    ends, for every key, within [DICT_SIZE] iterations, on an entry with
    that key or on an empty slot, and [dict_add] itself ends. *)
Theorem probe_full_period_terminates (bits i : nat) (d : dict_t) (k : cstr)
    (fuel : nat) :
  i < 2 ^ bits -> reachable d -> 2 * DICT_SIZE d <= fuel ->
  (forall j, j < 2 ^ bits ->
     exists n, n < 2 ^ bits /\ Nat.iter n (next_slot (2 ^ bits)) i = j /\
       forall n', n' < 2 ^ bits ->
         Nat.iter n' (next_slot (2 ^ bits)) i = j -> n' = n) /\
  Nat.iter (2 ^ bits) (next_slot (2 ^ bits)) i = i /\
  DICT_SIZE d = 2 ^ size_bits d /\
  (forall s, NEXT_INDEX d s = next_slot (DICT_SIZE d) s) /\
  3 * count d <= 2 * DICT_SIZE d /\
  (exists j, indices d !! j = Some None) /\
  ((exists e ent, dict_find (DICT_SIZE d) d k = Ret (Found e) /\
                  entries d !! e = Some ent /\ key ent = k) \/
   (exists j, dict_find (DICT_SIZE d) d k = Ret (Vacant j) /\
              indices d !! j = Some None)) /\
  (forall v, dict_add fuel d k v <> Timeout /\ dict_add fuel d k v <> Undef).
Proof.
  intros Hi Hd Hfuel.
  set (t := {| entries := []; indices := []; size_bits := bits |}).
  assert (Ht : DICT_SIZE t = 2 ^ bits) by apply DICT_SIZE_pow.
  assert (Hw : forall n s, walk t n s = Nat.iter n (next_slot (2 ^ bits)) s)
    by apply walk_next_slot.
  pose proof (reachable_vacancy d Hd) as Hvac.
  apply reachable_wf in Hd. split_and!.
  - intros j Hj. destruct (walk_covers t i j) as (n & Hn & E); [lia..|].
    exists n. rewrite <- Hw. split_and!; [lia|done|].
    intros n' Hn' E'. rewrite <- Hw in E'.
    apply (walk_inj t n' n i); [lia..|congruence].
  - rewrite <- Hw, <- Ht. apply walk_period. lia.
  - apply DICT_SIZE_pow.
  - apply NEXT_INDEX_mod.
  - destruct Hd as (_ & _ & Hload & _). lia.
  - exact Hvac.
  - destruct (key_dec_entries d k) as [(e & ent & Hent & <-)|Habs].
    + left. exists e, ent. split_and!; auto.
      by apply dict_find_present.
    + right. destruct (dict_find_absent (DICT_SIZE d) d k) as (j & Hj & Hp);
        auto.
      exists j. split; [done|]. by eapply first_vacant_empty.
  - intros v.
    destruct (key_dec_entries d k) as [(e & ent & Hent & <-)|Habs].
    + destruct v as [v|].
      * rewrite (dict_add_update _ _ e) by (done || lia). done.
      * rewrite (dict_add_again _ _ e) by (done || lia). done.
    + destruct v as [v|].
      * rewrite dict_add_missing by (done || lia). done.
      * destruct (dict_add_insert fuel d k) as (d' & -> & _); done.
Qed.

Lemma probe_full_period_terminates_witness :
  3 < 2 ^ 5 /\ reachable full_dict /\ 2 * DICT_SIZE full_dict <= 64 /\
  (forall j, j < 2 ^ 5 ->
     exists n, n < 2 ^ 5 /\ Nat.iter n (next_slot (2 ^ 5)) 3 = j /\
       forall n', n' < 2 ^ 5 ->
         Nat.iter n' (next_slot (2 ^ 5)) 3 = j -> n' = n) /\
  Nat.iter (2 ^ 5) (next_slot (2 ^ 5)) 3 = 3 /\
  DICT_SIZE full_dict = 2 ^ size_bits full_dict /\
  (forall s, NEXT_INDEX full_dict s = next_slot (DICT_SIZE full_dict) s) /\
  3 * count full_dict <= 2 * DICT_SIZE full_dict /\
  (exists j, indices full_dict !! j = Some None) /\
  ((exists e ent,
      dict_find (DICT_SIZE full_dict) full_dict (str "K") = Ret (Found e) /\
      entries full_dict !! e = Some ent /\ key ent = str "K") \/
   (exists j,
      dict_find (DICT_SIZE full_dict) full_dict (str "K") = Ret (Vacant j) /\
      indices full_dict !! j = Some None)) /\
  (forall v, dict_add 64 full_dict (str "K") v <> Timeout /\
             dict_add 64 full_dict (str "K") v <> Undef).
Proof.
  assert (H1 : 3 < 2 ^ 5) by (vm_compute; lia).
  pose proof full_dict_reachable as H2.
  assert (H3 : 2 * DICT_SIZE full_dict <= 64) by (vm_compute; lia).
  split; [exact H1|]. split; [exact H2|]. split; [exact H3|].
  exact (probe_full_period_terminates 5 3 full_dict (str "K") 64 H1 H2 H3).
Defined.



Lemma store_Ret {A : Type} (mem mem' : list A) off data :
  store mem off data = Ret mem' ->
  off + length data <= length mem /\
  mem' = take off mem ++ data ++ drop (off + length data) mem.
Proof. intros Hs. unfold store in Hs. case_decide; by simplify_eq. Qed.

Lemma store_in_range {A : Type} (mem : list A) off data :
  off + length data <= length mem ->
  store mem off data
  = Ret (take off mem ++ data ++ drop (off + length data) mem).
Proof. intros H. unfold store. by rewrite decide_True. Qed.

Lemma store_length {A : Type} (mem mem' : list A) off data :
  store mem off data = Ret mem' -> length mem' = length mem.
Proof.
  intros [Hle ->]%store_Ret.
  rewrite !length_app, length_take, length_drop. lia.
Qed.

Lemma store_take {A : Type} (mem mem' : list A) off data :
  store mem off data = Ret mem' ->
  take (off + length data) mem' = take off mem ++ data.
Proof.
  intros [Hle ->]%store_Ret.
  rewrite app_assoc, take_app_length'; [done|].
  rewrite length_app, length_take. lia.
Qed.

Lemma store_lookup_outside {A : Type} (mem mem' : list A) off data i :
  store mem off data = Ret mem' ->
  i < off \/ off + length data <= i -> mem' !! i = mem !! i.
Proof.
  intros [Hle ->]%store_Ret Hi.
  destruct Hi as [Hi|Hi].
  - rewrite lookup_app_l by (rewrite length_take; lia).
    by rewrite lookup_take_lt.
  - rewrite app_assoc, lookup_app_r
      by (rewrite length_app, length_take; lia).
    rewrite length_app, length_take, lookup_drop. f_equal. lia.
Qed.

Lemma shiftl_1 n : Nat.shiftl n 1 = 2 * n.
Proof. rewrite Nat.shiftl_mul_pow2. simpl. lia. Qed.

Lemma enlarge_unfold fuel b len :
  enlarge fuel b len =
  if decide (size b < cnt b + len) then
    match fuel with
    | O => Timeout
    | S fuel' =>
        enlarge fuel'
          {| size := 2 * size b; cnt := cnt b;
             buf := resize (2 * size b) None (buf b) |} len
    end
  else Ret b.
Proof. rewrite <- shiftl_1. destruct fuel; reflexivity. Qed.

Lemma enlarge_Ret fuel len : forall b b1,
  buf_ok b -> enlarge fuel b len = Ret b1 ->
  cnt b1 = cnt b /\ buf_ok b1 /\ cnt b + len <= size b1 /\
  take (cnt b) (buf b1) = take (cnt b) (buf b) /\
  exists k, size b1 = size b * 2 ^ k /\
            forall k', k' < k -> size b * 2 ^ k' < cnt b + len.
Proof.
  induction fuel as [|fuel IH]; intros b b1 (Hpos & Hlen & Hcnt) H;
    rewrite enlarge_unfold in H; case_decide; simplify_eq.
  - split_and!; [done|by split_and!|lia|done|].
    exists 0. split; [simpl; lia|]. intros k' Hk'. lia.
  - apply IH in H; simpl in *.
    + destruct H as (Hc & Hok & Hroom & Htake & k & Hk & Hmin).
      split_and!; [done|done|done| |].
      * rewrite Htake, resize_ge by lia. apply take_app_le. lia.
      * exists (S k). split; [rewrite Hk; simpl; lia|].
        intros [|k'] Hk'; [simpl; lia|].
        specialize (Hmin k'). simpl. nia.
    + split_and!; simpl; [lia|by rewrite length_resize|lia].
  - split_and!; [done|by split_and!|lia|done|].
    exists 0. split; [simpl; lia|]. intros k' Hk'. lia.
Qed.

Lemma enlarge_total fuel len : forall b,
  0 < size b -> cnt b + len <= fuel + size b ->
  exists b1, enlarge fuel b len = Ret b1.
Proof.
  induction fuel as [|fuel IH]; intros b Hpos Hfuel; rewrite enlarge_unfold;
    case_decide; eauto; [lia|].
  apply IH; simpl; lia.
Qed.

Lemma buf_cat_Ret fuel b s b' off :
  buf_ok b -> buf_cat fuel b s = Ret (b', off) ->
  off = cnt b /\ cnt b' = cnt b + strlen s + 1 /\ buf_ok b' /\
  take (cnt b') (buf b') = take (cnt b) (buf b) ++ (Some <$> s ++ [x00]) /\
  exists k, size b' = size b * 2 ^ k /\
            forall k', k' < k -> size b * 2 ^ k' < cnt b'.
Proof.
  intros Hok H. unfold buf_cat in H.
  apply bind_Ret in H as (b1 & H1 & H).
  apply bind_Ret in H as (mem & Hmem & H). simplify_eq/=.
  destruct (enlarge_Ret _ _ _ _ Hok H1)
    as (Hc & (Hpos & Hlen & Hcnt) & Hroom & Htake & k & Hk & Hmin).
  assert (Hl : length (Some <$> s ++ [x00]) = strlen s + 1).
  { rewrite length_fmap, length_app. done. }
  split_and!.
  - done.
  - lia.
  - unfold buf_ok. simpl. rewrite (store_length _ _ _ _ Hmem). lia.
  - apply store_take in Hmem. rewrite Hl in Hmem.
    rewrite Hc, <- Htake, <- Hc. done.
  - exists k. split; [done|]. intros k' Hk'. specialize (Hmin k' Hk'). lia.
Qed.

Lemma buf_cat_total fuel b s :
  buf_ok b -> cnt b + strlen s + 1 <= fuel + size b ->
  exists b', buf_cat fuel b s = Ret (b', cnt b).
Proof.
  intros Hok Hfuel. pose proof Hok as (Hpos & _).
  destruct (enlarge_total fuel (strlen s + 1) b) as [b1 H1]; [done|lia|].
  destruct (enlarge_Ret _ _ _ _ Hok H1)
    as (Hc & (_ & Hlen & _) & Hroom & _).
  unfold buf_cat. rewrite H1, Ret_bind.
  rewrite store_in_range, Ret_bind.
  - rewrite Hc. eauto.
  - rewrite length_fmap, length_app. simpl. unfold strlen in *. lia.
Qed.

Lemma later_keeps b b' :
  buf_ok b -> later b b' ->
  buf_ok b' /\ cnt b <= cnt b' /\ take (cnt b) (buf b') = take (cnt b) (buf b).
Proof.
  intros Hok. induction 1 as [b|fuel b b1 b2 s off _ IH H].
  - done.
  - destruct (IH Hok) as (Hok1 & Hle & Hpre).
    destruct (buf_cat_Ret _ _ _ _ _ Hok1 H) as (_ & Hc & Hok2 & Ht & _).
    split_and!; [done|lia|].
    rewrite <- Hpre.
    assert (E : take (cnt b) (buf b2) = take (cnt b) (take (cnt b2) (buf b2)))
      by (rewrite take_take; f_equal; lia).
    rewrite E, Ht.
    rewrite take_app_le; [|rewrite length_take; destruct Hok1; lia].
    rewrite take_take. f_equal. lia.
Qed.

Lemma take_eq_lookup {A : Type} (l l' : list A) n i :
  take n l' = take n l -> i < n -> l' !! i = l !! i.
Proof.
  intros H Hi. rewrite <- (lookup_take_lt l' n i), <- (lookup_take_lt l n i) by done.
  by rewrite H.
Qed.

Lemma appended_string {A : Type} (l l0 data : list A) c n :
  take (c + n) l = take c l0 ++ data -> length data = n -> c <= length l0 ->
  take n (drop c l) = data.
Proof.
  intros H Hn Hc. rewrite take_drop_commute, H.
  rewrite drop_app_length'; [done|]. rewrite length_take. lia.
Qed.

(** C8.  On a buffer in a state the program can produce, [buf_cat] ends
    and returns the old logical length as offset; the buffer then holds
    the string and its terminator from that offset on, its length has grown
    by the string's length plus one, its capacity is the old one doubled
    as few times as makes the string fit, every byte below the old length
    is where it was, and this remains so through any later appends. *)
Theorem buf_cat_appends fuel b s :
  buf_ok b -> cnt b + strlen s + 1 <= fuel + size b ->
  exists b',
    buf_cat fuel b s = Ret (b', cnt b) /\
    cnt b' = cnt b + strlen s + 1 /\
    take (strlen s + 1) (drop (cnt b) (buf b')) = (Some <$> s ++ [x00]) /\
    (exists k, size b' = size b * 2 ^ k /\ cnt b' <= size b' /\
               forall k', k' < k -> size b * 2 ^ k' < cnt b') /\
    (forall i, i < cnt b -> buf b' !! i = buf b !! i) /\
    forall b'', later b' b'' ->
      cnt b' <= cnt b'' /\
      (forall i, i < cnt b' -> buf b'' !! i = buf b' !! i) /\
      take (strlen s + 1) (drop (cnt b) (buf b'')) = (Some <$> s ++ [x00]).
Proof.
  intros Hok Hfuel.
  destruct (buf_cat_total fuel b s Hok Hfuel) as [b' H].
  destruct (buf_cat_Ret _ _ _ _ _ Hok H) as (_ & Hc & Hok' & Ht & k & Hk & Hmin).
  assert (Hl : length (Some <$> s ++ [x00]) = strlen s + 1)
    by (rewrite length_fmap, length_app; done).
  assert (Hcl : cnt b <= length (buf b)) by (destruct Hok as (_ & -> & ?); lia).
  assert (Hpre : take (cnt b) (buf b') = take (cnt b) (buf b)).
  { assert (E : take (cnt b) (buf b') = take (cnt b) (take (cnt b') (buf b')))
      by (rewrite take_take; f_equal; lia).
    rewrite E, Ht, take_app_le by (rewrite length_take; lia).
    rewrite take_take. f_equal. lia. }
  exists b'. split_and!.
  - exact H.
  - exact Hc.
  - apply (appended_string _ (buf b)); [|done|done].
    rewrite Nat.add_assoc, <- Hc. exact Ht.
  - exists k. destruct Hok' as (_ & _ & ?). split_and!; done.
  - intros i Hi. by apply (take_eq_lookup _ _ (cnt b)).
  - intros b'' Hl''.
    destruct (later_keeps b' b'' Hok' Hl'') as (_ & Hle & Hpre'').
    split_and!; [done| |].
    + intros i Hi. by apply (take_eq_lookup _ _ (cnt b')).
    + apply (appended_string _ (buf b)); [|done|done].
      rewrite Nat.add_assoc, <- Hc, Hpre''. exact Ht.
Qed.

Lemma strtab_buf_ok : buf_ok strtab_buf.
Proof.
  unfold buf_ok, strtab_buf, new_buf. cbn [size cnt buf].
  rewrite length_replicate. unfold BUF_INIT_SIZE. lia.
Qed.

Lemma buf_cat_appends_witness :
  buf_ok strtab_buf /\
  cnt strtab_buf + strlen (str "averylongsymbolname") + 1
  <= 0 + size strtab_buf /\
  exists b',
    buf_cat 0 strtab_buf (str "averylongsymbolname")
    = Ret (b', cnt strtab_buf) /\
    cnt b' = cnt strtab_buf + strlen (str "averylongsymbolname") + 1 /\
    take (strlen (str "averylongsymbolname") + 1)
         (drop (cnt strtab_buf) (buf b'))
    = (Some <$> str "averylongsymbolname" ++ [x00]) /\
    (exists k, size b' = size strtab_buf * 2 ^ k /\ cnt b' <= size b' /\
               forall k', k' < k -> size strtab_buf * 2 ^ k' < cnt b') /\
    (forall i, i < cnt strtab_buf -> buf b' !! i = buf strtab_buf !! i) /\
    forall b'', later b' b'' ->
      cnt b' <= cnt b'' /\
      (forall i, i < cnt b' -> buf b'' !! i = buf b' !! i) /\
      take (strlen (str "averylongsymbolname") + 1)
           (drop (cnt strtab_buf) (buf b''))
      = (Some <$> str "averylongsymbolname" ++ [x00]).
Proof.
  pose proof strtab_buf_ok as H1.
  assert (H2 : cnt strtab_buf + strlen (str "averylongsymbolname") + 1
               <= 0 + size strtab_buf) by (vm_compute; lia).
  split; [exact H1|]. split; [exact H2|].
  exact (buf_cat_appends 0 strtab_buf (str "averylongsymbolname") H1 H2).
Defined.

(** ** Bytes of the image *)

Lemma byte_val_of_Z z : byte_val (byte_of_Z z) = (z mod 256)%Z.
Proof.
  unfold byte_of_Z, byte_val.
  pose proof (Z.mod_pos_bound z 256 eq_refl) as Hb.
  destruct (Byte.of_N (Z.to_N (z mod 256))) as [b|] eqn:E; simpl.
  - apply Byte.to_of_N in E. rewrite E. lia.
  - apply Byte.of_N_None_iff in E. lia.
Qed.

Lemma dword_of_dword_bytes z :
  dword_of_bytes (dword_bytes z) = (z mod 2 ^ 32)%Z.
Proof.
  unfold dword_of_bytes, dword_bytes. simpl fold_right.
  rewrite !byte_val_of_Z, !Z.shiftr_div_pow2 by lia.
  change (2 ^ 8)%Z with 256%Z. change (2 ^ 16)%Z with 65536%Z.
  change (2 ^ 24)%Z with 16777216%Z. change (2 ^ 32)%Z with 4294967296%Z.
  Z.to_euclidean_division_equations. lia.
Qed.

Lemma to_DWORD_idem n : (to_DWORD n mod 2 ^ 32)%Z = to_DWORD n.
Proof. unfold to_DWORD. apply Z.mod_mod. lia. Qed.

Lemma to_DWORD_small n :
  (Z.of_nat n < 2 ^ 32)%Z -> to_DWORD n = Z.of_nat n.
Proof. intros H. unfold to_DWORD. apply Z.mod_small. lia. Qed.

Lemma load_store_same (img img' : image) off data :
  store img off data = Ret img' ->
  load_bytes img' off (length data) = Ret data.
Proof.
  intros H. pose proof (store_length _ _ _ _ H) as Hl.
  destruct (store_Ret _ _ _ _ H) as [Hle ->].
  unfold load_bytes. rewrite decide_True by lia. f_equal.
  rewrite drop_app_length' by (rewrite length_take; lia).
  by rewrite take_app_length'.
Qed.

Lemma load_store_other (img img' : image) off data o n :
  store img off data = Ret img' ->
  o + n <= off \/ off + length data <= o ->
  load_bytes img' o n = load_bytes img o n.
Proof.
  intros H Ho. pose proof (store_length _ _ _ _ H) as Hl.
  unfold load_bytes. rewrite Hl. case_decide; [|done]. f_equal.
  apply list_eq. intros i. rewrite !lookup_take, !lookup_drop.
  case_decide; [|done]. apply (store_lookup_outside _ _ _ _ _ H). lia.
Qed.

Lemma load_bytes_split (img : image) off a c :
  load_bytes img off (length a + length c) = Ret (a ++ c) ->
  load_bytes img off (length a) = Ret a /\
  load_bytes img (off + length a) (length c) = Ret c.
Proof.
  unfold load_bytes. intros H. case_decide; simplify_eq.
  rewrite !decide_True by lia. split; f_equal.
  - apply (f_equal (take (length a))) in H.
    rewrite take_take, take_app_length' in H by done.
    replace (length a `min` (length a + length c)) with (length a) in H by lia.
    done.
  - apply (f_equal (drop (length a))) in H.
    rewrite drop_app_length' in H by done.
    rewrite <- drop_drop, take_drop_commute. exact H.
Qed.

Lemma strncpy_short s : strlen s <= 8 -> strncpy s 8 = s ++ replicate (8 - strlen s) x00.
Proof. intros H. unfold strncpy. by rewrite take_ge. Qed.

Lemma strncpy_length s n : length (strncpy s n) = n.
Proof.
  unfold strncpy, strlen. rewrite length_app, length_take, length_replicate. lia.
Qed.

Lemma load_bytes_join (img : image) off a c :
  load_bytes img off (length a) = Ret a ->
  load_bytes img (off + length a) (length c) = Ret c ->
  load_bytes img off (length a + length c) = Ret (a ++ c).
Proof.
  unfold load_bytes. intros Ha Hc. repeat case_decide; simplify_eq; [|lia].
  f_equal. rewrite <- take_take_drop, drop_drop. congruence.
Qed.

Lemma emit_name_spec fuel img sym b entry :
  buf_ok b -> sym_offset sym + 8 <= length img ->
  cnt b + strlen (effective_name entry) + 1 <= fuel + size b ->
  exists img' b',
    emit_name fuel img sym b entry = Ret (img', b') /\
    length img' = length img /\
    (forall i, i < sym_offset sym \/ sym_offset sym + 8 <= i ->
               img' !! i = img !! i) /\
    buf_ok b' /\ later b b' /\
    load_bytes img' (sym_offset sym) 8
    = Ret (name_bytes (effective_name entry) (cnt b)) /\
    take (cnt b') (buf b')
    = take (cnt b) (buf b) ++ (Some <$> table_bytes (effective_name entry)) /\
    cnt b' = cnt b + length (table_bytes (effective_name entry)) /\
    (if decide (strlen (effective_name entry) <= 8) then b' = b
     else buf_cat fuel b (effective_name entry) = Ret (b', cnt b)).
Proof.
  intros Hok Hin Hfuel. unfold emit_name, name_bytes, table_bytes.
  set (s := effective_name entry) in *. cbv zeta.
  destruct (decide (strlen s <= 8)) as [Hs|Hs].
  - pose proof (strncpy_length s 8) as Hl.
    rewrite store_in_range, Ret_bind by lia.
    assert (Hst : store img (sym_offset sym) (strncpy s 8)
                  = Ret (take (sym_offset sym) img ++ strncpy s 8 ++
                         drop (sym_offset sym + length (strncpy s 8)) img))
      by (apply store_in_range; lia).
    eexists _, b. split; [reflexivity|]. split_and!.
    + by rewrite (store_length _ _ _ _ Hst).
    + intros i Hi. apply (store_lookup_outside _ _ _ _ _ Hst). lia.
    + done.
    + constructor.
    + rewrite <- Hl at 3. exact (load_store_same _ _ _ _ Hst).
    + simpl. by rewrite app_nil_r.
    + simpl. lia.
    + done.
  - destruct (buf_cat_total fuel b s Hok Hfuel) as [b' Hb].
    destruct (buf_cat_Ret _ _ _ _ _ Hok Hb) as (_ & Hc & Hok' & Ht & _).
    rewrite Hb, Ret_bind. cbv beta iota.
    unfold OFFSET_Short, OFFSET_Long. rewrite Nat.add_0_r.
    destruct (store img (sym_offset sym) (dword_bytes 0)) as [img1| | |] eqn:H1;
      try (rewrite store_in_range in H1 by (simpl; lia); discriminate).
    pose proof (store_length _ _ _ _ H1) as Hl1.
    rewrite Ret_bind.
    destruct (store img1 (sym_offset sym + 4) (dword_bytes (to_DWORD (cnt b))))
      as [img2| | |] eqn:H2;
      try (rewrite store_in_range in H2 by (simpl; lia); discriminate).
    pose proof (store_length _ _ _ _ H2) as Hl2.
    rewrite Ret_bind. exists img2, b'. split; [reflexivity|]. split_and!.
    + congruence.
    + intros i Hi.
      rewrite (store_lookup_outside _ _ _ _ _ H2) by (simpl; lia).
      apply (store_lookup_outside _ _ _ _ _ H1). simpl. lia.
    + done.
    + econstructor; [constructor|exact Hb].
    + apply (load_bytes_join img2 _ (dword_bytes 0)
               (dword_bytes (to_DWORD (cnt b)))).
      * rewrite (load_store_other _ _ _ _ _ _ H2) by (simpl; lia).
        by apply (load_store_same _ _ _ _ H1).
      * by apply (load_store_same _ _ _ _ H2).
    + exact Ht.
    + rewrite length_app. simpl. unfold strlen in Hc. lia.
    + reflexivity.
Qed.

(** C1.  For an entry and the record it is paired with, re-emission takes
    the entry's value when there is one and its key otherwise.  A name of
    at most 8 bytes is copied into the 8-byte name field and padded with
    NULs, so that a name of exactly 8 bytes fills the field with no
    terminator, and the buffer is left alone; a longer name goes to the
    buffer with its terminator, the field's first four bytes become zero
    and its last four the offset [buf_cat] returned.  Nothing outside the
    field changes, and the field's new content is the same whatever the
    record held before. *)
Theorem emit_name_encoding fuel img sym b entry :
  buf_ok b -> sym_offset sym + 8 <= length img ->
  cnt b + strlen (effective_name entry) + 1 <= fuel + size b ->
  effective_name entry = default (key entry) (val entry) /\
  exists img' b',
    emit_name fuel img sym b entry = Ret (img', b') /\
    length img' = length img /\
    (forall i, i < sym_offset sym \/ sym_offset sym + 8 <= i ->
               img' !! i = img !! i) /\
    (strlen (effective_name entry) <= 8 ->
       b' = b /\
       load_bytes img' (sym_offset sym) 8
       = Ret (effective_name entry ++
              replicate (8 - strlen (effective_name entry)) x00)) /\
    (strlen (effective_name entry) = 8 ->
       load_bytes img' (sym_offset sym) 8 = Ret (effective_name entry)) /\
    (8 < strlen (effective_name entry) ->
       buf_cat fuel b (effective_name entry) = Ret (b', cnt b) /\
       load_dword img' (sym_offset sym + OFFSET_Short) = Ret 0%Z /\
       load_dword img' (sym_offset sym + OFFSET_Long) = Ret (to_DWORD (cnt b)) /\
       ((Z.of_nat (cnt b) < 2 ^ 32)%Z ->
          load_dword img' (sym_offset sym + OFFSET_Long)
          = Ret (Z.of_nat (cnt b))) /\
       take (strlen (effective_name entry) + 1) (drop (cnt b) (buf b'))
       = (Some <$> effective_name entry ++ [x00])) /\
    (forall img0, length img0 = length img ->
       exists img0',
         emit_name fuel img0 sym b entry = Ret (img0', b') /\
         load_bytes img0' (sym_offset sym) 8
         = load_bytes img' (sym_offset sym) 8).
Proof.
  intros Hok Hin Hfuel. split; [by destruct entry as [h k [v|]]|].
  destruct (emit_name_spec fuel img sym b entry Hok Hin Hfuel)
    as (img' & b' & H & Hl & Hout & Hok' & Hlater & Hname & Htab & _ & Hb).
  set (s := effective_name entry) in *.
  exists img', b'. unfold name_bytes, table_bytes in *.
  split_and!; [done|done|done|..].
  - intros Hs. destruct (decide (strlen s <= 8)); [|lia].
    split; [done|]. by rewrite <- strncpy_short.
  - intros Hs. destruct (decide (strlen s <= 8)); [|lia].
    rewrite strncpy_short in Hname by lia. rewrite Hname, Hs. simpl.
    by rewrite app_nil_r.
  - intros Hs. destruct (decide (strlen s <= 8)); [lia|].
    change 8 with (length (dword_bytes 0)
                   + length (dword_bytes (to_DWORD (cnt b)))) in Hname.
    apply load_bytes_split in Hname as [Hn1 Hn2].
    assert (Hlong : load_dword img' (sym_offset sym + OFFSET_Long)
                    = Ret (to_DWORD (cnt b))).
    { unfold load_dword, OFFSET_Long. simpl length in Hn2. rewrite Hn2, Ret_bind.
      by rewrite dword_of_dword_bytes, to_DWORD_idem. }
    split_and!.
    + done.
    + unfold load_dword, OFFSET_Short. rewrite Nat.add_0_r.
      simpl length in Hn1. by rewrite Hn1.
    + done.
    + intros Hsmall. by rewrite Hlong, to_DWORD_small.
    + destruct (buf_cat_Ret _ _ _ _ _ Hok Hb) as (_ & Hc & _).
      apply (appended_string _ (buf b)).
      * rewrite Nat.add_assoc, <- Hc. exact Htab.
      * rewrite length_fmap, length_app. done.
      * destruct Hok as (_ & -> & ?). lia.
  - intros img0 Hl0.
    destruct (emit_name_spec fuel img0 sym b entry Hok) as
      (img0' & b0' & H0 & _ & _ & _ & _ & Hname0 & _ & _ & Hb0); [lia|done|].
    fold s in Hb0, Hname0. unfold name_bytes in Hname0.
    assert (b0' = b') as ->.
    { destruct (decide (strlen s <= 8)); congruence. }
    exists img0'. split; [done|]. congruence.
Qed.

(** ** Claims on the codec *)

(** C3 (the code departs from it).  The record of [eight_image] has the
    inline name [abcdefgh] in its 8-byte field, with no NUL, and value 1.
    The name [get_symbol_names] decodes, and stores as key, does not stop
    at byte 8: it runs on into the value field up to the first NUL and has
    9 bytes.  A rename of [abcdefgh] then fails. *)
Theorem inline_name_runs_past_8_bytes :
  load_bytes eight_image (sym_offset 0) 8 = Ret (list_byte_of_string "abcdefgh") /\
  symbol_name eight_image 1 0 = Ret (list_byte_of_string "abcdefgh" ++ [x01]) /\
  (d ← get_symbol_names 64 eight_image 1; Ret (key <$> entries d))
  = Ret [list_byte_of_string "abcdefgh" ++ [x01]] /\
  (d ← get_symbol_names 64 eight_image 1;
   change_symbol_name 64 d (list_byte_of_string "abcdefgh")
     (list_byte_of_string "renamed"))
  = Abort "Cannot find symbol 'abcdefgh'.".
Proof. vm_compute. split_and!; reflexivity. Qed.

Lemma emit_name_encoding_witness :
  buf_ok strtab_buf /\ sym_offset 0 + 8 <= length demo_image /\
  cnt strtab_buf
  + strlen (effective_name
              (mk_entry 0 (str "foo") (Some (str "a_much_longer_name")))) + 1
  <= 0 + size strtab_buf /\
  exists img' b',
    emit_name 0 demo_image 0 strtab_buf
      (mk_entry 0 (str "foo") (Some (str "a_much_longer_name")))
    = Ret (img', b') /\
    load_dword img' (sym_offset 0 + OFFSET_Short) = Ret 0%Z /\
    load_dword img' (sym_offset 0 + OFFSET_Long) = Ret 4%Z.
Proof.
  pose proof strtab_buf_ok as H1.
  assert (H2 : sym_offset 0 + 8 <= length demo_image) by (vm_compute; lia).
  assert (H3 : cnt strtab_buf
               + strlen (effective_name
                           (mk_entry 0 (str "foo")
                              (Some (str "a_much_longer_name")))) + 1
               <= 0 + size strtab_buf) by (vm_compute; lia).
  split; [exact H1|]. split; [exact H2|]. split; [exact H3|].
  destruct (emit_name_encoding 0 demo_image 0 strtab_buf
              (mk_entry 0 (str "foo") (Some (str "a_much_longer_name")))
              H1 H2 H3)
    as (_ & img' & b' & H & _ & _ & _ & _ & Hlong & _).
  exists img', b'. split; [exact H|].
  destruct Hlong as (_ & Hs & _ & Hl & _); [vm_compute; lia|].
  split; [exact Hs|]. apply Hl. vm_compute. reflexivity.
Defined.

(** ** The scan builds the dictionary in record order *)

Lemma scan_unfold n img nsym i :
  scan n img nsym i =
  if decide (nsym <= i) then Ret []
  else
    match n with
    | O => Timeout
    | S n' =>
        s ← symbol_name img nsym i;
        aux ← NumberOfAuxSymbols img i;
        rest ← scan n' img nsym (i + aux + 1);
        Ret ((i, s) :: rest)
    end.
Proof. destruct n; reflexivity. Qed.

Lemma symbol_loop_unfold n fuel img nsym i d :
  symbol_loop n fuel img nsym i d =
  if decide (nsym <= i) then Ret d
  else
    match n with
    | O => Timeout
    | S n' =>
        s ← symbol_name img nsym i;
        '(d', _) ← dict_add fuel d s None;
        aux ← NumberOfAuxSymbols img i;
        symbol_loop n' fuel img nsym (i + aux + 1) d'
    end.
Proof. destruct n; reflexivity. Qed.

Lemma symbol_loop_scan img nsym : forall n i ps,
  scan n img nsym i = Ret ps ->
  forall d, reachable d -> NoDup ((key <$> entries d) ++ (snd <$> ps)) ->
  exists fuel0 d',
    (forall fuel m, fuel0 <= fuel -> n <= m ->
       symbol_loop m fuel img nsym i d = Ret d') /\
    entries d' = entries d ++ (fresh_entry <$> (snd <$> ps)) /\
    reachable d'.
Proof.
  induction n as [|n IH]; intros i ps H d Hd Hnd; rewrite scan_unfold in H;
    case_decide; simplify_eq.
  - exists 0, d. split_and!; [|by rewrite app_nil_r|done].
    intros fuel m _ _. rewrite symbol_loop_unfold. by rewrite decide_True.
  - exists 0, d. split_and!; [|by rewrite app_nil_r|done].
    intros fuel m _ _. rewrite symbol_loop_unfold. by rewrite decide_True.
  - apply bind_Ret in H as (s & Hs & H).
    apply bind_Ret in H as (aux & Haux & H).
    apply bind_Ret in H as (rest & Hrest & H). simplify_eq.
    simpl in Hnd.
    assert (Habs : s ∉ key <$> entries d).
    { apply NoDup_app in Hnd as (_ & Hdis & _). intros Hin.
      apply (Hdis s Hin). apply list_elem_of_here. }
    destruct (dict_add_insert (2 * DICT_SIZE d) d s)
      as (d1 & Hadd & He1 & _ & Hwf1);
      [by apply reachable_wf|by apply absent_key|done|].
    assert (Hd1 : reachable d1) by (by eapply reachable_add).
    destruct (IH _ _ Hrest d1 Hd1) as (fuel0 & d' & Hloop & He & Hd').
    { rewrite He1, fmap_app. simpl. by rewrite <- app_assoc. }
    exists (Nat.max (2 * DICT_SIZE d) fuel0), d'. split_and!.
    + intros fuel [|m] Hfuel Hm; [lia|].
      rewrite symbol_loop_unfold, decide_False by done.
      rewrite Hs, Ret_bind.
      rewrite (dict_add_mono _ fuel _ _ _ _ Hadd) by lia.
      rewrite Ret_bind. cbv beta iota. rewrite Haux, Ret_bind.
      apply Hloop; lia.
    + rewrite He, He1, <- app_assoc. done.
    + done.
Qed.

Lemma dict_add_rename_inv fuel d k v d' b :
  dict_add fuel d k (Some v) = Ret (d', b) ->
  hash_and_key <$> entries d' = hash_and_key <$> entries d.
Proof.
  unfold dict_add. intros H. apply bind_Ret in H as ([e|j] & _ & H).
  - simpl in H. simplify_eq. apply update_entry_keys.
  - by simplify_eq.
Qed.

Lemma change_symbol_names_keys fuel pairs : forall d d',
  change_symbol_names fuel d pairs = Ret d' ->
  key <$> entries d' = key <$> entries d.
Proof.
  induction pairs as [|[old new] pairs IH]; intros d d' H; simpl in H.
  - by simplify_eq.
  - apply bind_Ret in H as (d1 & H1 & H). rewrite (IH _ _ H).
    unfold change_symbol_name in H1.
    apply bind_Ret in H1 as ([d2 ok] & H2 & H1).
    destruct ok; simplify_eq.
    apply dict_add_rename_inv, (f_equal (fmap snd)) in H2.
    by rewrite <- !list_fmap_compose in H2.
Qed.

(** ** Re-emission walks the same records *)

Lemma later_trans b1 b2 b3 : later b1 b2 -> later b2 b3 -> later b1 b3.
Proof.
  intros H12 H23. induction H23 as [|fuel b2 b b3 s off _ IH H]; [done|].
  econstructor; [by apply IH|exact H].
Qed.

Lemma NumberOfAuxSymbols_agree img img0 p :
  aux_agree img img0 -> NumberOfAuxSymbols img p = NumberOfAuxSymbols img0 p.
Proof.
  intros [_ H]. unfold NumberOfAuxSymbols, load_byte. by rewrite H.
Qed.

Lemma NumberOfAuxSymbols_bound img p a :
  NumberOfAuxSymbols img p = Ret a ->
  sym_offset p + IMAGE_SIZEOF_SYMBOL <= length img.
Proof.
  unfold NumberOfAuxSymbols, load_byte, OFFSET_NumberOfAuxSymbols,
    IMAGE_SIZEOF_SYMBOL.
  destruct (img !! (sym_offset p + 17)) eqn:E; [|done].
  intros _. apply lookup_lt_Some in E. lia.
Qed.

Lemma load_bytes_agree (img img' : image) off n :
  length img' = length img ->
  (forall j, off <= j < off + n -> img' !! j = img !! j) ->
  load_bytes img' off n = load_bytes img off n.
Proof.
  intros Hl H. unfold load_bytes. rewrite Hl. case_decide; [|done]. f_equal.
  apply list_eq. intros j. rewrite !lookup_take, !lookup_drop.
  case_decide; [|done]. apply H. lia.
Qed.

Lemma take_drop_agree {A : Type} (l l' : list A) c off n :
  take c l' = take c l -> off + n <= c ->
  take n (drop off l') = take n (drop off l).
Proof.
  intros H Hc. apply list_eq. intros j. rewrite !lookup_take, !lookup_drop.
  case_decide; [|done]. apply (take_eq_lookup _ _ c); [done|lia].
Qed.

Lemma strtab_body_cons s names :
  strtab_body (s :: names) = table_bytes s ++ strtab_body names.
Proof. reflexivity. Qed.

Lemma table_bytes_fuel s : strlen s + 1 <= length (table_bytes s) + 9.
Proof.
  unfold table_bytes. case_decide; [simpl; lia|].
  rewrite length_app. unfold strlen. simpl. lia.
Qed.

Lemma encodes_emitted img b b' sym s :
  buf_ok b ->
  load_bytes img (sym_offset sym) 8 = Ret (name_bytes s (cnt b)) ->
  take (cnt b') (buf b') = take (cnt b) (buf b) ++ (Some <$> table_bytes s) ->
  cnt b' = cnt b + length (table_bytes s) ->
  encodes img b' sym s.
Proof.
  intros (_ & Hlen & Hcnt) Hname Htab Hc.
  unfold encodes, name_bytes, table_bytes in *.
  destruct (decide (strlen s <= 8)) as [Hs|Hs].
  - by rewrite <- strncpy_short.
  - exists (cnt b). rewrite length_app in Hc. simpl in Hc.
    unfold strlen in *. split_and!; [done|lia|].
    apply (appended_string _ (buf b)).
    + rewrite Nat.add_assoc. rewrite Hc in Htab.
      replace (cnt b + length s + 1) with (cnt b + (length s + 1)) by lia.
      exact Htab.
    + rewrite length_fmap, length_app. done.
    + lia.
Qed.

Lemma encodes_later img img' b b' sym s :
  encodes img b sym s -> buf_ok b -> later b b' ->
  length img' = length img ->
  (forall j, sym_offset sym <= j < sym_offset sym + 8 -> img' !! j = img !! j) ->
  encodes img' b' sym s.
Proof.
  intros H Hok Hlater Hl Hsame.
  destruct (later_keeps b b' Hok Hlater) as (_ & Hle & Hpre).
  unfold encodes in *. rewrite (load_bytes_agree img img') by done.
  case_decide; [done|]. destruct H as (off & Hname & Hoff & Hstr).
  exists off. split_and!; [done|lia|].
  rewrite <- Hstr. apply (take_drop_agree _ _ (cnt b)); [done|lia].
Qed.

Lemma emit_loop_scan fuel img0 nsym : forall n i ps,
  scan n img0 nsym i = Ret ps ->
  forall ents img b,
    length ents = length ps -> aux_agree img img0 -> buf_ok b ->
    cnt b + length (strtab_body (effective_name <$> ents)) + 9 <= fuel ->
    exists img' b',
      emit_loop fuel ents img i b = Ret (img', b') /\
      aux_agree img' img0 /\
      (forall j, j < sym_offset i -> img' !! j = img !! j) /\
      (forall j, (forall p, p ∈ fst <$> ps ->
                    ~ (sym_offset p <= j < sym_offset p + 8)) ->
                 img' !! j = img !! j) /\
      buf_ok b' /\ later b b' /\
      forall k p s ent,
        ps !! k = Some (p, s) -> ents !! k = Some ent ->
        encodes img' b' p (effective_name ent).
Proof.
  induction n as [|n IH]; intros i ps H ents img b Hlen Hagree Hok Hfuel;
    rewrite scan_unfold in H; case_decide; simplify_eq.
  - destruct ents; [|done]. exists img, b. simpl.
    split_and!; try done; constructor.
  - destruct ents; [|done]. exists img, b. simpl.
    split_and!; try done; constructor.
  - apply bind_Ret in H as (s & Hs & H).
    apply bind_Ret in H as (aux & Haux & H).
    apply bind_Ret in H as (rest & Hrest & H). simplify_eq.
    destruct ents as [|ent ents]; [done|]. simpl in Hlen.
    rewrite fmap_cons, strtab_body_cons, length_app in Hfuel.
    pose proof (table_bytes_fuel (effective_name ent)) as Hneed.
    pose proof (NumberOfAuxSymbols_bound _ _ _ Haux) as Hb0.
    unfold IMAGE_SIZEOF_SYMBOL in Hb0.
    pose proof Hagree as [Hl0 Haux0].
    destruct (emit_name_spec fuel img i b ent Hok)
      as (img1 & b1 & H1 & Hl1 & Hout1 & Hok1 & Hlater1 & Hname1 & Htab1
          & Hc1 & _); [lia|lia|].
    assert (Hagree1 : aux_agree img1 img0).
    { split; [congruence|]. intros p. rewrite <- Haux0. apply Hout1.
      unfold sym_offset, IMAGE_SIZEOF_SYMBOL, OFFSET_NumberOfAuxSymbols. lia. }
    destruct (IH _ _ Hrest ents img1 b1)
      as (img' & b' & H' & Hagree' & Hlow' & Hout' & Hok' & Hlater' & Henc');
      [lia|done|done|lia|].
    exists img', b'. simpl. rewrite H1, Ret_bind. cbv beta iota.
    rewrite (NumberOfAuxSymbols_agree _ _ _ Hagree1), Haux, Ret_bind.
    split; [exact H'|].
    assert (Hstep : sym_offset i + 8 <= sym_offset (i + aux + 1))
      by (unfold sym_offset, IMAGE_SIZEOF_SYMBOL; lia).
    split_and!.
    + done.
    + intros j Hj. rewrite Hlow' by lia. apply Hout1. lia.
    + intros j Hj. rewrite Hout'.
      * apply Hout1. specialize (Hj i). simpl in Hj.
        pose proof (Hj (list_elem_of_here _ _)). lia.
      * intros p Hp. apply Hj. simpl. by apply list_elem_of_further.
    + done.
    + by eapply later_trans.
    + intros [|k] p s' ent' Hp Hent'; simpl in *; simplify_eq.
      * apply (encodes_later img1 _ b1); auto.
        -- by apply (encodes_emitted img1 b b1).
        -- destruct Hagree' as [-> _]. by destruct Hagree1.
        -- intros j Hj. apply Hlow'. lia.
      * by eapply Henc'.
Qed.

Lemma enlarge_mono fuel fuel' len : forall b b1,
  enlarge fuel b len = Ret b1 -> fuel <= fuel' -> enlarge fuel' b len = Ret b1.
Proof.
  revert fuel'. induction fuel as [|fuel IH]; intros fuel' b b1 H Hle;
    rewrite enlarge_unfold in *; case_decide; try done.
  destruct fuel' as [|fuel']; [lia|]. apply IH; [done|lia].
Qed.

Lemma buf_cat_mono fuel fuel' b s r :
  buf_cat fuel b s = Ret r -> fuel <= fuel' -> buf_cat fuel' b s = Ret r.
Proof.
  unfold buf_cat. intros H Hle. apply bind_Ret in H as (b1 & H1 & H).
  by rewrite (enlarge_mono _ fuel' _ _ _ H1 Hle).
Qed.

Lemma emit_name_mono fuel fuel' img sym b entry r :
  emit_name fuel img sym b entry = Ret r -> fuel <= fuel' ->
  emit_name fuel' img sym b entry = Ret r.
Proof.
  unfold emit_name. intros H Hle. case_decide; [done|].
  apply bind_Ret in H as (r1 & H1 & H).
  by rewrite (buf_cat_mono _ fuel' _ _ _ H1 Hle).
Qed.

Lemma emit_loop_mono fuel fuel' todo : forall img sym b r,
  emit_loop fuel todo img sym b = Ret r -> fuel <= fuel' ->
  emit_loop fuel' todo img sym b = Ret r.
Proof.
  induction todo as [|entry todo IH]; intros img sym b r H Hle; simpl in *.
  - done.
  - apply bind_Ret in H as ([img1 b1] & H1 & H).
    rewrite (emit_name_mono _ fuel' _ _ _ _ _ H1 Hle), Ret_bind.
    cbv beta iota in *.
    apply bind_Ret in H as (aux & Haux & H). rewrite Haux, Ret_bind. eauto.
Qed.

Lemma key_fresh_entries (names : list cstr) :
  key <$> (fresh_entry <$> names) = names.
Proof.
  induction names as [|s names IH]; [done|].
  rewrite !fmap_cons, IH. done.
Qed.

(** ** The string table [main] writes *)

Lemma emit_name_Ret fuel img sym b entry img' b' :
  buf_ok b -> emit_name fuel img sym b entry = Ret (img', b') ->
  buf_ok b' /\
  cnt b' = cnt b + length (table_bytes (effective_name entry)) /\
  take (cnt b') (buf b')
  = take (cnt b) (buf b) ++ (Some <$> table_bytes (effective_name entry)).
Proof.
  intros Hok H. unfold emit_name, table_bytes in *. cbv zeta in H.
  destruct (decide (strlen (effective_name entry) <= 8)) as [Hs|Hs].
  - apply bind_Ret in H as (img1 & _ & H). simplify_eq. simpl.
    rewrite app_nil_r. split_and!; [done|lia|done].
  - apply bind_Ret in H as ([b1 off] & Hb & H). cbv beta iota in H.
    apply bind_Ret in H as (img1 & _ & H).
    apply bind_Ret in H as (img2 & _ & H). simplify_eq.
    destruct (buf_cat_Ret _ _ _ _ _ Hok Hb) as (_ & Hc & Hok' & Ht & _).
    split_and!; [done| |done].
    rewrite length_app. simpl. unfold strlen in Hc. lia.
Qed.

Lemma emit_loop_Ret fuel todo : forall img sym b img' b',
  buf_ok b -> emit_loop fuel todo img sym b = Ret (img', b') ->
  buf_ok b' /\
  cnt b' = cnt b + length (strtab_body (effective_name <$> todo)) /\
  take (cnt b') (buf b')
  = take (cnt b) (buf b) ++ (Some <$> strtab_body (effective_name <$> todo)).
Proof.
  induction todo as [|entry todo IH]; intros img sym b img' b' Hok H;
    simpl in H.
  - simplify_eq. simpl. rewrite app_nil_r. split_and!; [done|lia|done].
  - apply bind_Ret in H as ([img1 b1] & H1 & H). cbv beta iota in H.
    apply bind_Ret in H as (aux & _ & H).
    destruct (emit_name_Ret _ _ _ _ _ _ _ Hok H1) as (Hok1 & Hc1 & Ht1).
    destruct (IH _ _ _ _ _ Hok1 H) as (Hok' & Hc' & Ht').
    rewrite fmap_cons, strtab_body_cons, length_app, fmap_app.
    split_and!; [done|lia|]. rewrite Ht', Ht1, <- app_assoc. done.
Qed.

(** C7, counterexample: the buffer [new_buf] creates has logical length 0,
    not 4. *)
Lemma new_buf_length_not_4 : cnt new_buf = 0 /\ cnt new_buf <> 4.
Proof. split; [reflexivity|discriminate]. Qed.

(** ** The run on the example of the spec *)

(** Symbols [foo], [bar] and [averylongsymbolname], renames
    [foo -> baz] and [averylongsymbolname -> short]: all three names end
    up inline, the auxiliary record is untouched and the string table is
    its 4-byte length alone. *)
Example smc_end_to_end :
  smc 64 demo_image 4 demo_pairs
  = Ret (sym_record (str "baz") 0 1 ++ sym_record (str ".file") 7 9 ++
         sym_record (str "bar") 16 0 ++ sym_record (str "short") 32 0,
         Some <$> dword_bytes 4).
Proof. vm_compute. reflexivity. Qed.

Lemma dict_add_cases fuel d k v d' b :
  reachable d -> dict_add fuel d k v = Ret (d', b) ->
  (exists e ent v', v = Some v' /\ entries d !! e = Some ent /\ key ent = k /\
                    d' = update_entry d e (Some v') /\ b = true) \/
  (exists v', v = Some v' /\ (k ∉ key <$> entries d) /\ d' = d /\ b = false) \/
  (v = None /\ (k ∉ key <$> entries d) /\ b = true /\
   entries d' = entries d ++ [fresh_entry k] /\
   size_bits d' = (if decide (DICT_SIZE d * 2 / 3 < S (count d))
                   then S (size_bits d) else size_bits d)).
Proof.
  intros Hd H. pose proof (reachable_wf d Hd) as Hwf.
  apply dict_add_mono with (fuel' := fuel + 2 * DICT_SIZE d) in H; [|lia].
  destruct (key_dec_entries d k) as [(e & ent & Hent & <-)|Habs].
  - destruct v as [v|].
    + rewrite (dict_add_update _ _ e) in H by (done || lia).
      simplify_eq. left. by exists e, ent, v.
    + rewrite (dict_add_again _ _ e) in H by (done || lia). done.
  - assert (Hk : k ∉ key <$> entries d).
    { intros (ent & -> & Hent)%list_elem_of_fmap. by eapply Habs. }
    destruct v as [v|].
    + rewrite dict_add_missing in H by (done || lia). simplify_eq.
      right. left. by exists v.
    + destruct (dict_add_insert (fuel + 2 * DICT_SIZE d) d k)
        as (d2 & Hd2 & He & Hb & _); [done|done|lia|].
      rewrite Hd2 in H. simplify_eq. right. right. done.
Qed.

Lemma reachable_snug d : reachable d -> snug d.
Proof.
  induction 1 as [|fuel d k v d' b Hd IH H]; [by left|].
  pose proof (reachable_wf d Hd) as (_ & Hbits & Hload & _).
  destruct (dict_add_cases _ _ _ _ _ _ Hd H)
    as [(e & ent & v' & -> & _ & _ & -> & _)|
        [(v' & -> & _ & -> & _)|(-> & _ & _ & He & Hb)]].
  - unfold snug in *. simpl. destruct IH as [IH|IH]; [by left|right].
    unfold count in *. simpl. by rewrite length_alter.
  - done.
  - assert (Hc : count d' = S (count d)).
    { unfold count. rewrite He, length_app. simpl. lia. }
    unfold snug. rewrite Hc.
    destruct (decide (DICT_SIZE d * 2 / 3 < S (count d))) as [Hg|Hg].
    + right. rewrite !DICT_SIZE_pow in *. rewrite Hb. simpl. lia.
    + destruct IH as [IH|IH]; [left; congruence|right].
      rewrite (DICT_SIZE_bits d d') by done. lia.
Qed.

(** ** More on the dictionary *)

(** X1.  In a dictionary a run can hold no key occurs twice, and the probe
    loop answers with entry number [e] exactly when entry [e] carries the
    key, and with an empty slot exactly when no entry does. *)
Theorem lookup_finds_exactly_the_keys fuel d k :
  reachable d -> DICT_SIZE d <= fuel ->
  NoDup (key <$> entries d) /\
  (forall e, dict_find fuel d k = Ret (Found e) <->
             exists ent, entries d !! e = Some ent /\ key ent = k) /\
  ((exists j, dict_find fuel d k = Ret (Vacant j)) <->
   k ∉ key <$> entries d).
Proof.
  intros Hd Hfuel. pose proof (reachable_wf d Hd) as Hwf.
  assert (Hnd : NoDup (key <$> entries d)) by apply Hwf.
  split; [done|].
  destruct (key_dec_entries d k) as [(e0 & ent0 & Hent0 & <-)|Habs].
  - pose proof (dict_find_present fuel d e0 ent0 Hwf Hent0 Hfuel) as Hf.
    split.
    + intros e. rewrite Hf. split.
      * intros [= <-]. eauto.
      * intros (ent & Hent & Hk).
        assert (e0 = e) as ->; [|done].
        eapply NoDup_lookup; [exact Hnd| |].
        -- by rewrite list_lookup_fmap, Hent0.
        -- rewrite list_lookup_fmap, Hent. simpl. by rewrite Hk.
    + rewrite Hf. split; [by intros [j ?]|].
      intros Hno. exfalso. apply Hno, list_elem_of_fmap.
      exists ent0. split; [done|]. by eapply list_elem_of_lookup_2.
  - destruct (dict_find_absent fuel d k Hwf Habs Hfuel) as (j & _ & Hf).
    split.
    + intros e. rewrite Hf. split; [done|].
      intros (ent & Hent & Hk). exfalso.
      eapply Habs; [|exact Hk]. by eapply list_elem_of_lookup_2.
    + split; [|eauto].
      intros _ (ent & -> & Hent)%list_elem_of_fmap. by eapply Habs.
Qed.

Lemma lookup_finds_exactly_the_keys_witness :
  reachable small_dict /\ DICT_SIZE small_dict <= 32 /\
  NoDup (key <$> entries small_dict) /\
  (forall e, dict_find 32 small_dict (str "bar") = Ret (Found e) <->
             exists ent, entries small_dict !! e = Some ent /\
                         key ent = str "bar") /\
  ((exists j, dict_find 32 small_dict (str "bar") = Ret (Vacant j)) <->
   str "bar" ∉ key <$> entries small_dict).
Proof.
  pose proof small_dict_reachable as H1.
  assert (H2 : DICT_SIZE small_dict <= 32) by (vm_compute; lia).
  split; [exact H1|]. split; [exact H2|].
  exact (lookup_finds_exactly_the_keys 32 small_dict (str "bar") H1 H2).
Defined.

(** X2.  Inserting a key the dictionary does not hold succeeds, whether
    the table grows or not: the new entry, with an absent value, comes
    after the old entries, which stay as they were; the table keeps its
    size or doubles; and a lookup then finds the new key at the old count
    and every old key where it was. *)
Theorem insert_then_lookup fuel d k :
  reachable d -> k ∉ key <$> entries d -> 2 * DICT_SIZE d <= fuel ->
  exists d',
    dict_add fuel d k None = Ret (d', true) /\
    entries d' = entries d ++ [fresh_entry k] /\
    (DICT_SIZE d' = DICT_SIZE d \/ DICT_SIZE d' = 2 * DICT_SIZE d) /\
    dict_find (DICT_SIZE d') d' k = Ret (Found (count d)) /\
    forall e ent, entries d !! e = Some ent ->
      dict_find (DICT_SIZE d') d' (key ent) = Ret (Found e).
Proof.
  intros Hd Hk Hfuel. pose proof (reachable_wf d Hd) as Hwf.
  destruct (dict_add_insert fuel d k Hwf (absent_key d k Hk) Hfuel)
    as (d' & H & He & Hb & Hwf').
  exists d'. split_and!; [done|done| | |].
  - rewrite !DICT_SIZE_pow, Hb. case_decide; [right|left]; simpl; lia.
  - apply (dict_find_present _ d' (count d) (fresh_entry k)); [done| |done].
    rewrite He. by apply list_lookup_middle.
  - intros e ent Hent. apply dict_find_present; [done| |done].
    rewrite He. by apply lookup_app_l_Some.
Qed.

Lemma insert_then_lookup_witness :
  reachable small_dict /\ (str "qux" ∉ key <$> entries small_dict) /\
  2 * DICT_SIZE small_dict <= 64 /\
  exists d',
    dict_add 64 small_dict (str "qux") None = Ret (d', true) /\
    entries d' = entries small_dict ++ [fresh_entry (str "qux")] /\
    (DICT_SIZE d' = DICT_SIZE small_dict \/
     DICT_SIZE d' = 2 * DICT_SIZE small_dict) /\
    dict_find (DICT_SIZE d') d' (str "qux") = Ret (Found (count small_dict)) /\
    forall e ent, entries small_dict !! e = Some ent ->
      dict_find (DICT_SIZE d') d' (key ent) = Ret (Found e).
Proof.
  pose proof small_dict_reachable as H1.
  assert (H2 : str "qux" ∉ (key <$> entries small_dict))
    by absent_by_computation.
  assert (H3 : 2 * DICT_SIZE small_dict <= 64) by (vm_compute; lia).
  split; [exact H1|]. split; [exact H2|]. split; [exact H3|].
  exact (insert_then_lookup 64 small_dict (str "qux") H1 H2 H3).
Defined.

(** X3.  The table of a dictionary a run can hold has 32 slots or fewer
    than three times as many slots as entries, and never more than 2/3 of
    its slots are in use: once it has grown its load lies between 1/3 and
    2/3. *)
Theorem table_size_tracks_count d :
  reachable d ->
  DICT_INIT_BITS <= size_bits d /\
  (DICT_SIZE d = 32 \/ DICT_SIZE d < 3 * count d) /\
  3 * count d <= 2 * DICT_SIZE d.
Proof.
  intros Hd. pose proof (reachable_wf d Hd) as (_ & Hbits & Hload & _).
  split_and!; [done| |lia].
  destruct (reachable_snug d Hd) as [Hs|Hs]; [left|by right].
  by rewrite DICT_SIZE_pow, Hs.
Qed.

Lemma table_size_tracks_count_witness :
  reachable full_dict /\
  DICT_INIT_BITS <= size_bits full_dict /\
  (DICT_SIZE full_dict = 32 \/ DICT_SIZE full_dict < 3 * count full_dict) /\
  3 * count full_dict <= 2 * DICT_SIZE full_dict.
Proof.
  pose proof full_dict_reachable as H1.
  split; [exact H1|]. exact (table_size_tracks_count full_dict H1).
Defined.

(** ** Batches of renames *)

Lemma renamed_cons old new rest ent :
  renamed ((old, new) :: rest) ent = renamed rest (rename_entry old new ent).
Proof.
  unfold renamed, rename_entry. simpl.
  destruct (decide (key ent = old)) as [Hk|Hne]; simpl;
    destruct (last_rename rest (key ent)); try done.
  - by rewrite decide_True.
  - rewrite decide_False; [done|congruence].
Qed.

Lemma update_entry_rename d e ent v :
  NoDup (key <$> entries d) -> entries d !! e = Some ent ->
  update_entry d e (Some v)
  = with_entries d (rename_entry (key ent) v <$> entries d).
Proof.
  intros Hnd Hent. unfold update_entry, with_entries. f_equal.
  apply list_eq. intros i. rewrite list_lookup_fmap.
  destruct (decide (e = i)) as [<-|Hne].
  - rewrite list_lookup_alter_eq, Hent. simpl. unfold rename_entry.
    by rewrite decide_True.
  - rewrite list_lookup_alter_ne by done.
    destruct (entries d !! i) as [ent'|] eqn:Hent'; [|done]. simpl.
    unfold rename_entry. rewrite decide_False; [done|].
    intros Hk. apply Hne. eapply NoDup_lookup; [exact Hnd| |].
    + by rewrite list_lookup_fmap, Hent.
    + rewrite list_lookup_fmap, Hent'. simpl. by rewrite Hk.
Qed.

Lemma rename_entry_keys old new (ents : list entry_t) :
  key <$> (rename_entry old new <$> ents) = key <$> ents.
Proof.
  rewrite <- list_fmap_compose. apply list_fmap_ext. intros i ent _.
  unfold rename_entry. simpl. by case_decide.
Qed.

Lemma change_symbol_name_present fuel d old new :
  reachable d -> DICT_SIZE d <= fuel -> old ∈ key <$> entries d ->
  change_symbol_name fuel d old new
  = Ret (with_entries d (rename_entry old new <$> entries d)) /\
  reachable (with_entries d (rename_entry old new <$> entries d)).
Proof.
  intros Hd Hfuel (e & ent & Hent & <-)%present_key.
  pose proof (reachable_wf d Hd) as Hwf.
  pose proof (dict_add_update fuel d e ent new Hwf Hent Hfuel) as H.
  rewrite (update_entry_rename d e ent) in H by (done || apply Hwf).
  split.
  - unfold change_symbol_name. by rewrite H.
  - by eapply reachable_add.
Qed.

Lemma change_symbol_names_present fuel pairs : forall d,
  reachable d -> DICT_SIZE d <= fuel ->
  Forall (fun p => p.1 ∈ key <$> entries d) pairs ->
  change_symbol_names fuel d pairs
  = Ret (with_entries d (renamed pairs <$> entries d)) /\
  reachable (with_entries d (renamed pairs <$> entries d)).
Proof.
  induction pairs as [|[old new] pairs IH]; intros d Hd Hfuel Hall.
  - unfold renamed. simpl. rewrite list_fmap_id.
    by destruct d.
  - apply Forall_cons in Hall as [Hold Hall]. simpl in Hold.
    destruct (change_symbol_name_present fuel d old new Hd Hfuel Hold)
      as [H1 Hd1].
    set (d1 := with_entries d (rename_entry old new <$> entries d)) in *.
    destruct (IH d1 Hd1) as [H2 Hd2].
    + done.
    + unfold d1. simpl. by rewrite rename_entry_keys.
    + simpl. rewrite H1, Ret_bind.
      assert (E : with_entries d1 (renamed pairs <$> entries d1)
                  = with_entries d (renamed ((old, new) :: pairs) <$> entries d)).
      { unfold with_entries, d1. simpl. f_equal.
        rewrite <- list_fmap_compose. apply list_fmap_ext.
        intros i ent _. simpl. by rewrite renamed_cons. }
      by rewrite <- E.
Qed.

Lemma change_symbol_names_app fuel l1 l2 : forall d,
  change_symbol_names fuel d (l1 ++ l2)
  = change_symbol_names fuel d l1 ≫= fun d' => change_symbol_names fuel d' l2.
Proof.
  induction l1 as [|[old new] l1 IH]; intros d; simpl; [done|].
  destruct (change_symbol_name fuel d old new); simpl; auto.
Qed.

(** X4.  When every old name of a batch of renames is a key, the batch
    succeeds and changes values only: the slot table, the keys and their
    order stay, and each entry ends with the new name of the last pair
    that names its key, or with its old value when no pair does. *)
Theorem renames_last_pair_wins fuel d pairs :
  reachable d -> DICT_SIZE d <= fuel ->
  Forall (fun p => p.1 ∈ key <$> entries d) pairs ->
  exists d',
    change_symbol_names fuel d pairs = Ret d' /\
    indices d' = indices d /\ size_bits d' = size_bits d /\
    key <$> entries d' = key <$> entries d /\
    forall e ent, entries d !! e = Some ent ->
      exists ent', entries d' !! e = Some ent' /\ key ent' = key ent /\
        val ent' = match last_rename pairs (key ent) with
                   | Some v => Some v
                   | None => val ent
                   end.
Proof.
  intros Hd Hfuel Hall.
  destruct (change_symbol_names_present fuel pairs d Hd Hfuel Hall) as [H _].
  eexists. split; [exact H|]. simpl. split_and!; [done|done| |].
  - rewrite <- list_fmap_compose. apply list_fmap_ext. intros i ent _.
    unfold renamed. simpl. by destruct (last_rename pairs (key ent)).
  - intros e ent Hent. exists (renamed pairs ent).
    rewrite list_lookup_fmap, Hent. unfold renamed. simpl.
    destruct (last_rename pairs (key ent)); split_and!; done.
Qed.

Lemma renames_last_pair_wins_witness :
  reachable small_dict /\ DICT_SIZE small_dict <= 32 /\
  Forall (fun p => p.1 ∈ key <$> entries small_dict)
    [(str "foo", str "one"); (str "baz", str "two"); (str "foo", str "three")] /\
  exists d',
    change_symbol_names 32 small_dict
      [(str "foo", str "one"); (str "baz", str "two"); (str "foo", str "three")]
    = Ret d' /\
    key <$> entries d' = key <$> entries small_dict.
Proof.
  pose proof small_dict_reachable as H1.
  assert (H2 : DICT_SIZE small_dict <= 32) by (vm_compute; lia).
  assert (H3 : Forall (fun p => p.1 ∈ key <$> entries small_dict)
                 [(str "foo", str "one"); (str "baz", str "two");
                  (str "foo", str "three")]).
  { apply (bool_decide_unpack _). vm_compute. exact I. }
  split; [exact H1|]. split; [exact H2|]. split; [exact H3|].
  destruct (renames_last_pair_wins 32 small_dict _ H1 H2 H3)
    as (d' & H & _ & _ & Hk & _).
  exists d'. split; [exact H|exact Hk].
Defined.

(** X5.  A batch of renames stops at the first old name that is not a
    key: the run leaves through [error] with that name in the message,
    whatever pairs follow. *)
Theorem first_missing_rename_aborts fuel d pre old new post :
  reachable d -> DICT_SIZE d <= fuel ->
  Forall (fun p => p.1 ∈ key <$> entries d) pre ->
  old ∉ key <$> entries d ->
  change_symbol_names fuel d (pre ++ (old, new) :: post)
  = Abort ("Cannot find symbol '" ++ string_of_list_byte old ++ "'.").
Proof.
  intros Hd Hfuel Hpre Hold.
  destruct (change_symbol_names_present fuel pre d Hd Hfuel Hpre) as [H Hd1].
  rewrite change_symbol_names_app, H, Ret_bind.
  set (d1 := with_entries d (renamed pre <$> entries d)) in *.
  assert (Hk : key <$> entries d1 = key <$> entries d).
  { unfold d1. simpl. rewrite <- list_fmap_compose. apply list_fmap_ext.
    intros i ent _. unfold renamed. simpl.
    by destruct (last_rename pre (key ent)). }
  simpl. unfold change_symbol_name.
  rewrite dict_add_missing; [done|by apply reachable_wf| |done].
  apply absent_key. by rewrite Hk.
Qed.

Lemma first_missing_rename_aborts_witness :
  reachable small_dict /\ DICT_SIZE small_dict <= 32 /\
  Forall (fun p => p.1 ∈ key <$> entries small_dict) [(str "foo", str "one")] /\
  (str "nosuch" ∉ key <$> entries small_dict) /\
  change_symbol_names 32 small_dict
    ([(str "foo", str "one")] ++ (str "nosuch", str "x") :: [(str "bar", str "y")])
  = Abort ("Cannot find symbol '" ++ string_of_list_byte (str "nosuch") ++ "'.").
Proof.
  pose proof small_dict_reachable as H1.
  assert (H2 : DICT_SIZE small_dict <= 32) by (vm_compute; lia).
  assert (H3 : Forall (fun p => p.1 ∈ key <$> entries small_dict)
                 [(str "foo", str "one")]).
  { apply (bool_decide_unpack _). vm_compute. exact I. }
  assert (H4 : str "nosuch" ∉ (key <$> entries small_dict))
    by absent_by_computation.
  split; [exact H1|]. split; [exact H2|]. split; [exact H3|].
  split; [exact H4|].
  exact (first_missing_rename_aborts 32 small_dict _ (str "nosuch") (str "x")
           [(str "bar", str "y")] H1 H2 H3 H4).
Defined.

(** ** Decoding names *)

Lemma c_string_app_nul (s t : list byte) :
  x00 ∉ s -> c_string (s ++ x00 :: t) = Ret s.
Proof.
  induction s as [|b s IH]; intros Hs; simpl.
  - done.
  - rewrite decide_False by (intros ->; apply Hs, list_elem_of_here).
    rewrite IH; [done|]. intros H. by apply Hs, list_elem_of_further.
Qed.

Lemma c_string_app (s t : list byte) :
  x00 ∉ s -> c_string (s ++ t) = r ← c_string t; Ret (s ++ r).
Proof.
  induction s as [|b s IH]; intros Hs; simpl.
  - by destruct (c_string t).
  - rewrite decide_False by (intros ->; apply Hs, list_elem_of_here).
    rewrite IH by (intros H; by apply Hs, list_elem_of_further).
    by destruct (c_string t).
Qed.

Lemma byte_val_range b : (0 <= byte_val b < 256)%Z.
Proof.
  unfold byte_val. pose proof (Byte.to_N_bounded b). lia.
Qed.

Lemma byte_val_zero b : byte_val b = 0%Z -> b = x00.
Proof.
  unfold byte_val. intros H.
  assert (E : Byte.to_N b = Byte.to_N x00) by (simpl; lia).
  apply (f_equal Byte.of_N) in E. rewrite !Byte.of_to_N in E. congruence.
Qed.

Lemma dword_of_bytes_nonneg bs : (0 <= dword_of_bytes bs)%Z.
Proof.
  induction bs as [|b bs IH]; simpl; [lia|].
  pose proof (byte_val_range b). lia.
Qed.

Lemma dword_of_bytes_head b bs : b <> x00 -> dword_of_bytes (b :: bs) <> 0%Z.
Proof.
  intros Hb. simpl. pose proof (byte_val_range b).
  pose proof (dword_of_bytes_nonneg bs).
  assert (byte_val b <> 0%Z) by (intros E; by apply Hb, byte_val_zero).
  lia.
Qed.

Lemma load_bytes_drop (img : image) off n bs :
  load_bytes img off n = Ret bs ->
  length bs = n /\ drop off img = bs ++ drop (off + n) img.
Proof.
  unfold load_bytes. intros H. case_decide; simplify_eq. split.
  - rewrite length_take, length_drop. lia.
  - rewrite <- drop_drop. by rewrite take_drop.
Qed.

Lemma load_bytes_prefix (img : image) off n m bs :
  load_bytes img off n = Ret bs -> m <= n ->
  load_bytes img off m = Ret (take m bs).
Proof.
  unfold load_bytes. intros H Hm. case_decide; simplify_eq.
  rewrite decide_True by lia. f_equal. rewrite take_take. f_equal. lia.
Qed.

(** X7.  A record whose first four name bytes are not all zero is read as
    an inline name, and the reading is that of a C string at the record's
    start: it ends at the first NUL of the 8-byte field when there is one,
    and otherwise runs on into the bytes after the field, so that the
    decoded name is the field itself only if the byte after it is NUL and
    is longer than 8 bytes if not. *)
Theorem inline_name_decoding img nsym i short field :
  load_dword img (sym_offset i + OFFSET_Short) = Ret short -> short <> 0%Z ->
  load_bytes img (sym_offset i) 8 = Ret field ->
  symbol_name img nsym i = string_at img (sym_offset i) /\
  (forall s t, field = s ++ x00 :: t -> x00 ∉ s ->
     symbol_name img nsym i = Ret s) /\
  (x00 ∉ field ->
     symbol_name img nsym i
     = (t ← string_at img (sym_offset i + 8); Ret (field ++ t)) /\
     (img !! (sym_offset i + 8) = Some x00 ->
        symbol_name img nsym i = Ret field) /\
     (forall b, img !! (sym_offset i + 8) = Some b -> b <> x00 ->
        forall s, symbol_name img nsym i = Ret s -> 8 < strlen s)).
Proof.
  intros Hshort Hne Hfield.
  assert (Hname : symbol_name img nsym i = string_at img (sym_offset i)).
  { unfold symbol_name. rewrite Hshort, Ret_bind. by rewrite decide_True. }
  destruct (load_bytes_drop _ _ _ _ Hfield) as [Hlen Hdrop].
  split; [done|]. rewrite Hname. unfold string_at. rewrite Hdrop. split.
  - intros s t -> Hs. rewrite <- app_assoc. simpl. by apply c_string_app_nul.
  - intros Hno. rewrite (c_string_app field) by done. split_and!.
    + done.
    + intros H8. rewrite (drop_S _ x00) by done. simpl.
      by rewrite app_nil_r.
    + intros b H8 Hb s Hs. rewrite (drop_S _ b) in Hs by done.
      simpl in Hs. rewrite decide_False in Hs by done.
      apply bind_Ret in Hs as (r & Hr & Hs).
      apply bind_Ret in Hr as (r' & _ & Hr). simplify_eq.
      unfold strlen. rewrite length_app. simpl. lia.
Qed.

Lemma inline_name_decoding_witness :
  load_dword eight_image (sym_offset 0 + OFFSET_Short) = Ret 1684234849%Z /\
  1684234849%Z <> 0%Z /\
  load_bytes eight_image (sym_offset 0) 8 = Ret (str "abcdefgh") /\
  forall s, symbol_name eight_image 1 0 = Ret s -> 8 < strlen s.
Proof.
  assert (H1 : load_dword eight_image (sym_offset 0 + OFFSET_Short)
               = Ret 1684234849%Z) by (vm_compute; reflexivity).
  assert (H2 : 1684234849%Z <> 0%Z) by lia.
  assert (H3 : load_bytes eight_image (sym_offset 0) 8 = Ret (str "abcdefgh"))
    by (vm_compute; reflexivity).
  split; [exact H1|]. split; [exact H2|]. split; [exact H3|].
  destruct (inline_name_decoding eight_image 1 0 _ _ H1 H2 H3)
    as (_ & _ & Hlong).
  destruct Hlong as (_ & _ & H).
  - apply (bool_decide_unpack _). vm_compute. exact I.
  - apply (H x01); [vm_compute; reflexivity|discriminate].
Defined.

(** ** Reading the output back *)

Lemma symbol_name_inline img nsym i short :
  load_dword img (sym_offset i + OFFSET_Short) = Ret short -> short <> 0%Z ->
  symbol_name img nsym i = string_at img (sym_offset i).
Proof.
  intros H Hne. unfold symbol_name. rewrite H, Ret_bind. by rewrite decide_True.
Qed.

Lemma symbol_name_long img nsym i long :
  load_dword img (sym_offset i + OFFSET_Short) = Ret 0%Z ->
  load_dword img (sym_offset i + OFFSET_Long) = Ret long ->
  symbol_name img nsym i = string_at img (sym_offset nsym + Z.to_nat long).
Proof.
  intros H0 H1. unfold symbol_name. rewrite H0, Ret_bind.
  rewrite decide_False by (intros H; by apply H). by rewrite H1.
Qed.

Lemma load_dword_field img off field :
  load_bytes img off 8 = Ret field ->
  load_dword img (off + OFFSET_Short) = Ret (dword_of_bytes (take 4 field)) /\
  load_dword img (off + OFFSET_Long)
  = Ret (dword_of_bytes (take 4 (drop 4 field))).
Proof.
  intros H. unfold load_dword, OFFSET_Short, OFFSET_Long. rewrite Nat.add_0_r.
  rewrite (load_bytes_prefix _ _ _ 4 _ H) by lia. split; [done|].
  unfold load_bytes in *. case_decide; simplify_eq.
  rewrite decide_True by lia. simpl. do 2 f_equal.
  rewrite <- drop_drop, !take_drop_commute, take_take.
  do 3 f_equal. lia.
Qed.

Lemma output_lookup (img' : image) tab m j :
  j < m -> m <= length img' -> (take m img' ++ tab) !! j = img' !! j.
Proof.
  intros Hj Hm. rewrite lookup_app_l by (rewrite length_take; lia).
  by apply lookup_take_lt.
Qed.

Lemma output_load (img' : image) tab m off n :
  off + n <= m -> m <= length img' ->
  load_bytes (take m img' ++ tab) off n = load_bytes img' off n.
Proof.
  intros Hoff Hm. unfold load_bytes.
  rewrite !decide_True by (rewrite ?length_app, ?length_take; lia).
  f_equal. apply list_eq. intros j. rewrite !lookup_take, !lookup_drop.
  case_decide; [|done]. apply output_lookup; lia.
Qed.

(** What the finished string table holds where the buffer held a string. *)
Lemma table_holds_string (mem : list (option byte)) (hdr body data : list byte)
    c off :
  take c mem = replicate 4 None ++ (Some <$> body) ->
  length hdr = 4 -> off + length data <= c -> data <> [] ->
  take (length data) (drop off mem) = (Some <$> data) ->
  4 <= off /\ take (length data) (drop off (hdr ++ body)) = data.
Proof.
  intros Hmem Hhdr Hoff Hdata H.
  assert (H' : take (length data) (drop off (take c mem)) = (Some <$> data)).
  { rewrite <- H. apply (take_drop_agree _ _ c); [|done].
    rewrite take_take. f_equal. lia. }
  rewrite Hmem in H'.
  assert (Hge : 4 <= off).
  { destruct (decide (4 <= off)) as [|Hlt]; [done|exfalso].
    destruct data as [|x data]; [done|].
    apply (f_equal (fun l => l !! 0)) in H'.
    rewrite lookup_take_lt, lookup_drop, Nat.add_0_r in H' by (simpl; lia).
    rewrite lookup_app_l in H' by (simpl; lia).
    rewrite lookup_replicate_2 in H' by lia. done. }
  split; [done|].
  rewrite drop_app_ge in H' by (rewrite length_replicate; lia).
  rewrite length_replicate in H'.
  rewrite drop_app_ge, Hhdr by lia.
  rewrite <- fmap_drop, <- fmap_take in H'.
  by apply (inj (fmap Some)) in H'.
Qed.

Lemma reread_record (img' : image) b tab nsym p s :
  nsym * IMAGE_SIZEOF_SYMBOL <= length img' -> p < nsym ->
  encodes img' b p s ->
  x00 ∉ s -> s <> [] ->
  (strlen s = 8 -> img' !! (sym_offset p + 8) = Some x00) ->
  (forall off, off + strlen s + 1 <= cnt b ->
     take (strlen s + 1) (drop off (buf b)) = (Some <$> s ++ [x00]) ->
     (Z.of_nat off < 2 ^ 32)%Z /\
     take (strlen s + 1) (drop off tab) = s ++ [x00]) ->
  symbol_name (take (nsym * IMAGE_SIZEOF_SYMBOL) img' ++ tab) nsym p = Ret s.
Proof.
  intros Hlen Hp Henc Hno Hne H8 Htab.
  set (out := take (nsym * IMAGE_SIZEOF_SYMBOL) img' ++ tab).
  assert (Hrec : sym_offset p + 18 <= nsym * IMAGE_SIZEOF_SYMBOL)
    by (unfold sym_offset, IMAGE_SIZEOF_SYMBOL; lia).
  unfold encodes in Henc.
  destruct (decide (strlen s <= 8)) as [Hs|Hs].
  - assert (Hf : load_bytes out (sym_offset p) 8
                 = Ret (s ++ replicate (8 - strlen s) x00)).
    { unfold out. rewrite output_load by lia. done. }
    destruct (load_dword_field _ _ _ Hf) as [Hshort _].
    destruct s as [|c s]; [done|].
    rewrite (symbol_name_inline _ _ _ _ Hshort).
    + unfold string_at.
      destruct (load_bytes_drop _ _ _ _ Hf) as [_ ->].
      destruct (decide (strlen (c :: s) = 8)) as [E|E].
      * rewrite E, Nat.sub_diag. simpl replicate. rewrite app_nil_r.
        assert (H8' : out !! (sym_offset p + 8) = Some x00).
        { unfold out. rewrite output_lookup by lia. auto. }
        rewrite (drop_S _ x00) by done. by apply c_string_app_nul.
      * destruct (8 - strlen (c :: s)) as [|k] eqn:Ek; [lia|].
        simpl replicate. rewrite <- app_assoc. by apply c_string_app_nul.
    + simpl. apply dword_of_bytes_head.
      intros ->. apply Hno, list_elem_of_here.
  - destruct Henc as (off & Hfield & Hoff & Hstr).
    destruct (Htab off Hoff Hstr) as [Hsmall Hin].
    assert (Hf : load_bytes out (sym_offset p) 8
                 = Ret (dword_bytes 0 ++ dword_bytes (to_DWORD off))).
    { unfold out. rewrite output_load by lia. done. }
    destruct (load_dword_field _ _ _ Hf) as [Hshort Hlong].
    change (take 4 (dword_bytes 0 ++ dword_bytes (to_DWORD off)))
      with (dword_bytes 0) in Hshort.
    change (take 4 (drop 4 (dword_bytes 0 ++ dword_bytes (to_DWORD off))))
      with (dword_bytes (to_DWORD off)) in Hlong.
    rewrite dword_of_dword_bytes in Hshort, Hlong.
    rewrite to_DWORD_idem, to_DWORD_small in Hlong by done.
    rewrite (symbol_name_long _ _ _ _ Hshort Hlong), Nat2Z.id.
    unfold string_at, out.
    rewrite drop_app_ge
      by (rewrite length_take; unfold sym_offset, IMAGE_SIZEOF_SYMBOL in *; lia).
    rewrite length_take.
    assert (E : sym_offset nsym + off
                - (nsym * IMAGE_SIZEOF_SYMBOL) `min` length img' = off).
    { unfold sym_offset. lia. }
    rewrite E.
    rewrite <- (take_drop (strlen s + 1) (drop off tab)), Hin.
    rewrite <- app_assoc. by apply c_string_app_nul.
Qed.

Lemma scan_positions img nsym : forall n i ps,
  scan n img nsym i = Ret ps ->
  forall k p s, ps !! k = Some (p, s) -> p < nsym.
Proof.
  induction n as [|n IH]; intros i ps H k p s Hk;
    rewrite scan_unfold in H; case_decide; simplify_eq.
  apply bind_Ret in H as (s0 & Hs & H).
  apply bind_Ret in H as (aux & Haux & H).
  apply bind_Ret in H as (rest & Hrest & H). simplify_eq.
  destruct k as [|k]; simplify_eq/=; [lia|]. by eapply IH.
Qed.

Lemma scan_reread img out nsym : forall n i ps news,
  scan n img nsym i = Ret ps -> length news = length ps ->
  (forall p, p < nsym ->
     NumberOfAuxSymbols out p = NumberOfAuxSymbols img p) ->
  (forall k p s s', ps !! k = Some (p, s) -> news !! k = Some s' ->
     symbol_name out nsym p = Ret s') ->
  scan n out nsym i = Ret (zip (fst <$> ps) news).
Proof.
  induction n as [|n IH]; intros i ps news H Hlen Haux Hname;
    rewrite scan_unfold in H; rewrite scan_unfold; case_decide; simplify_eq;
    try done.
  apply bind_Ret in H as (s0 & Hs & H).
  apply bind_Ret in H as (aux & Ha & H).
  apply bind_Ret in H as (rest & Hrest & H). simplify_eq.
  destruct news as [|s' news]; [done|]. simpl in Hlen.
  rewrite (Hname 0 i s0 s') by done. rewrite Ret_bind.
  rewrite Haux, Ha by lia. rewrite Ret_bind.
  rewrite (IH _ rest news); [done|done|lia|done|].
  intros k p s s1 Hp Hs1. by apply (Hname (S k) p s s1).
Qed.

Lemma write_tables_Ret fuel img nsym d symtab strtab :
  write_tables fuel img nsym d = Ret (symtab, strtab) ->
  exists img' b,
    emit_loop fuel (entries d) img 0 strtab_buf = Ret (img', b) /\
    nsym * IMAGE_SIZEOF_SYMBOL <= length img' /\
    symtab = take (nsym * IMAGE_SIZEOF_SYMBOL) img' /\
    buf_ok b /\
    cnt b = 4 + length (strtab_body (effective_name <$> entries d)) /\
    take (cnt b) (buf b)
    = replicate 4 None ++ (Some <$> strtab_body (effective_name <$> entries d)) /\
    strtab = (Some <$> dword_bytes (to_DWORD (cnt b)) ++
                       strtab_body (effective_name <$> entries d)).
Proof.
  intros H. unfold write_tables in H.
  apply bind_Ret in H as ([img' b] & Hemit & H). cbv beta iota in H.
  apply bind_Ret in H as (mem & Hmem & H).
  apply bind_Ret in H as (symtab' & Hsym & H). simplify_eq.
  destruct (emit_loop_Ret _ _ _ _ _ _ _ strtab_buf_ok Hemit) as (Hok & Hc & Ht).
  change (cnt strtab_buf) with 4 in *.
  change (take 4 (buf strtab_buf)) with (replicate 4 (@None byte)) in Ht.
  exists img', b. unfold load_bytes in Hsym. case_decide; simplify_eq.
  split_and!; [done|simpl in *; lia|done|done|done|done|].
  destruct (store_Ret _ _ _ _ Hmem) as [_ ->].
  rewrite fmap_app, take_0, app_nil_l, Nat.add_0_l, length_fmap.
  rewrite take_app_ge by (rewrite length_fmap; simpl; lia).
  rewrite length_fmap. change (length (dword_bytes _)) with 4.
  rewrite take_drop_commute.
  replace (4 + (cnt b - 4)) with (cnt b) by lia.
  rewrite Ht, drop_app_length'; [done|]. by rewrite length_replicate.
Qed.

Lemma write_tables_reread fuel img nsym ps d symtab strtab :
  primary_symbols img nsym = Ret ps ->
  Forall2 (fun q ent => readable img q.1 (effective_name ent)) ps (entries d) ->
  write_tables fuel img nsym d = Ret (symtab, strtab) ->
  (Z.of_nat (length strtab) < 2 ^ 32)%Z ->
  exists tab,
    strtab = (Some <$> tab) /\
    length symtab = nsym * IMAGE_SIZEOF_SYMBOL /\
    primary_symbols (symtab ++ tab) nsym
    = Ret (zip (fst <$> ps) (effective_name <$> entries d)).
Proof.
  intros Hscan Hread Hwrite Hsmall. unfold primary_symbols in *.
  pose proof (Forall2_length _ _ _ Hread) as Hlen.
  destruct (write_tables_Ret _ _ _ _ _ _ Hwrite)
    as (img' & b & Hemit & Hbound & -> & Hok & Hc & Htake & ->).
  rewrite length_fmap, length_app in Hsmall.
  change (length (dword_bytes _)) with 4 in Hsmall.
  set (body := strtab_body (effective_name <$> entries d)) in *.
  set (hdr := dword_bytes (to_DWORD (cnt b))) in *.
  destruct (emit_loop_scan (fuel + (cnt strtab_buf + length body + 9))
              img nsym nsym 0 ps Hscan (entries d) img strtab_buf)
    as (img1 & b1 & Hemit1 & [Hl Haux] & _ & Hout & _ & _ & Henc);
    [done|done|apply strtab_buf_ok|unfold body; lia|].
  apply emit_loop_mono
    with (fuel' := fuel + (cnt strtab_buf + length body + 9)) in Hemit;
    [|lia].
  rewrite Hemit in Hemit1. symmetry in Hemit1. simplify_eq.
  exists (hdr ++ body). split; [done|]. split.
  { rewrite length_take. lia. }
  apply (scan_reread img); [done|by rewrite length_fmap| |].
  - intros p Hp. unfold NumberOfAuxSymbols, load_byte.
    rewrite output_lookup, Haux;
      [done|unfold sym_offset, OFFSET_NumberOfAuxSymbols, IMAGE_SIZEOF_SYMBOL;
            lia|done].
  - intros k p s s' Hk Hs'. rewrite list_lookup_fmap in Hs'.
    destruct (entries d !! k) as [ent|] eqn:Hent; simplify_eq/=.
    pose proof (scan_positions _ _ _ _ _ Hscan _ _ _ Hk) as Hp.
    pose proof (Forall2_lookup_lr _ _ _ _ _ _ Hread Hk Hent)
      as (Hno & Hne & H8).
    apply (reread_record img' b); auto.
    + by eapply Henc.
    + intros E. rewrite Hout; [auto|].
      intros q _. unfold sym_offset, IMAGE_SIZEOF_SYMBOL. lia.
    + intros off Hoff Hstr.
      assert (Hl1 : length (effective_name ent ++ [x00])
                    = strlen (effective_name ent) + 1)
        by (rewrite length_app; done).
      destruct (table_holds_string (buf b) hdr body
                  (effective_name ent ++ [x00]) (cnt b) off) as [Hge Hin].
      * done.
      * done.
      * lia.
      * by destruct (effective_name ent).
      * by rewrite Hl1.
      * rewrite Hl1 in Hin. split; [|done]. lia.
Qed.

(** X8.  Let the records of the image decode to the primary symbols [ps],
    and let [main] write its tables for a dictionary whose entries are
    paired with them, every effective name being free of NULs, not empty
    and, when exactly 8 bytes long, followed in its record by a zero byte.
    Then the string table is fully written, the symbol array has its
    [nsym] records, and decoding the output gives the same records with
    the effective names: what was renamed reads back under its new name
    and everything else under its old one. *)
Theorem output_reads_back fuel img nsym ps d symtab strtab :
  primary_symbols img nsym = Ret ps ->
  Forall2 (fun q ent => readable img q.1 (effective_name ent)) ps (entries d) ->
  write_tables fuel img nsym d = Ret (symtab, strtab) ->
  (Z.of_nat (length strtab) < 2 ^ 32)%Z ->
  exists tab,
    strtab = (Some <$> tab) /\
    length symtab = nsym * IMAGE_SIZEOF_SYMBOL /\
    primary_symbols (symtab ++ tab) nsym
    = Ret (zip (fst <$> ps) (effective_name <$> entries d)).
Proof.
  apply write_tables_reread.
Qed.

Lemma output_reads_back_witness :
  primary_symbols demo_image 4 = Ret demo_symbols /\
  Forall2 (fun q ent => readable demo_image q.1 (effective_name ent))
    demo_symbols (entries demo_dict) /\
  write_tables 64 demo_image 4 demo_dict = Ret (demo_tables.1, demo_tables.2) /\
  (Z.of_nat (length demo_tables.2) < 2 ^ 32)%Z /\
  exists tab,
    demo_tables.2 = (Some <$> tab) /\
    length demo_tables.1 = 4 * IMAGE_SIZEOF_SYMBOL /\
    primary_symbols (demo_tables.1 ++ tab) 4
    = Ret (zip (fst <$> demo_symbols) (effective_name <$> entries demo_dict)).
Proof.
  assert (H1 : primary_symbols demo_image 4 = Ret demo_symbols)
    by (vm_compute; reflexivity).
  assert (H2 : Forall2 (fun q ent =>
                          readable demo_image q.1 (effective_name ent))
                 demo_symbols (entries demo_dict)).
  { apply (bool_decide_unpack _). vm_compute. exact I. }
  assert (H3 : write_tables 64 demo_image 4 demo_dict
               = Ret (demo_tables.1, demo_tables.2))
    by (vm_compute; reflexivity).
  assert (H4 : (Z.of_nat (length demo_tables.2) < 2 ^ 32)%Z)
    by (vm_compute; reflexivity).
  split; [exact H1|]. split; [exact H2|]. split; [exact H3|].
  split; [exact H4|].
  exact (output_reads_back 64 demo_image 4 demo_symbols demo_dict
           demo_tables.1 demo_tables.2 H1 H2 H3 H4).
Defined.

(** ** Every run ends *)

Lemma load_bytes_ends img off n : load_bytes img off n <> Timeout.
Proof. unfold load_bytes. by case_decide. Qed.

Lemma load_dword_ends img off : load_dword img off <> Timeout.
Proof.
  unfold load_dword. pose proof (load_bytes_ends img off 4).
  by destruct (load_bytes img off 4).
Qed.

Lemma c_string_ends bs : c_string bs <> Timeout.
Proof.
  induction bs as [|b bs IH]; simpl; [done|].
  case_decide; [done|]. by destruct (c_string bs).
Qed.

Lemma symbol_name_ends img nsym i : symbol_name img nsym i <> Timeout.
Proof.
  unfold symbol_name. pose proof (load_dword_ends img (sym_offset i + OFFSET_Short)).
  destruct (load_dword img (sym_offset i + OFFSET_Short)); try done. simpl.
  case_decide; [apply c_string_ends|].
  pose proof (load_dword_ends img (sym_offset i + OFFSET_Long)).
  destruct (load_dword img (sym_offset i + OFFSET_Long)); try done.
  apply c_string_ends.
Qed.

Lemma NumberOfAuxSymbols_ends img i : NumberOfAuxSymbols img i <> Timeout.
Proof.
  unfold NumberOfAuxSymbols, load_byte. by destruct (img !! _).
Qed.

Lemma store_ends {A : Type} (mem : list A) off data :
  store mem off data <> Timeout.
Proof. unfold store. by case_decide. Qed.

Lemma symbol_loop_ends img nsym : forall n i d,
  reachable d -> nsym <= i + n ->
  exists fuel0 r,
    r <> Timeout /\ (forall d', r = Ret d' -> reachable d') /\
    forall fuel m, fuel0 <= fuel -> n <= m ->
      symbol_loop m fuel img nsym i d = r.
Proof.
  induction n as [|n IH]; intros i d Hd Hn.
  - exists 0, (Ret d). split_and!; [done|by intros ? [= <-]|].
    intros fuel m _ _. rewrite symbol_loop_unfold. by rewrite decide_True by lia.
  - destruct (decide (nsym <= i)) as [Hi|Hi].
    { exists 0, (Ret d). split_and!; [done|by intros ? [= <-]|].
      intros fuel m _ _. rewrite symbol_loop_unfold. by rewrite decide_True. }
    pose proof (reachable_wf d Hd) as Hwf.
    pose proof (symbol_name_ends img nsym i) as Hs.
    destruct (symbol_name img nsym i) as [s|msg| |] eqn:Es; [| | |done].
    + destruct (key_dec_entries d s) as [(e & ent & Hent & <-)|Habs].
      * exists (DICT_SIZE d), (Abort "Memory allocation failed.").
        split_and!; [done|done|]. intros fuel [|m] Hfuel Hm; [lia|].
        rewrite symbol_loop_unfold, decide_False by done.
        rewrite Es, Ret_bind.
        by rewrite (dict_add_again fuel d e ent Hwf Hent Hfuel).
      * destruct (dict_add_insert (2 * DICT_SIZE d) d s Hwf Habs)
          as (d1 & Hadd & _); [done|].
        assert (Hd1 : reachable d1) by (by eapply reachable_add).
        pose proof (NumberOfAuxSymbols_ends img i) as Ha.
        destruct (NumberOfAuxSymbols img i) as [aux|msg| |] eqn:Ea; [| | |done].
        -- destruct (IH (i + aux + 1) d1 Hd1) as (fuel1 & r & Hr & Hreach & Hloop);
             [lia|].
           exists (Nat.max (2 * DICT_SIZE d) fuel1), r.
           split_and!; [done|done|]. intros fuel [|m] Hfuel Hm; [lia|].
           rewrite symbol_loop_unfold, decide_False by done.
           rewrite Es, Ret_bind.
           rewrite (dict_add_mono _ fuel _ _ _ _ Hadd) by lia.
           rewrite Ret_bind. cbv beta iota. rewrite Ea, Ret_bind.
           apply Hloop; lia.
        -- exists (2 * DICT_SIZE d), (Abort msg).
           split_and!; [done|done|]. intros fuel [|m] Hfuel Hm; [lia|].
           rewrite symbol_loop_unfold, decide_False by done.
           rewrite Es, Ret_bind.
           rewrite (dict_add_mono _ fuel _ _ _ _ Hadd) by lia.
           rewrite Ret_bind. cbv beta iota. by rewrite Ea.
        -- exists (2 * DICT_SIZE d), Undef.
           split_and!; [done|done|]. intros fuel [|m] Hfuel Hm; [lia|].
           rewrite symbol_loop_unfold, decide_False by done.
           rewrite Es, Ret_bind.
           rewrite (dict_add_mono _ fuel _ _ _ _ Hadd) by lia.
           rewrite Ret_bind. cbv beta iota. by rewrite Ea.
    + exists 0, (Abort msg). split_and!; [done|done|].
      intros fuel [|m] _ Hm; [lia|].
      rewrite symbol_loop_unfold, decide_False by done. by rewrite Es.
    + exists 0, Undef. split_and!; [done|done|].
      intros fuel [|m] _ Hm; [lia|].
      rewrite symbol_loop_unfold, decide_False by done. by rewrite Es.
Qed.

Lemma change_symbol_names_ends pairs : forall d,
  reachable d ->
  exists fuel0 r,
    r <> Timeout /\ (forall d', r = Ret d' -> reachable d') /\
    forall fuel, fuel0 <= fuel -> change_symbol_names fuel d pairs = r.
Proof.
  induction pairs as [|[old new] pairs IH]; intros d Hd.
  - exists 0, (Ret d). split_and!; [done|by intros ? [= <-]|done].
  - pose proof (reachable_wf d Hd) as Hwf.
    destruct (key_dec_entries d old) as [(e & ent & Hent & <-)|Habs].
    + assert (Hd1 : reachable (update_entry d e (Some new))).
      { eapply reachable_add; [exact Hd|].
        by apply (dict_add_update (DICT_SIZE d) d e ent new). }
      destruct (IH _ Hd1) as (fuel1 & r & Hr & Hreach & Hrest).
      exists (Nat.max (DICT_SIZE d) fuel1), r. split_and!; [done|done|].
      intros fuel Hfuel. simpl. unfold change_symbol_name.
      rewrite (dict_add_update fuel d e ent new) by (done || lia).
      rewrite Ret_bind. cbv beta iota. rewrite Ret_bind. apply Hrest. lia.
    + exists (DICT_SIZE d),
        (Abort ("Cannot find symbol '" ++ string_of_list_byte old ++ "'.")).
      split_and!; [done|done|]. intros fuel Hfuel. simpl.
      unfold change_symbol_name.
      by rewrite dict_add_missing by done.
Qed.

Lemma emit_name_ends img sym b entry :
  buf_ok b ->
  exists fuel0 r,
    r <> Timeout /\
    forall fuel, fuel0 <= fuel -> emit_name fuel img sym b entry = r.
Proof.
  intros Hok. unfold emit_name. cbv zeta.
  destruct (decide (strlen (effective_name entry) <= 8)) as [Hs|Hs].
  - pose proof (store_ends img (sym_offset sym) (strncpy (effective_name entry) 8)).
    destruct (store img (sym_offset sym) (strncpy (effective_name entry) 8))
      eqn:E; [| | |done].
    + exists 0. eexists. split; [|intros; reflexivity]. done.
    + exists 0. eexists. split; [|intros; reflexivity]. done.
    + exists 0. eexists. split; [|intros; reflexivity]. done.
  - set (s := effective_name entry) in *.
    destruct (buf_cat_total (cnt b + strlen s + 1) b s Hok) as [b' Hcat]; [lia|].
    exists (cnt b + strlen s + 1).
    exists ('(b', offset) ← Ret (b', cnt b);
            img1 ← store img (sym_offset sym + OFFSET_Short) (dword_bytes 0);
            img2 ← store img1 (sym_offset sym + OFFSET_Long)
                     (dword_bytes (to_DWORD offset));
            Ret (img2, b')).
    split.
    + rewrite Ret_bind. cbv beta iota.
      pose proof (store_ends img (sym_offset sym + OFFSET_Short) (dword_bytes 0)).
      destruct (store img (sym_offset sym + OFFSET_Short) (dword_bytes 0))
        as [img1| | |]; [|done|done|done]. rewrite Ret_bind.
      pose proof (store_ends img1 (sym_offset sym + OFFSET_Long)
                    (dword_bytes (to_DWORD (cnt b)))).
      by destruct (store img1 (sym_offset sym + OFFSET_Long)
                     (dword_bytes (to_DWORD (cnt b)))).
    + intros fuel Hfuel. by rewrite (buf_cat_mono _ fuel _ _ _ Hcat).
Qed.

Lemma emit_loop_ends todo : forall img sym b,
  buf_ok b ->
  exists fuel0 r,
    r <> Timeout /\
    forall fuel, fuel0 <= fuel -> emit_loop fuel todo img sym b = r.
Proof.
  induction todo as [|entry todo IH]; intros img sym b Hok.
  - exists 0, (Ret (img, b)). done.
  - destruct (emit_name_ends img sym b entry Hok) as (fuel1 & r1 & Hr1 & H1).
    destruct r1 as [[img' b']|msg| |]; [| | |done].
    + assert (Hok' : buf_ok b').
      { eapply emit_name_Ret; [exact Hok|]. by apply (H1 fuel1). }
      pose proof (NumberOfAuxSymbols_ends img' sym) as Ha.
      destruct (NumberOfAuxSymbols img' sym) as [aux|msg'| |] eqn:Ea; [| | |done].
      * destruct (IH img' (sym + aux + 1) b' Hok') as (fuel2 & r & Hr & H2).
        exists (Nat.max fuel1 fuel2), r. split; [done|].
        intros fuel Hfuel. simpl. rewrite H1 by lia.
        rewrite Ret_bind. cbv beta iota. rewrite Ea, Ret_bind. apply H2. lia.
      * exists fuel1, (Abort msg'). split; [done|].
        intros fuel Hfuel. simpl. rewrite H1 by lia.
        rewrite Ret_bind. cbv beta iota. by rewrite Ea.
      * exists fuel1, Undef. split; [done|].
        intros fuel Hfuel. simpl. rewrite H1 by lia.
        rewrite Ret_bind. cbv beta iota. by rewrite Ea.
    + exists fuel1, (Abort msg). split; [done|].
      intros fuel Hfuel. simpl. by rewrite H1 by lia.
    + exists fuel1, Undef. split; [done|].
      intros fuel Hfuel. simpl. by rewrite H1 by lia.
Qed.

Lemma write_tables_ends img nsym d :
  exists fuel0 r,
    r <> Timeout /\
    forall fuel, fuel0 <= fuel -> write_tables fuel img nsym d = r.
Proof.
  destruct (emit_loop_ends (entries d) img 0 strtab_buf strtab_buf_ok)
    as (fuel0 & r0 & Hr0 & H0).
  exists fuel0.
  exists ('(img', b) ← r0;
          mem ← store (buf b) 0 (Some <$> dword_bytes (to_DWORD (cnt b)));
          symtab ← load_bytes img' 0 (nsym * IMAGE_SIZEOF_SYMBOL);
          Ret (symtab, take (cnt b) mem)).
  split.
  - destruct r0 as [[img' b]| | |]; [|done|done|done].
    rewrite Ret_bind. cbv beta iota.
    pose proof (store_ends (buf b) 0 (Some <$> dword_bytes (to_DWORD (cnt b)))).
    destruct (store (buf b) 0 (Some <$> dword_bytes (to_DWORD (cnt b))));
      [|done|done|done]. rewrite Ret_bind.
    pose proof (load_bytes_ends img' 0 (nsym * IMAGE_SIZEOF_SYMBOL)).
    by destruct (load_bytes img' 0 (nsym * IMAGE_SIZEOF_SYMBOL)).
  - intros fuel Hfuel. unfold write_tables. by rewrite H0.
Qed.

(** X10.  The run of [main] on a loaded image always ends: there is a
    number of loop steps from which on the outcome is the same, and it is
    a result, an exit through [error] or a step outside defined behaviour,
    never an exhausted loop.  No probe sequence, table growth, buffer
    growth or walk over the records goes on for ever, whatever the image
    and the renames are. *)
Theorem run_ends img nsym pairs :
  exists fuel0 r,
    r <> Timeout /\
    forall fuel, fuel0 <= fuel -> smc fuel img nsym pairs = r.
Proof.
  destruct (symbol_loop_ends img nsym nsym 0 new_dict reachable_new)
    as (fuel1 & r1 & Hr1 & Hreach1 & H1); [lia|].
  destruct r1 as [d1|msg| |]; [| | |done].
  - destruct (change_symbol_names_ends pairs d1 (Hreach1 _ eq_refl))
      as (fuel2 & r2 & Hr2 & _ & H2).
    destruct r2 as [d2|msg| |]; [| | |done].
    + destruct (write_tables_ends img nsym d2) as (fuel3 & r & Hr & H3).
      exists (Nat.max nsym (Nat.max fuel1 (Nat.max fuel2 fuel3))), r.
      split; [done|]. intros fuel Hfuel. unfold smc, get_symbol_names.
      rewrite H1 by lia. rewrite Ret_bind, H2 by lia. rewrite Ret_bind.
      apply H3. lia.
    + exists (Nat.max nsym (Nat.max fuel1 fuel2)), (Abort msg).
      split; [done|]. intros fuel Hfuel. unfold smc, get_symbol_names.
      rewrite H1 by lia. rewrite Ret_bind, H2 by lia. done.
    + exists (Nat.max nsym (Nat.max fuel1 fuel2)), Undef.
      split; [done|]. intros fuel Hfuel. unfold smc, get_symbol_names.
      rewrite H1 by lia. rewrite Ret_bind, H2 by lia. done.
  - exists (Nat.max nsym fuel1), (Abort msg).
    split; [done|]. intros fuel Hfuel. unfold smc, get_symbol_names.
    by rewrite H1 by lia.
  - exists (Nat.max nsym fuel1), Undef.
    split; [done|]. intros fuel Hfuel. unfold smc, get_symbol_names.
    by rewrite H1 by lia.
Qed.

(** ** The whole run, read back *)

Lemma symbol_loop_entries fuel img nsym : forall n m i d d' ps,
  reachable d -> symbol_loop n fuel img nsym i d = Ret d' ->
  scan m img nsym i = Ret ps ->
  entries d' = entries d ++ (fresh_entry <$> (snd <$> ps)) /\ reachable d'.
Proof.
  induction n as [|n IH]; intros m i d d' ps Hd H Hscan;
    rewrite symbol_loop_unfold in H; rewrite scan_unfold in Hscan;
    case_decide; simplify_eq.
  - by rewrite app_nil_r.
  - by rewrite app_nil_r.
  - destruct m as [|m]; [done|].
    apply bind_Ret in H as (s & Hs & H).
    apply bind_Ret in H as ([d1 ok] & Hadd & H). cbv beta iota in H.
    apply bind_Ret in H as (aux & Haux & H).
    apply bind_Ret in Hscan as (s' & Hs' & Hscan).
    apply bind_Ret in Hscan as (aux' & Haux' & Hscan).
    apply bind_Ret in Hscan as (rest & Hrest & Hscan).
    rewrite Hs in Hs'. rewrite Haux in Haux'. simplify_eq.
    assert (Hd1 : reachable d1) by (by eapply reachable_add).
    destruct (dict_add_cases _ _ _ _ _ _ Hd Hadd)
      as [(? & ? & ? & ? & _)|[(? & ? & _)|(_ & _ & _ & He & _)]];
      [done|done|].
    destruct (IH _ _ _ _ _ Hd1 H Hrest) as [He' Hd'].
    split; [|done]. rewrite He', He, <- app_assoc. done.
Qed.

Lemma change_symbol_names_renamed fuel pairs : forall d d',
  reachable d -> change_symbol_names fuel d pairs = Ret d' ->
  entries d' = renamed pairs <$> entries d.
Proof.
  induction pairs as [|[old new] pairs IH]; intros d d' Hd H; simpl in H.
  - simplify_eq. unfold renamed. simpl. by rewrite list_fmap_id.
  - apply bind_Ret in H as (d1 & H1 & H). unfold change_symbol_name in H1.
    apply bind_Ret in H1 as ([d1' ok] & Hadd & H1). cbv beta iota in H1.
    destruct ok; simplify_eq.
    assert (Hd1 : reachable d1) by (by eapply reachable_add).
    destruct (dict_add_cases _ _ _ _ _ _ Hd Hadd)
      as [(e & ent & v' & ? & Hent & <- & -> & _)|[(? & ? & _ & _ & ?)|(? & _)]];
      [|done|done].
    simplify_eq. rewrite (IH _ _ Hd1 H).
    rewrite (update_entry_rename d e ent) by (done || apply reachable_wf, Hd).
    simpl. rewrite <- list_fmap_compose. apply list_fmap_ext.
    intros i ent' _. simpl. by rewrite renamed_cons.
Qed.

Lemma effective_name_renamed pairs s :
  effective_name (renamed pairs (fresh_entry s)) = final_name pairs s.
Proof.
  unfold renamed, final_name, fresh_entry. simpl.
  by destruct (last_rename pairs s).
Qed.

(** X11.  A run that succeeds writes tables that read back as renamed:
    when the input decodes to the primary symbols [ps] and every final
    name (the new name of the last pair naming the symbol, the old name
    when there is none) has no NUL, is not empty and, if exactly 8 bytes
    long, is followed in its record by a zero byte, then decoding the
    output, symbol array followed by string table, gives the same records
    with the final names. *)
Theorem renamed_symbols_read_back fuel img nsym ps pairs symtab strtab :
  primary_symbols img nsym = Ret ps ->
  smc fuel img nsym pairs = Ret (symtab, strtab) ->
  Forall (fun q => readable img q.1 (final_name pairs q.2)) ps ->
  (Z.of_nat (length strtab) < 2 ^ 32)%Z ->
  exists tab,
    strtab = (Some <$> tab) /\
    primary_symbols (symtab ++ tab) nsym
    = Ret ((fun q => (q.1, final_name pairs q.2)) <$> ps).
Proof.
  intros Hscan Hrun Hread Hsmall. unfold smc in Hrun.
  apply bind_Ret in Hrun as (d0 & Hget & Hrun).
  apply bind_Ret in Hrun as (d1 & Hren & Hwrite).
  destruct (symbol_loop_entries _ _ _ _ _ _ _ _ _ reachable_new Hget Hscan)
    as [He0 Hd0].
  change (entries new_dict) with (@nil entry_t) in He0. rewrite app_nil_l in He0.
  pose proof (change_symbol_names_renamed _ _ _ _ Hd0 Hren) as He1.
  assert (Hnames : effective_name <$> entries d1
                   = (fun q => final_name pairs q.2) <$> ps).
  { rewrite He1, He0, <- !list_fmap_compose. apply list_fmap_ext.
    intros i q _. simpl. apply effective_name_renamed. }
  destruct (write_tables_reread fuel img nsym ps d1 symtab strtab)
    as (tab & Htab & _ & Hback); [done| |done|done|].
  { rewrite He1, He0. rewrite <- !list_fmap_compose.
    apply Forall2_fmap_r, Forall_Forall2_diag.
    eapply Forall_impl; [exact Hread|]. intros q Hq. simpl.
    by rewrite effective_name_renamed. }
  exists tab. split; [done|]. rewrite Hback, Hnames. f_equal.
  clear. induction ps as [|q ps IH]; [done|]. csimpl. f_equal. exact IH.
Qed.

Lemma renamed_symbols_read_back_witness :
  primary_symbols demo_image 4 = Ret demo_symbols /\
  smc 64 demo_image 4 swap_pairs = Ret (swap_output.1, swap_output.2) /\
  Forall (fun q => readable demo_image q.1 (final_name swap_pairs q.2))
    demo_symbols /\
  (Z.of_nat (length swap_output.2) < 2 ^ 32)%Z /\
  exists tab,
    swap_output.2 = (Some <$> tab) /\
    primary_symbols (swap_output.1 ++ tab) 4
    = Ret ((fun q => (q.1, final_name swap_pairs q.2)) <$> demo_symbols).
Proof.
  assert (H1 : primary_symbols demo_image 4 = Ret demo_symbols)
    by (vm_compute; reflexivity).
  assert (H2 : smc 64 demo_image 4 swap_pairs
               = Ret (swap_output.1, swap_output.2))
    by (vm_compute; reflexivity).
  assert (H3 : Forall (fun q => readable demo_image q.1
                                  (final_name swap_pairs q.2)) demo_symbols).
  { apply (bool_decide_unpack _). vm_compute. exact I. }
  assert (H4 : (Z.of_nat (length swap_output.2) < 2 ^ 32)%Z)
    by (vm_compute; reflexivity).
  split; [exact H1|]. split; [exact H2|]. split; [exact H3|].
  split; [exact H4|].
  exact (renamed_symbols_read_back 64 demo_image 4 demo_symbols swap_pairs
           swap_output.1 swap_output.2 H1 H2 H3 H4).
Defined.

(** ** The argument loop of [main] *)

Lemma skip_space_app sp s :
  Forall (fun b => isspace b = true) sp -> skip_space (sp ++ s) = skip_space s.
Proof.
  induction 1 as [|b sp Hb _ IH]; simpl; [done|]. by rewrite Hb.
Qed.

Lemma skip_space_all sp :
  Forall (fun b => isspace b = true) sp -> skip_space sp = [].
Proof.
  intros H. rewrite <- (app_nil_r sp). by rewrite skip_space_app.
Qed.

Lemma scan_word_app w rest :
  Forall (fun b => isspace b = false) w -> word_end rest ->
  scan_word (w ++ rest) = (w, rest).
Proof.
  induction 1 as [|b w Hb _ IH]; intros Hend; simpl.
  - destruct rest as [|c rest]; [done|]. simpl in *. by rewrite Hend.
  - rewrite Hb, IH by done. done.
Qed.

Lemma scanf_s_end sp :
  Forall (fun b => isspace b = true) sp -> scanf_s sp = Ret None.
Proof. intros H. unfold scanf_s. by rewrite skip_space_all. Qed.

Lemma scanf_s_scan sp w rest :
  Forall (fun b => isspace b = true) sp -> word_ok w -> word_end rest ->
  scanf_s (sp ++ w ++ rest)
  = if decide (length w + 1 <= 256) then Ret (Some (w, rest)) else Undef.
Proof.
  intros Hsp (Hne & Hw & Hnul) Hend. unfold scanf_s.
  rewrite skip_space_app by done.
  destruct w as [|b w]; [done|].
  assert (Hb : isspace b = false) by (by inversion Hw).
  change (skip_space ((b :: w) ++ rest))
    with (if isspace b then skip_space (w ++ rest) else b :: w ++ rest).
  rewrite Hb.
  change (b :: w ++ rest) with ((b :: w) ++ rest).
  rewrite scan_word_app by done.
  case_decide; [|done]. by rewrite c_string_app_nul.
Qed.

Lemma scanf_s_word sp w rest :
  Forall (fun b => isspace b = true) sp -> word_ok w -> fits w ->
  word_end rest ->
  scanf_s (sp ++ w ++ rest) = Ret (Some (w, rest)).
Proof.
  intros Hsp Hw Hfit Hend. rewrite scanf_s_scan by done.
  unfold fits, strlen in Hfit. by rewrite decide_True by lia.
Qed.

Lemma scanf_s_long sp w rest :
  Forall (fun b => isspace b = true) sp -> word_ok w -> 256 <= strlen w ->
  word_end rest ->
  scanf_s (sp ++ w ++ rest) = Undef.
Proof.
  intros Hsp Hw Hlong Hend. rewrite scanf_s_scan by done.
  unfold strlen in Hlong. by rewrite decide_False by lia.
Qed.

Lemma listfile_loop_unfold n fuel d s :
  listfile_loop n fuel d s =
  r1 ← scanf_s s;
  match r1 with
  | None => Ret d
  | Some (old, s1) =>
      r2 ← scanf_s s1;
      match r2 with
      | None => Ret d
      | Some (new, s2) =>
          match n with
          | O => Timeout
          | S n' =>
              d' ← change_symbol_name fuel d old new;
              listfile_loop n' fuel d' s2
          end
      end
  end.
Proof. destruct n; reflexivity. Qed.

Lemma listfile_loop_spells fuel : forall n s ws d,
  spells s ws -> Forall fits ws -> length (pair_up ws) <= n ->
  listfile_loop n fuel d s = change_symbol_names fuel d (pair_up ws).
Proof.
  induction n as [|n IH]; intros s ws d Hsp Hfit Hn;
    rewrite listfile_loop_unfold;
    (inversion Hsp as [sp Hws|sp w rest ws' Hws Hw Hend Hrest]; subst;
     [by rewrite scanf_s_end|]);
    apply Forall_cons in Hfit as [Hf Hfit];
    rewrite scanf_s_word, Ret_bind by done;
    (inversion Hrest as [sp' Hws'|sp' w' rest' ws'' Hws' Hw' Hend' Hrest'];
     subst; [by rewrite scanf_s_end|]);
    apply Forall_cons in Hfit as [Hf' Hfit];
    rewrite scanf_s_word, Ret_bind by done; simpl in Hn; [lia|].
  simpl. destruct (change_symbol_name fuel d w w'); simpl; [|done|done|done].
  apply IH; [done|done|lia].
Qed.

Lemma listfile_loop_long fuel long ws2 : forall n s ws1 d d',
  spells s (ws1 ++ long :: ws2) -> Forall fits ws1 -> 256 <= strlen long ->
  length (pair_up ws1) <= n ->
  change_symbol_names fuel d (pair_up ws1) = Ret d' ->
  listfile_loop n fuel d s = Undef.
Proof.
  induction n as [|n IH]; intros s ws1 d d' Hsp Hfit Hlong Hn Hren;
    rewrite listfile_loop_unfold;
    (destruct ws1 as [|w1 ws1];
     [inversion Hsp as [|sp w rest ws' Hws Hw Hend Hrest]; subst;
      by rewrite scanf_s_long|]);
    inversion Hsp as [|sp w rest ws' Hws Hw Hend Hrest]; subst;
    apply Forall_cons in Hfit as [Hf Hfit];
    rewrite scanf_s_word, Ret_bind by done;
    (destruct ws1 as [|w2 ws1];
     [inversion Hrest as [|sp' w' rest' ws'' Hws' Hw' Hend' Hrest']; subst;
      by rewrite scanf_s_long|]);
    inversion Hrest as [|sp' w' rest' ws'' Hws' Hw' Hend' Hrest']; subst;
    apply Forall_cons in Hfit as [Hf' Hfit];
    rewrite scanf_s_word, Ret_bind by done; simpl in Hn; [lia|].
  simpl in Hren. apply bind_Ret in Hren as (d1 & H1 & Hren).
  rewrite H1, Ret_bind. eapply IH; [done|done|done|lia|done].
Qed.

Lemma pair_up_length ws : 2 * length (pair_up ws) <= length ws.
Proof.
  assert (H : 2 * length (pair_up ws) <= length ws /\
              forall w, 2 * length (pair_up (w :: ws)) <= S (length ws)).
  { induction ws as [|a ws [IH1 IH2]]; [simpl; split; [lia|intros; lia]|].
    split; [apply IH2|]. intros w. simpl in *. lia. }
  apply H.
Qed.

Lemma flat_args_cons old new pairs :
  flat_args ((old, new) :: pairs) = old :: new :: flat_args pairs.
Proof. reflexivity. Qed.

(** X12.  A list file does what its words would do as arguments: when the
    stream opened on the file named after the [@] delivers the words [ws]
    separated by white space, each free of NULs and shorter than 256
    bytes, the loop renames with the words taken two at a time, in order,
    leaves out a last word without partner, and goes on with the next
    argument. *)
Theorem listfile_renames_by_word_pairs fuel fs d name s ws rest :
  fs name = Some s -> spells s ws -> Forall fits ws ->
  length ws <= 2 * fuel ->
  rename_loop fuel fs d ((x40 :: name) :: rest)
  = (d' ← change_symbol_names fuel d (pair_up ws);
     rename_loop fuel fs d' rest).
Proof.
  intros Hfs Hsp Hfit Hfuel. simpl. rewrite Hfs.
  rewrite (listfile_loop_spells fuel fuel s ws d Hsp); [done|done|].
  pose proof (pair_up_length ws). lia.
Qed.

Lemma demo_listfile_spells :
  spells demo_listfile (str <$> ["foo"; "one"; "bar"; "two"; "extra"]%string).
Proof.
  assert (Hw : forall w, bool_decide (word_ok w) = true -> word_ok w)
    by (intros w H; by apply bool_decide_eq_true in H).
  assert (Hs : forall sp, bool_decide (Forall (fun b => isspace b = true) sp)
                          = true -> Forall (fun b => isspace b = true) sp)
    by (intros sp H; by apply bool_decide_eq_true in H).
  apply (spells_word [] (str "foo")
           ([x20] ++ str "one" ++ [x0a] ++ str "bar  two" ++ [x0d; x0a]
            ++ str "extra"));
    [by apply Hs|by apply Hw|reflexivity|].
  apply (spells_word [x20] (str "one")
           ([x0a] ++ str "bar  two" ++ [x0d; x0a] ++ str "extra"));
    [by apply Hs|by apply Hw|reflexivity|].
  apply (spells_word [x0a] (str "bar")
           (str "  two" ++ [x0d; x0a] ++ str "extra"));
    [by apply Hs|by apply Hw|reflexivity|].
  apply (spells_word (str "  ") (str "two") ([x0d; x0a] ++ str "extra"));
    [by apply Hs|by apply Hw|reflexivity|].
  apply (spells_word [x0d; x0a] (str "extra") []);
    [by apply Hs|by apply Hw|exact I|].
  apply spells_end. constructor.
Qed.

Lemma listfile_renames_by_word_pairs_witness :
  demo_fs (str "list.txt") = Some demo_listfile /\
  spells demo_listfile (str <$> ["foo"; "one"; "bar"; "two"; "extra"]%string) /\
  Forall fits (str <$> ["foo"; "one"; "bar"; "two"; "extra"]%string) /\
  length (str <$> ["foo"; "one"; "bar"; "two"; "extra"]%string) <= 2 * 32 /\
  rename_loop 32 demo_fs small_dict [str "@list.txt"]
  = change_symbol_names 32 small_dict
      [(str "foo", str "one"); (str "bar", str "two")].
Proof.
  assert (H1 : demo_fs (str "list.txt") = Some demo_listfile) by reflexivity.
  pose proof demo_listfile_spells as H2.
  assert (Hf : Forall fits (str <$> ["foo"; "one"; "bar"; "two"; "extra"]%string))
    by (repeat constructor; vm_compute; lia).
  assert (H3 : length (str <$> ["foo"; "one"; "bar"; "two"; "extra"]%string)
               <= 2 * 32) by (vm_compute; lia).
  split; [exact H1|]. split; [exact H2|]. split; [exact Hf|].
  split; [exact H3|].
  pose proof (listfile_renames_by_word_pairs 32 demo_fs small_dict
                (str "list.txt") demo_listfile _ [] H1 H2 Hf H3) as H.
  etransitivity; [exact H|]. vm_compute. reflexivity.
Defined.

Lemma rename_loop_pairs fuel fs pairs rest : forall d,
  Forall (fun p => listfile_name p.1 = None) pairs ->
  rename_loop fuel fs d (flat_args pairs ++ rest)
  = (d' ← change_symbol_names fuel d pairs; rename_loop fuel fs d' rest).
Proof.
  induction pairs as [|[old new] pairs IH]; intros d Hall.
  - done.
  - apply Forall_cons in Hall as [Hold Hall]. simpl in Hold.
    rewrite flat_args_cons. simpl. rewrite Hold.
    destruct (change_symbol_name fuel d old new); simpl; [|done|done|done].
    by apply IH.
Qed.

(** X13.  Arguments that do not begin with [@] where an old name is
    expected are taken two at a time as old and new name, renamed in
    order, and the loop goes on with what follows them; an argument in the
    place of a new name is a new name even if it begins with [@]. *)
Theorem arguments_rename_in_pairs fuel fs d pairs rest :
  Forall (fun p => listfile_name p.1 = None) pairs ->
  rename_loop fuel fs d (flat_args pairs ++ rest)
  = (d' ← change_symbol_names fuel d pairs; rename_loop fuel fs d' rest).
Proof. intros H. by apply rename_loop_pairs. Qed.

Lemma arguments_rename_in_pairs_witness :
  Forall (fun p => listfile_name p.1 = None)
    [(str "foo", str "@one"); (str "bar", str "two")] /\
  rename_loop 32 demo_fs small_dict
    (flat_args [(str "foo", str "@one"); (str "bar", str "two")]
     ++ [str "@list.txt"])
  = (d' ← change_symbol_names 32 small_dict
            [(str "foo", str "@one"); (str "bar", str "two")];
     rename_loop 32 demo_fs d' [str "@list.txt"]).
Proof.
  assert (H1 : Forall (fun p => listfile_name p.1 = None)
                 [(str "foo", str "@one"); (str "bar", str "two")])
    by (repeat constructor).
  split; [exact H1|].
  exact (arguments_rename_in_pairs 32 demo_fs small_dict _ [str "@list.txt"] H1).
Defined.

Lemma change_symbol_names_reachable fuel pairs : forall d d',
  reachable d -> change_symbol_names fuel d pairs = Ret d' -> reachable d'.
Proof.
  induction pairs as [|[old new] pairs IH]; intros d d' Hd H; simpl in H.
  - by simplify_eq.
  - apply bind_Ret in H as (d1 & H1 & H). unfold change_symbol_name in H1.
    apply bind_Ret in H1 as ([d1' ok] & Hadd & H1). cbv beta iota in H1.
    destruct ok; simplify_eq.
    eapply IH; [|exact H]. by eapply reachable_add.
Qed.

(** X14.  A last argument left without a partner is passed on with a null
    new name.  After renames that succeeded, if it names a symbol the run
    leaves through [error] with "Memory allocation failed."; if it names
    none, nothing is reported and the dictionary gets one more entry, with
    the argument as key and no new name, after the entries of the
    symbols. *)
Theorem unpaired_last_argument fuel fs d pairs last d' :
  reachable d -> Forall (fun p => listfile_name p.1 = None) pairs ->
  listfile_name last = None ->
  change_symbol_names fuel d pairs = Ret d' -> 2 * DICT_SIZE d' <= fuel ->
  (last ∈ key <$> entries d ->
   rename_loop fuel fs d (flat_args pairs ++ [last])
   = Abort "Memory allocation failed.") /\
  (last ∉ key <$> entries d ->
   exists d'',
     rename_loop fuel fs d (flat_args pairs ++ [last]) = Ret d'' /\
     entries d'' = entries d' ++ [fresh_entry last]).
Proof.
  intros Hd Hall Hlast Hren Hfuel.
  pose proof (change_symbol_names_reachable _ _ _ _ Hd Hren) as Hd'.
  pose proof (reachable_wf d' Hd') as Hwf.
  pose proof (change_symbol_names_keys _ _ _ _ Hren) as Hk.
  rewrite rename_loop_pairs, Hren, Ret_bind by done.
  simpl. rewrite Hlast. unfold change_symbol_name_null.
  rewrite <- Hk. split.
  - intros (e & ent & Hent & <-)%present_key.
    by rewrite (dict_add_again fuel d' e ent) by (done || lia).
  - intros Hno. pose proof (absent_key d' last Hno) as Habs.
    destruct (dict_add_insert fuel d' last Hwf Habs Hfuel)
      as (d'' & Hadd & He & _).
    exists d''. by rewrite Hadd.
Qed.

Lemma unpaired_last_argument_witness :
  reachable small_dict /\
  Forall (fun p => listfile_name p.1 = None) [(str "foo", str "one")] /\
  listfile_name (str "stray") = None /\
  change_symbol_names 64 small_dict [(str "foo", str "one")]
  = Ret renamed_small_dict /\
  2 * DICT_SIZE renamed_small_dict <= 64 /\
  (str "stray" ∉ key <$> entries small_dict) /\
  exists d'',
    rename_loop 64 demo_fs small_dict
      (flat_args [(str "foo", str "one")] ++ [str "stray"]) = Ret d'' /\
    entries d'' = entries renamed_small_dict ++ [fresh_entry (str "stray")].
Proof.
  pose proof small_dict_reachable as H1.
  assert (H2 : Forall (fun p => listfile_name p.1 = None)
                 [(str "foo", str "one")]) by (repeat constructor).
  assert (H3 : listfile_name (str "stray") = None) by reflexivity.
  assert (H4 : change_symbol_names 64 small_dict [(str "foo", str "one")]
               = Ret renamed_small_dict) by (vm_compute; reflexivity).
  assert (H5 : 2 * DICT_SIZE renamed_small_dict <= 64) by (vm_compute; lia).
  assert (H6 : str "stray" ∉ (key <$> entries small_dict))
    by absent_by_computation.
  split; [exact H1|]. split; [exact H2|]. split; [exact H3|].
  split; [exact H4|]. split; [exact H5|]. split; [exact H6|].
  exact (proj2 (unpaired_last_argument 64 demo_fs small_dict _ (str "stray")
                  renamed_small_dict H1 H2 H3 H4 H5) H6).
Defined.

(** ** One entry more than there are symbols *)

Lemma emit_name_outside fuel img sym b entry img' b' :
  emit_name fuel img sym b entry = Ret (img', b') ->
  length img' = length img /\
  forall j, j < sym_offset sym \/ sym_offset sym + 8 <= j ->
            img' !! j = img !! j.
Proof.
  unfold emit_name. cbv zeta. intros H. case_decide.
  - apply bind_Ret in H as (img1 & H1 & H). simplify_eq.
    split; [by eapply store_length|]. intros j Hj.
    apply (store_lookup_outside _ _ _ _ _ H1).
    rewrite strncpy_length. lia.
  - apply bind_Ret in H as ([b1 off] & _ & H). cbv beta iota in H.
    apply bind_Ret in H as (img1 & H1 & H).
    apply bind_Ret in H as (img2 & H2 & H). simplify_eq.
    split.
    + rewrite (store_length _ _ _ _ H2). by eapply store_length.
    + intros j Hj.
      rewrite (store_lookup_outside _ _ _ _ _ H2)
        by (unfold OFFSET_Long; simpl; lia).
      apply (store_lookup_outside _ _ _ _ _ H1).
      unfold OFFSET_Short. simpl. lia.
Qed.

Lemma emit_loop_one_more fuel img0 nsym extra : forall n i ps,
  scan n img0 nsym i = Ret ps ->
  forall ents img b img' b',
    length ents = length ps -> aux_agree img img0 -> buf_ok b ->
    emit_loop fuel ents img i b = Ret (img', b') ->
    exists i_end,
      end_of_walk img0 i ps = Ret i_end /\
      (nsym <= i -> i_end = i) /\ nsym <= i_end /\ i <= i_end /\
      aux_agree img' img0 /\ buf_ok b' /\
      (forall j, sym_offset i_end <= j -> img' !! j = img !! j) /\
      emit_loop fuel (ents ++ [extra]) img i b
      = emit_loop fuel [extra] img' i_end b'.
Proof.
  induction n as [|n IH]; intros i ps H ents img b img' b' Hlen Hagree Hok He;
    rewrite scan_unfold in H; case_decide; simplify_eq.
  - destruct ents; [|done]. simpl in He. simplify_eq.
    exists i. by split_and!.
  - destruct ents; [|done]. simpl in He. simplify_eq.
    exists i. by split_and!.
  - apply bind_Ret in H as (s & Hs & H).
    apply bind_Ret in H as (aux & Haux & H).
    apply bind_Ret in H as (rest & Hrest & H). simplify_eq.
    destruct ents as [|ent ents]; [done|]. simpl in Hlen, He.
    apply bind_Ret in He as ([img1 b1] & H1 & He). cbv beta iota in He.
    apply bind_Ret in He as (aux1 & Haux1 & He).
    destruct (emit_name_outside _ _ _ _ _ _ _ H1) as [Hl1 Hout1].
    destruct (emit_name_Ret _ _ _ _ _ _ _ Hok H1) as (Hok1 & _).
    pose proof Hagree as [Hl0 Haux0].
    assert (Hagree1 : aux_agree img1 img0).
    { split; [congruence|]. intros p. rewrite <- Haux0. apply Hout1.
      unfold sym_offset, IMAGE_SIZEOF_SYMBOL, OFFSET_NumberOfAuxSymbols. lia. }
    rewrite (NumberOfAuxSymbols_agree _ _ _ Hagree1), Haux in Haux1.
    simplify_eq.
    destruct (IH _ _ Hrest ents img1 b1 img' b')
      as (i_end & Hend & Hsame & Hge & Hle & Hagree' & Hok' & Hhigh & Hmore);
      [lia|done|done|done|].
    exists i_end. split_and!.
    + unfold end_of_walk in *. destruct rest as [|q rest].
      * simpl in *. rewrite Haux, Ret_bind. done.
      * change (last ((i, s) :: q :: rest)) with (last (q :: rest)).
        destruct (last (q :: rest)) as [[p ?]|] eqn:El; [exact Hend|].
        by apply last_None in El.
    + intros. lia.
    + done.
    + lia.
    + done.
    + done.
    + intros j Hj. rewrite Hhigh by done. apply Hout1.
      unfold sym_offset, IMAGE_SIZEOF_SYMBOL in *. lia.
    + simpl. rewrite H1, Ret_bind. cbv beta iota.
      rewrite (NumberOfAuxSymbols_agree _ _ _ Hagree1), Haux, Ret_bind.
      exact Hmore.
Qed.

Lemma store_cases {A : Type} (mem : list A) off data :
  store mem off data = Undef \/ exists mem', store mem off data = Ret mem'.
Proof. unfold store. case_decide; eauto. Qed.

Lemma emit_name_out_of_range fuel img sym b entry :
  buf_ok b -> length img < sym_offset sym + 8 ->
  cnt b + strlen (effective_name entry) + 1 <= fuel + size b ->
  emit_name fuel img sym b entry = Undef.
Proof.
  intros Hok Hlen Hfuel. unfold emit_name. cbv zeta. case_decide.
  - unfold store. by rewrite decide_False by (rewrite strncpy_length; lia).
  - destruct (buf_cat_total fuel b (effective_name entry) Hok Hfuel)
      as [b' ->].
    rewrite Ret_bind. cbv beta iota.
    destruct (store_cases img (sym_offset sym + OFFSET_Short) (dword_bytes 0))
      as [->|[img1 E1]]; [done|].
    rewrite E1, Ret_bind. apply store_length in E1.
    unfold store. rewrite decide_False; [done|].
    unfold OFFSET_Long. simpl. lia.
Qed.

Lemma strtab_body_snoc (ents : list entry_t) ent :
  strtab_body (effective_name <$> ents ++ [ent])
  = strtab_body (effective_name <$> ents) ++ table_bytes (effective_name ent).
Proof.
  unfold strtab_body. rewrite !fmap_app, concat_app. simpl.
  by rewrite app_nil_r.
Qed.

(** X15.  When the dictionary holds one entry more than the image has
    primary symbols, the last step of the re-emission loop works on the 18
    bytes that follow the walk over the records.  If the image has them,
    the symbol records written are those written without the entry, and
    the string table is the one written without it followed by the entry's
    name and a NUL when that name is longer than 8 bytes, with the length
    field adjusted.  If the image ends before them, the loop stores or
    reads outside the image. *)
Theorem stray_entry_output fuel img nsym ps d d2 extra symtab strtab i_end :
  primary_symbols img nsym = Ret ps ->
  length (entries d) = length ps ->
  entries d2 = entries d ++ [extra] ->
  write_tables fuel img nsym d = Ret (symtab, strtab) ->
  end_of_walk img 0 ps = Ret i_end ->
  nsym <= i_end /\
  exists fuel0,
    (sym_offset i_end + IMAGE_SIZEOF_SYMBOL <= length img ->
     forall fuel', fuel0 <= fuel' ->
       write_tables fuel' img nsym d2
       = Ret (symtab,
              Some <$> dword_bytes
                         (to_DWORD (length strtab
                                    + length (table_bytes (effective_name extra))))
                       ++ strtab_body (effective_name <$> entries d)
                       ++ table_bytes (effective_name extra))) /\
    (length img < sym_offset i_end + IMAGE_SIZEOF_SYMBOL ->
     forall fuel', fuel0 <= fuel' ->
       write_tables fuel' img nsym d2 = Undef).
Proof.
  intros Hscan Hlen He Hwrite Hend. unfold primary_symbols in Hscan.
  destruct (write_tables_Ret _ _ _ _ _ _ Hwrite)
    as (img' & b & Hemit & Hbound & -> & Hok & Hc & Htake & ->).
  set (body := strtab_body (effective_name <$> entries d)) in *.
  assert (Hagree : aux_agree img img) by done.
  destruct (emit_loop_one_more fuel img nsym extra nsym 0 ps Hscan
              (entries d) img strtab_buf img' b Hlen Hagree strtab_buf_ok Hemit)
    as (i' & Hend' & _ & Hge & _ & [Hl' _] & _ & _ & _).
  rewrite Hend in Hend'. simplify_eq. split; [done|].
  exists (Nat.max fuel (cnt b + strlen (effective_name extra) + 1)).
  assert (Hmore : forall fuel',
            Nat.max fuel (cnt b + strlen (effective_name extra) + 1) <= fuel' ->
            emit_loop fuel' (entries d2) img 0 strtab_buf
            = emit_loop fuel' [extra] img' i' b).
  { intros fuel' Hfuel'. rewrite He.
    apply emit_loop_mono with (fuel' := fuel') in Hemit; [|lia].
    destruct (emit_loop_one_more fuel' img nsym extra nsym 0 ps Hscan
                (entries d) img strtab_buf img' b Hlen Hagree strtab_buf_ok
                Hemit)
      as (i'' & Hend'' & _ & _ & _ & _ & _ & _ & Hm).
    rewrite Hend in Hend''. by simplify_eq. }
  unfold IMAGE_SIZEOF_SYMBOL in *. split.
  - intros Hroom fuel' Hfuel'. specialize (Hmore fuel' Hfuel').
    destruct (emit_name_spec fuel' img' i' b extra Hok)
      as (img2 & b2 & H2 & Hl2 & Hout2 & Hok2 & _ & _ & Htake2 & Hc2 & _);
      [lia|lia|].
    assert (Haux : exists aux, NumberOfAuxSymbols img2 i' = Ret aux).
    { unfold NumberOfAuxSymbols, load_byte, OFFSET_NumberOfAuxSymbols.
      assert (Hx : is_Some (img2 !! (sym_offset i' + 17)))
        by (apply lookup_lt_is_Some_2; lia).
      destruct Hx as [x Hx]. eexists. rewrite Hx. reflexivity. }
    destruct Haux as [aux Haux].
    assert (Hemit2 : emit_loop fuel' (entries d2) img 0 strtab_buf
                     = Ret (img2, b2)).
    { rewrite Hmore. simpl. rewrite H2, Ret_bind. cbv beta iota.
      by rewrite Haux. }
    assert (Hrun : exists out, write_tables fuel' img nsym d2 = Ret out).
    { eexists. unfold write_tables. rewrite Hemit2, Ret_bind. cbv beta iota.
      destruct Hok2 as (_ & Hlb & Hcb).
      rewrite store_in_range, Ret_bind
        by (rewrite length_fmap; simpl; lia).
      unfold load_bytes, IMAGE_SIZEOF_SYMBOL.
      rewrite decide_True by lia. reflexivity. }
    destruct Hrun as [[symtab2 strtab2] Hrun]. rewrite Hrun.
    destruct (write_tables_Ret _ _ _ _ _ _ Hrun)
      as (img3 & b3 & Hemit3 & _ & -> & _ & Hc3 & _ & ->).
    rewrite Hemit2 in Hemit3. simplify_eq.
    rewrite He, strtab_body_snoc.
    rewrite He, strtab_body_snoc, length_app in Hc3.
    simpl in Hc3. fold body in Hc3 |- *.
    assert (Hsym : take (nsym * IMAGE_SIZEOF_SYMBOL) img3 = take (nsym * 18) img').
    { apply list_eq. intros j. unfold IMAGE_SIZEOF_SYMBOL.
      rewrite !lookup_take. case_decide; [|done]. apply Hout2. left.
      unfold sym_offset, IMAGE_SIZEOF_SYMBOL. lia. }
    assert (Hcount : cnt b3
                     = length (Some <$> dword_bytes (to_DWORD (cnt b)) ++ body)
                       + length (table_bytes (effective_name extra))).
    { rewrite length_fmap, length_app.
      change (length (dword_bytes _)) with 4. lia. }
    by rewrite Hsym, Hcount.
  - intros Hshort fuel' Hfuel'. specialize (Hmore fuel' Hfuel').
    unfold write_tables. rewrite Hmore. simpl.
    destruct (decide (sym_offset i' + 8 <= length img')) as [Hin|Hout].
    + destruct (emit_name_spec fuel' img' i' b extra Hok)
        as (img2 & b2 & H2 & Hl2 & _); [lia|lia|].
      rewrite H2, Ret_bind. cbv beta iota.
      unfold NumberOfAuxSymbols, load_byte, OFFSET_NumberOfAuxSymbols.
      assert (Hx : img2 !! (sym_offset i' + 17) = None)
        by (apply lookup_ge_None_2; lia).
      by rewrite Hx.
    + rewrite emit_name_out_of_range by (done || lia). done.
Qed.

Lemma stray_entry_output_witness :
  primary_symbols demo_image 4 = Ret demo_symbols /\
  length (entries demo_dict) = length demo_symbols /\
  entries stray_dict
  = entries demo_dict ++ [fresh_entry (str "a_stray_argument")] /\
  write_tables 64 demo_image 4 demo_dict = Ret (demo_tables.1, demo_tables.2) /\
  end_of_walk demo_image 0 demo_symbols = Ret 4 /\
  sym_offset 4 + IMAGE_SIZEOF_SYMBOL <= length demo_image /\
  exists fuel0, forall fuel', fuel0 <= fuel' ->
    write_tables fuel' demo_image 4 stray_dict
    = Ret (demo_tables.1,
           Some <$> dword_bytes
                      (to_DWORD
                         (length demo_tables.2
                          + length (table_bytes
                                      (effective_name
                                         (fresh_entry (str "a_stray_argument"))))))
                    ++ strtab_body (effective_name <$> entries demo_dict)
                    ++ table_bytes
                         (effective_name (fresh_entry (str "a_stray_argument")))).
Proof.
  assert (H1 : primary_symbols demo_image 4 = Ret demo_symbols)
    by (vm_compute; reflexivity).
  assert (H2 : length (entries demo_dict) = length demo_symbols)
    by (vm_compute; reflexivity).
  assert (H3 : entries stray_dict
               = entries demo_dict ++ [fresh_entry (str "a_stray_argument")])
    by reflexivity.
  assert (H4 : write_tables 64 demo_image 4 demo_dict
               = Ret (demo_tables.1, demo_tables.2))
    by (vm_compute; reflexivity).
  assert (H5 : end_of_walk demo_image 0 demo_symbols = Ret 4)
    by (vm_compute; reflexivity).
  assert (H6 : sym_offset 4 + IMAGE_SIZEOF_SYMBOL <= length demo_image)
    by (vm_compute; lia).
  split; [exact H1|]. split; [exact H2|]. split; [exact H3|].
  split; [exact H4|]. split; [exact H5|]. split; [exact H6|].
  destruct (stray_entry_output 64 demo_image 4 demo_symbols demo_dict
              stray_dict (fresh_entry (str "a_stray_argument"))
              demo_tables.1 demo_tables.2 4 H1 H2 H3 H4 H5)
    as (_ & fuel0 & HA & _).
  exists fuel0. exact (HA H6).
Defined.

(** X16.  A word of 256 bytes or more in a list file does not fit the
    array [fscanf] stores it in: once the renames of the words before it
    have succeeded, the loop stores outside the array, whether the word
    stands for an old name, for a new name or alone at the end. *)
Theorem listfile_long_word_overflows fuel fs d d' name s ws1 long ws2 rest :
  fs name = Some s -> spells s (ws1 ++ long :: ws2) -> Forall fits ws1 ->
  256 <= strlen long -> length ws1 <= 2 * fuel ->
  change_symbol_names fuel d (pair_up ws1) = Ret d' ->
  rename_loop fuel fs d ((x40 :: name) :: rest) = Undef.
Proof.
  intros Hfs Hsp Hfit Hlong Hfuel Hren. simpl. rewrite Hfs.
  rewrite (listfile_loop_long fuel long ws2 fuel s ws1 d d'); try done.
  pose proof (pair_up_length ws1). lia.
Qed.

Lemma long_listfile_spells :
  spells long_listfile ([str "foo"; str "one"] ++ replicate 256 x61 :: []).
Proof.
  assert (Hw : forall w, bool_decide (word_ok w) = true -> word_ok w)
    by (intros w H; by apply bool_decide_eq_true in H).
  assert (Hs : forall sp, bool_decide (Forall (fun b => isspace b = true) sp)
                          = true -> Forall (fun b => isspace b = true) sp)
    by (intros sp H; by apply bool_decide_eq_true in H).
  apply (spells_word [] (str "foo") (str " one " ++ replicate 256 x61));
    [by apply Hs|by apply Hw|reflexivity|].
  apply (spells_word [x20] (str "one") ([x20] ++ replicate 256 x61));
    [by apply Hs|by apply Hw|reflexivity|].
  apply (spells_word [x20] (replicate 256 x61) []);
    [by apply Hs|apply Hw; vm_compute; reflexivity|exact I|].
  apply spells_end. constructor.
Qed.

Lemma listfile_long_word_overflows_witness :
  long_fs (str "long.txt") = Some long_listfile /\
  spells long_listfile ([str "foo"; str "one"] ++ replicate 256 x61 :: []) /\
  Forall fits [str "foo"; str "one"] /\
  256 <= strlen (replicate 256 x61) /\ length [str "foo"; str "one"] <= 2 * 64 /\
  change_symbol_names 64 small_dict (pair_up [str "foo"; str "one"])
  = Ret renamed_small_dict /\
  rename_loop 64 long_fs small_dict [str "@long.txt"] = Undef.
Proof.
  assert (H1 : long_fs (str "long.txt") = Some long_listfile) by reflexivity.
  pose proof long_listfile_spells as H2.
  assert (H3 : Forall fits [str "foo"; str "one"])
    by (repeat constructor; vm_compute; lia).
  assert (H4 : 256 <= strlen (replicate 256 x61)) by (vm_compute; lia).
  assert (H5 : length [str "foo"; str "one"] <= 2 * 64) by (vm_compute; lia).
  assert (H6 : change_symbol_names 64 small_dict (pair_up [str "foo"; str "one"])
               = Ret renamed_small_dict) by (vm_compute; reflexivity).
  split; [exact H1|]. split; [exact H2|]. split; [exact H3|].
  split; [exact H4|]. split; [exact H5|]. split; [exact H6|].
  exact (listfile_long_word_overflows 64 long_fs small_dict renamed_small_dict
           (str "long.txt") long_listfile _ _ [] [] H1 H2 H3 H4 H5 H6).
Defined.

(** ** The tables of a run that decodes *)

Lemma load_bytes_take (img : image) m off n :
  off + n <= m -> m <= length img ->
  load_bytes (take m img) off n = load_bytes img off n.
Proof.
  intros Hoff Hm. rewrite <- (app_nil_r (take m img)).
  by apply output_load.
Qed.

Lemma write_tables_total img nsym ps d :
  primary_symbols img nsym = Ret ps -> length (entries d) = length ps ->
  nsym * IMAGE_SIZEOF_SYMBOL <= length img ->
  exists fuel0 img' b,
    (forall fuel, fuel0 <= fuel ->
       emit_loop fuel (entries d) img 0 strtab_buf = Ret (img', b) /\
       write_tables fuel img nsym d
       = Ret (take (nsym * IMAGE_SIZEOF_SYMBOL) img',
              Some <$> dword_bytes (to_DWORD (cnt b)) ++
                       strtab_body (effective_name <$> entries d))) /\
    length img' = length img /\
    (forall j, (forall p, p ∈ fst <$> ps ->
                  ~ (sym_offset p <= j < sym_offset p + 8)) ->
               img' !! j = img !! j) /\
    cnt b = 4 + length (strtab_body (effective_name <$> entries d)) /\
    forall k p s ent, ps !! k = Some (p, s) -> entries d !! k = Some ent ->
      carries (take (nsym * IMAGE_SIZEOF_SYMBOL) img')
        (dword_bytes (to_DWORD (cnt b)) ++
         strtab_body (effective_name <$> entries d))
        p (effective_name ent).
Proof.
  intros Hscan Hlen Hbound. unfold primary_symbols in Hscan.
  set (body := strtab_body (effective_name <$> entries d)).
  set (fuel0 := cnt strtab_buf + length body + 9).
  destruct (emit_loop_scan fuel0 img nsym nsym 0 ps Hscan (entries d) img
              strtab_buf)
    as (img' & b & Hemit & [Hl _] & _ & Hout & Hok & _ & Henc);
    [done|done|apply strtab_buf_ok|done|].
  assert (Hrun : forall fuel, fuel0 <= fuel ->
            emit_loop fuel (entries d) img 0 strtab_buf = Ret (img', b) /\
            write_tables fuel img nsym d
            = Ret (take (nsym * IMAGE_SIZEOF_SYMBOL) img',
                   Some <$> dword_bytes (to_DWORD (cnt b)) ++ body)).
  { intros fuel Hfuel.
    pose proof (emit_loop_mono _ fuel _ _ _ _ _ Hemit Hfuel) as Hemit'.
    split; [done|].
    destruct (emit_loop_Ret _ _ _ _ _ _ _ strtab_buf_ok Hemit') as (_ & Hc & _).
    change (cnt strtab_buf) with 4 in Hc.
    assert (Hex : exists out, write_tables fuel img nsym d = Ret out).
    { eexists. unfold write_tables. rewrite Hemit', Ret_bind. cbv beta iota.
      destruct Hok as (_ & Hlb & Hcb).
      rewrite store_in_range, Ret_bind
        by (rewrite length_fmap; simpl; lia).
      unfold load_bytes. rewrite decide_True by lia. reflexivity. }
    destruct Hex as [[symtab strtab] Hex]. rewrite Hex.
    destruct (write_tables_Ret _ _ _ _ _ _ Hex)
      as (img2 & b2 & Hemit2 & _ & -> & _ & _ & _ & ->).
    rewrite Hemit' in Hemit2. by simplify_eq. }
  destruct (Hrun fuel0 (le_n _)) as [_ Hw].
  destruct (write_tables_Ret _ _ _ _ _ _ Hw)
    as (img2 & b2 & Hemit2 & _ & _ & _ & Hc & Htake & _).
  rewrite Hemit in Hemit2. symmetry in Hemit2. simplify_eq.
  fold body in Hc, Htake.
  exists fuel0, img', b. split_and!; [done|done|done|done|].
  intros k p s ent Hk Hent.
  pose proof (scan_positions _ _ _ _ _ Hscan _ _ _ Hk) as Hp.
  specialize (Henc _ _ _ _ Hk Hent). unfold encodes in Henc.
  unfold carries.
  assert (Hf : load_bytes (take (nsym * IMAGE_SIZEOF_SYMBOL) img')
                 (sym_offset p) 8 = load_bytes img' (sym_offset p) 8).
  { apply load_bytes_take; [|lia].
    unfold sym_offset, IMAGE_SIZEOF_SYMBOL. lia. }
  rewrite Hf. case_decide; [done|].
  destruct Henc as (off & Hfield & Hoff & Hstr).
  assert (Hl1 : length (effective_name ent ++ [x00])
                = strlen (effective_name ent) + 1)
    by (rewrite length_app; done).
  destruct (table_holds_string (buf b) (dword_bytes (to_DWORD (cnt b))) body
              (effective_name ent ++ [x00]) (cnt b) off) as [Hge Hin].
  - done.
  - done.
  - lia.
  - by destruct (effective_name ent).
  - by rewrite Hl1.
  - rewrite Hl1 in Hin. exists off. split_and!; [done|done| |done].
    rewrite length_app. change (length (dword_bytes _)) with 4. lia.
Qed.

Lemma smc_total img nsym ps pairs :
  primary_symbols img nsym = Ret ps -> NoDup (snd <$> ps) ->
  nsym * IMAGE_SIZEOF_SYMBOL <= length img ->
  Forall (fun pr => pr.1 ∈ snd <$> ps) pairs ->
  exists fuel0 d d' img' b,
    (forall fuel, fuel0 <= fuel ->
       get_symbol_names fuel img nsym = Ret d /\
       change_symbol_names fuel d pairs = Ret d' /\
       write_tables fuel img nsym d'
       = Ret (take (nsym * IMAGE_SIZEOF_SYMBOL) img',
              Some <$> dword_bytes (to_DWORD (cnt b)) ++
                       strtab_body (final_name pairs <$> (snd <$> ps))) /\
       smc fuel img nsym pairs
       = Ret (take (nsym * IMAGE_SIZEOF_SYMBOL) img',
              Some <$> dword_bytes (to_DWORD (cnt b)) ++
                       strtab_body (final_name pairs <$> (snd <$> ps)))) /\
    entries d = fresh_entry <$> (snd <$> ps) /\
    entries d' = renamed pairs <$> (fresh_entry <$> (snd <$> ps)) /\
    length img' = length img /\
    (forall j, (forall p, p ∈ fst <$> ps ->
                  ~ (sym_offset p <= j < sym_offset p + 8)) ->
               img' !! j = img !! j) /\
    cnt b = 4 + length (strtab_body (final_name pairs <$> (snd <$> ps))) /\
    forall k p s, ps !! k = Some (p, s) ->
      carries (take (nsym * IMAGE_SIZEOF_SYMBOL) img')
        (dword_bytes (to_DWORD (cnt b)) ++
         strtab_body (final_name pairs <$> (snd <$> ps)))
        p (final_name pairs s).
Proof.
  intros Hscan Hnd Hbound Hall.
  pose proof Hscan as Hscan'. unfold primary_symbols in Hscan'.
  destruct (symbol_loop_scan img nsym nsym 0 ps Hscan' new_dict reachable_new)
    as (fuel1 & d & Hloop & He & Hd); [done|].
  change (entries new_dict) with (@nil entry_t) in He. rewrite app_nil_l in He.
  set (d' := with_entries d (renamed pairs <$> entries d)).
  assert (Hk : key <$> entries d = snd <$> ps)
    by (rewrite He; apply key_fresh_entries).
  assert (Hall' : Forall (fun p => p.1 ∈ key <$> entries d) pairs)
    by (by rewrite Hk).
  assert (He' : entries d' = renamed pairs <$> (fresh_entry <$> (snd <$> ps)))
    by (unfold d'; simpl; by rewrite He).
  assert (Hnames : effective_name <$> entries d'
                   = final_name pairs <$> (snd <$> ps)).
  { rewrite He', <- !list_fmap_compose. apply list_fmap_ext.
    intros i q _. simpl. apply effective_name_renamed. }
  assert (Hlen : length (entries d') = length ps)
    by (rewrite He', !length_fmap; done).
  destruct (write_tables_total img nsym ps d' Hscan Hlen Hbound)
    as (fuel2 & img' & b & Hrun & Hl & Hout & Hc & Hcar).
  rewrite Hnames in Hrun, Hc, Hcar.
  exists (Nat.max nsym (Nat.max fuel1 (Nat.max (DICT_SIZE d) fuel2))),
    d, d', img', b.
  split_and!; [|done|done|done|done|done|].
  - intros fuel Hfuel.
    assert (H1 : get_symbol_names fuel img nsym = Ret d)
      by (apply Hloop; lia).
    assert (H2 : change_symbol_names fuel d pairs = Ret d').
    { apply change_symbol_names_present; [done|lia|done]. }
    destruct (Hrun fuel) as [_ H3]; [lia|].
    split_and!; [done|done|done|].
    unfold smc. by rewrite H1, Ret_bind, H2, Ret_bind.
  - intros k p s Hk'.
    destruct (lookup_lt_is_Some_2 (entries d') k) as [ent Hent].
    { rewrite Hlen. by eapply lookup_lt_Some. }
    specialize (Hcar k p s ent Hk' Hent).
    assert (Hn : effective_name ent = final_name pairs s).
    { assert (Hx : (effective_name <$> entries d') !! k
                   = Some (effective_name ent))
        by (by rewrite list_lookup_fmap, Hent).
      rewrite Hnames, !list_lookup_fmap, Hk' in Hx. by simplify_eq/=. }
    by rewrite Hn in Hcar.
Qed.

Lemma write_tables_mono fuel fuel' img nsym d out :
  write_tables fuel img nsym d = Ret out -> fuel <= fuel' ->
  write_tables fuel' img nsym d = Ret out.
Proof.
  unfold write_tables. intros H Hle.
  apply bind_Ret in H as ([img' b] & Hemit & H).
  by rewrite (emit_loop_mono _ fuel' _ _ _ _ _ Hemit Hle).
Qed.



(** C7, as amended.  [new_buf] creates a buffer of logical length 0 and
    capacity 256.  [main] sets the length to 4 before the re-emission
    loop, so the strings the loop appends follow the first 4 bytes, and
    after the loop it stores the final length, as a 32-bit little-endian
    number, in these 4 bytes.  For an image that holds its [nsym] records
    and a dictionary with one entry per primary symbol the loop and the
    stores end, and the string table written is that length followed by
    the long effective names, each with its terminator, in entry order;
    no run gives other tables. *)
Theorem string_table_header img nsym ps d :
  primary_symbols img nsym = Ret ps -> length (entries d) = length ps ->
  nsym * IMAGE_SIZEOF_SYMBOL <= length img ->
  cnt new_buf = 0 /\ size new_buf = 256 /\ cnt strtab_buf = 4 /\
  exists fuel0 img' b symtab strtab,
    (forall fuel, fuel0 <= fuel ->
       emit_loop fuel (entries d) img 0 strtab_buf = Ret (img', b) /\
       write_tables fuel img nsym d = Ret (symtab, strtab)) /\
    cnt b = 4 + length (strtab_body (effective_name <$> entries d)) /\
    strtab = (Some <$> dword_bytes (to_DWORD (cnt b)) ++
                       strtab_body (effective_name <$> entries d)) /\
    length strtab = cnt b /\
    forall fuel out, write_tables fuel img nsym d = Ret out ->
                     out = (symtab, strtab).
Proof.
  intros Hscan Hlen Hbound. split_and!; [done..|].
  destruct (write_tables_total img nsym ps d Hscan Hlen Hbound)
    as (fuel0 & img' & b & Hrun & _ & _ & Hc & _).
  exists fuel0, img', b, (take (nsym * IMAGE_SIZEOF_SYMBOL) img'),
    (Some <$> dword_bytes (to_DWORD (cnt b)) ++
              strtab_body (effective_name <$> entries d)).
  split_and!; [done|done|done| |].
  - rewrite length_fmap, length_app.
    change (length (dword_bytes _)) with 4. lia.
  - intros fuel out Hout.
    apply write_tables_mono with (fuel' := Nat.max fuel fuel0) in Hout;
      [|lia].
    destruct (Hrun (Nat.max fuel fuel0)) as [_ Hw]; [lia|].
    rewrite Hw in Hout. by simplify_eq.
Qed.

Lemma string_table_header_witness :
  primary_symbols demo_image 4 = Ret demo_symbols /\
  length (entries demo_dict) = length demo_symbols /\
  4 * IMAGE_SIZEOF_SYMBOL <= length demo_image /\
  exists fuel0 img' b symtab strtab,
    (forall fuel, fuel0 <= fuel ->
       emit_loop fuel (entries demo_dict) demo_image 0 strtab_buf
       = Ret (img', b) /\
       write_tables fuel demo_image 4 demo_dict = Ret (symtab, strtab)) /\
    cnt b = 4 + length (strtab_body (effective_name <$> entries demo_dict)) /\
    strtab = (Some <$> dword_bytes (to_DWORD (cnt b)) ++
                       strtab_body (effective_name <$> entries demo_dict)) /\
    length strtab = cnt b /\
    forall fuel out, write_tables fuel demo_image 4 demo_dict = Ret out ->
                     out = (symtab, strtab).
Proof.
  assert (H1 : primary_symbols demo_image 4 = Ret demo_symbols)
    by (vm_compute; reflexivity).
  assert (H2 : length (entries demo_dict) = length demo_symbols)
    by (vm_compute; reflexivity).
  assert (H3 : 4 * IMAGE_SIZEOF_SYMBOL <= length demo_image)
    by (vm_compute; lia).
  split; [exact H1|]. split; [exact H2|]. split; [exact H3|].
  exact (proj2 (proj2 (proj2 (string_table_header demo_image 4 demo_symbols
                                demo_dict H1 H2 H3)))).
Defined.

(** ** Symbol tables with a repeated name *)

Lemma symbol_loop_repeat img nsym s : forall k i ps1 p d,
  scan_first k img nsym i = Ret (ps1, p) -> p < nsym ->
  symbol_name img nsym p = Ret s ->
  reachable d -> s ∈ (key <$> entries d) ++ (snd <$> ps1) ->
  exists fuel0, forall fuel m, fuel0 <= fuel -> k < m ->
    symbol_loop m fuel img nsym i d = Abort "Memory allocation failed.".
Proof.
  induction k as [|k IH]; intros i ps1 p d H Hp Hs Hd Hin; simpl in H.
  - simplify_eq. simpl in Hin. rewrite app_nil_r in Hin.
    apply present_key in Hin as (e & ent & Hent & <-).
    pose proof (reachable_wf d Hd) as Hwf.
    exists (DICT_SIZE d). intros fuel [|m] Hfuel Hm; [lia|].
    rewrite symbol_loop_unfold, decide_False by lia.
    rewrite Hs, Ret_bind.
    by rewrite (dict_add_again fuel d e ent Hwf Hent Hfuel).
  - case_decide; [simplify_eq; lia|].
    apply bind_Ret in H as (s1 & Hs1 & H).
    apply bind_Ret in H as (aux & Haux & H).
    apply bind_Ret in H as ([rest j] & Hrest & H). simplify_eq.
    pose proof (reachable_wf d Hd) as Hwf.
    destruct (key_dec_entries d s1) as [(e & ent & Hent & <-)|Habs].
    + exists (DICT_SIZE d). intros fuel [|m] Hfuel Hm; [lia|].
      rewrite symbol_loop_unfold, decide_False by done.
      rewrite Hs1, Ret_bind.
      by rewrite (dict_add_again fuel d e ent Hwf Hent Hfuel).
    + destruct (dict_add_insert (2 * DICT_SIZE d) d s1 Hwf Habs)
        as (d1 & Hadd & He1 & _); [done|].
      assert (Hd1 : reachable d1) by (by eapply reachable_add).
      destruct (IH _ _ _ d1 Hrest Hp Hs Hd1) as [fuel0 Hloop].
      { rewrite He1, fmap_app, <- app_assoc. done. }
      exists (Nat.max (2 * DICT_SIZE d) fuel0).
      intros fuel [|m] Hfuel Hm; [lia|].
      rewrite symbol_loop_unfold, decide_False by done.
      rewrite Hs1, Ret_bind.
      rewrite (dict_add_mono _ fuel _ _ _ _ Hadd) by lia.
      rewrite Ret_bind. cbv beta iota. rewrite Haux, Ret_bind.
      apply Hloop; lia.
Qed.

(** X6.  When the traversal of the symbol records comes to a record whose
    name one of the records it has visited already had, [get_symbol_names]
    does not skip it: the run ends there with "Memory allocation failed.",
    whatever follows that record, records that decode or not. *)
Theorem repeated_name_aborts_scan img nsym ps1 p s :
  scan_first (length ps1) img nsym 0 = Ret (ps1, p) -> p < nsym ->
  symbol_name img nsym p = Ret s -> s ∈ snd <$> ps1 ->
  exists fuel0, forall fuel, fuel0 <= fuel ->
    get_symbol_names fuel img nsym = Abort "Memory allocation failed.".
Proof.
  intros Hscan Hp Hs Hin.
  destruct (symbol_loop_repeat img nsym s (length ps1) 0 ps1 p new_dict
              Hscan Hp Hs reachable_new) as [fuel0 H]; [done|].
  exists (Nat.max fuel0 (S (length ps1))). intros fuel Hfuel.
  apply H; lia.
Qed.

Lemma repeated_name_aborts_scan_witness :
  scan_first (length [(0, str "foo")]) cut_image 3 0
  = Ret ([(0, str "foo")], 1) /\
  1 < 3 /\ symbol_name cut_image 3 1 = Ret (str "foo") /\
  (str "foo" ∈ snd <$> [(0, str "foo")]) /\
  primary_symbols cut_image 3 = Undef /\
  exists fuel0, forall fuel, fuel0 <= fuel ->
    get_symbol_names fuel cut_image 3 = Abort "Memory allocation failed.".
Proof.
  assert (H1 : scan_first (length [(0, str "foo")]) cut_image 3 0
               = Ret ([(0, str "foo")], 1)) by (vm_compute; reflexivity).
  assert (H2 : 1 < 3) by lia.
  assert (H3 : symbol_name cut_image 3 1 = Ret (str "foo"))
    by (vm_compute; reflexivity).
  assert (H4 : str "foo" ∈ snd <$> [(0, str "foo")])
    by (apply (bool_decide_unpack _); vm_compute; exact I).
  split; [exact H1|]. split; [exact H2|]. split; [exact H3|].
  split; [exact H4|]. split; [vm_compute; reflexivity|].
  exact (repeated_name_aborts_scan cut_image 3 _ 1 (str "foo") H1 H2 H3 H4).
Defined.

(** ** A symbol renamed to the empty string *)

(** X9.  Let the input decode to primary symbols with pairwise distinct
    names in an image that holds all [nsym] records, and let every old
    name of the renames be one of these names.  Then the run ends with
    tables in which a primary symbol whose final name is the empty string
    has an all-zero name field, which a reader takes for a string-table
    reference at offset 0: decoded as [get_symbol_names] decodes names,
    the symbol's name in the output is the C string at the start of the
    string table, that is, the bytes of the table's own length field;
    unless the table's length is a multiple of 256 this is not the empty
    name. *)
Theorem empty_name_reads_table_length img nsym ps pairs k p s :
  primary_symbols img nsym = Ret ps -> NoDup (snd <$> ps) ->
  nsym * IMAGE_SIZEOF_SYMBOL <= length img ->
  Forall (fun pr => pr.1 ∈ snd <$> ps) pairs ->
  ps !! k = Some (p, s) -> final_name pairs s = [] ->
  exists fuel0 symtab tab,
    (forall fuel, fuel0 <= fuel ->
       smc fuel img nsym pairs = Ret (symtab, Some <$> tab)) /\
    load_bytes (symtab ++ tab) (sym_offset p) 8 = Ret (replicate 8 x00) /\
    symbol_name (symtab ++ tab) nsym p = c_string tab /\
    (length tab mod 256 <> 0 -> symbol_name (symtab ++ tab) nsym p <> Ret []).
Proof.
  intros Hscan Hnd Hbound Hall Hk Hname.
  destruct (smc_total img nsym ps pairs Hscan Hnd Hbound Hall)
    as (fuel0 & d & d' & img' & b & Hrun & _ & _ & Hl & _ & Hc & Hcar).
  set (body := strtab_body (final_name pairs <$> (snd <$> ps))) in *.
  set (tab := dword_bytes (to_DWORD (cnt b)) ++ body) in *.
  pose proof (scan_positions _ _ _ _ _ Hscan _ _ _ Hk) as Hp.
  specialize (Hcar _ _ _ Hk). rewrite Hname in Hcar. unfold carries in Hcar.
  rewrite decide_True in Hcar by (simpl; lia).
  change ([] ++ replicate (8 - strlen []) x00) with (replicate 8 x00) in Hcar.
  assert (Hrec : sym_offset p + 8 <= nsym * IMAGE_SIZEOF_SYMBOL)
    by (unfold sym_offset, IMAGE_SIZEOF_SYMBOL; lia).
  rewrite load_bytes_take in Hcar by lia.
  assert (Hf : load_bytes (take (nsym * IMAGE_SIZEOF_SYMBOL) img' ++ tab)
                 (sym_offset p) 8 = Ret (replicate 8 x00))
    by (rewrite output_load by lia; done).
  assert (Hn : symbol_name (take (nsym * IMAGE_SIZEOF_SYMBOL) img' ++ tab)
                 nsym p = c_string tab).
  { destruct (load_dword_field _ _ _ Hf) as [Hshort Hlong].
    rewrite (symbol_name_long _ _ _ _ Hshort Hlong).
    change (Z.to_nat _) with 0. rewrite Nat.add_0_r. unfold string_at.
    by rewrite drop_app_length'
      by (rewrite length_take; unfold sym_offset; lia). }
  exists fuel0, (take (nsym * IMAGE_SIZEOF_SYMBOL) img'), tab.
  split_and!; [|done|done|].
  - intros fuel Hfuel. by apply Hrun.
  - intros Hmod. rewrite Hn.
    assert (Hhead : byte_of_Z (to_DWORD (cnt b)) <> x00).
    { intros E. apply (f_equal byte_val) in E. rewrite byte_val_of_Z in E.
      change (byte_val x00) with 0%Z in E.
      unfold tab in Hmod. rewrite length_app in Hmod.
      change (length (dword_bytes _)) with 4 in Hmod.
      unfold to_DWORD in E.
      change (2 ^ 32)%Z with 4294967296%Z in E. lia. }
    unfold tab, dword_bytes.
    rewrite <- app_comm_cons. cbn [c_string].
    rewrite decide_False by done.
    intros H. apply bind_Ret in H as (r & _ & H). done.
Qed.

Lemma empty_name_reads_table_length_witness :
  primary_symbols demo_image 4 = Ret demo_symbols /\
  NoDup (snd <$> demo_symbols) /\
  4 * IMAGE_SIZEOF_SYMBOL <= length demo_image /\
  Forall (fun pr => pr.1 ∈ snd <$> demo_symbols) blank_pairs /\
  demo_symbols !! 1 = Some (2, str "bar") /\
  final_name blank_pairs (str "bar") = [] /\
  exists fuel0 symtab tab,
    (forall fuel, fuel0 <= fuel ->
       smc fuel demo_image 4 blank_pairs = Ret (symtab, Some <$> tab)) /\
    load_bytes (symtab ++ tab) (sym_offset 2) 8 = Ret (replicate 8 x00) /\
    symbol_name (symtab ++ tab) 4 2 = c_string tab /\
    (length tab mod 256 <> 0 -> symbol_name (symtab ++ tab) 4 2 <> Ret []).
Proof.
  assert (H1 : primary_symbols demo_image 4 = Ret demo_symbols)
    by (vm_compute; reflexivity).
  assert (H2 : NoDup (snd <$> demo_symbols))
    by (apply (bool_decide_unpack _); vm_compute; exact I).
  assert (H3 : 4 * IMAGE_SIZEOF_SYMBOL <= length demo_image)
    by (vm_compute; lia).
  assert (H4 : Forall (fun pr => pr.1 ∈ snd <$> demo_symbols) blank_pairs)
    by (apply (bool_decide_unpack _); vm_compute; exact I).
  assert (H5 : demo_symbols !! 1 = Some (2, str "bar")) by reflexivity.
  assert (H6 : final_name blank_pairs (str "bar") = [])
    by (vm_compute; reflexivity).
  split; [exact H1|]. split; [exact H2|]. split; [exact H3|].
  split; [exact H4|]. split; [exact H5|]. split; [exact H6|].
  exact (empty_name_reads_table_length demo_image 4 demo_symbols blank_pairs
           1 2 (str "bar") H1 H2 H3 H4 H5 H6).
Defined.
